(** * Stock write path: store of record and cache

    A shallow embedding of [src/stocks/commands/write_stock.py]:
    [set_stock_for_product], [update_stock_mysql], [check_in_items_to_stock],
    [check_out_items_from_stock], [update_stock_redis] and
    [_populate_redis_from_mysql], together with the part of SQLAlchemy,
    MySQL and Redis behaviour these functions rely on.

    The functions are effectful: they talk to a relational database through
    sessions and to a Redis server.  They are embedded in a state-and-exception
    monad over a [world] holding the committed tables, the views of the open
    sessions, the Redis keyspace, a log of session life-cycle calls, and a
    plan of faults that decides which calls to a collaborator raise. *)

From Stdlib Require Import ZArith String Ascii DecimalString DecimalZ DecimalPos.
From stdpp Require Import base option list gmap strings.

Local Open Scope Z_scope.
Local Open Scope string_scope.
Local Open Scope list_scope.

(** ** Python values *)

(** A decimal number [digits * 10 ^ exponent], as held by a DECIMAL column. *)
Inductive Decimal := Dec (digits : Z) (exponent : Z).

Global Instance Decimal_eq_dec : EqDecision Decimal.
Proof. solve_decision. Defined.

(** Exceptions.  [ExternalError] is whatever a collaborator (SQLAlchemy, the
    database driver, redis-py) raises; the others come from Python itself. *)
Inductive exn :=
  | AttributeError
  | TypeError
  | ValueError
  | IndexError
  | ExternalError (tag : string).

Global Instance exn_eq_dec : EqDecision exn.
Proof. solve_decision. Defined.

Inductive outcome (A : Type) :=
  | Return (a : A)
  | Raise (e : exn).
Arguments Return {A} a.
Arguments Raise {A} e.

(** [str(n)] for an integer: its decimal text. *)
Definition py_str (z : Z) : string := NilEmpty.string_of_int (Z.to_int z).

(** White space as [int] skips it around a literal: space, tab, line feed,
    vertical tab, form feed and carriage return. *)
Definition is_space (c : ascii) : bool :=
  match c with
  | " " | "009" | "010" | "011" | "012" | "013" => true
  | _ => false
  end%char.

Definition is_digit (c : ascii) : bool :=
  match c with
  | "0" | "1" | "2" | "3" | "4" | "5" | "6" | "7" | "8" | "9" => true
  | _ => false
  end%char.

Fixpoint lstrip (s : string) : string :=
  match s with
  | String c s' => if is_space c then lstrip s' else s
  | "" => ""
  end.

Fixpoint rstrip (s : string) : string :=
  match s with
  | String c s' =>
      match rstrip s' with
      | "" => if is_space c then "" else String c ""
      | t => String c t
      end
  | "" => ""
  end.

(** Decimal digits, which single underscores may group: the text starts and
    ends with a digit and no two underscores are adjacent.  [after_digit]
    tells whether the character before was a digit. *)
Fixpoint grouped (after_digit : bool) (s : string) : bool :=
  match s with
  | "" => after_digit
  | String c s' =>
      if is_digit c then grouped true s'
      else if Ascii.eqb c "_" then after_digit && grouped false s'
      else false
  end.

Fixpoint ungroup (s : string) : string :=
  match s with
  | "" => ""
  | String c s' => if Ascii.eqb c "_" then ungroup s' else String c (ungroup s')
  end.

(** The value of a digit group; leading zeros are allowed. *)
Definition py_digits (s : string) : option Z :=
  if grouped false s then Z.of_uint <$> NilEmpty.uint_of_string (ungroup s) else None.

(** [int(s)] for a text, read in base 10 as the interpreter does: white space
    around the literal is skipped, then comes at most one sign, [+] or [-],
    then the digits, which single underscores may group.  So the texts
    [+7], [007] and [1_000], and [7] with spaces or a line feed around it,
    are integers; the empty text, a lone sign, [+-7], [_7], [1__0], [7.0],
    [1e3] and a sign followed by a space are not.  [None] stands for
    [ValueError].

    This is the answer of [int] on a text of ASCII characters other than the
    separators 28 to 31, whether the reply of the server arrives as [bytes]
    or as [str].  On other texts the two differ, and [str] also takes the
    digits and spaces of other scripts; there the model answers [None], and
    the statements that conclude from a failure of [int] assume texts of the
    first kind ([plain]).  The interpreter's configurable cap on the length
    of integer texts is not modelled. *)
Definition py_int (s : string) : option Z :=
  match lstrip (rstrip s) with
  | String "+" s' => py_digits s'
  | String "-" s' => Z.opp <$> py_digits s'
  | s' => py_digits s'
  end.

(** The values this module hands to [hset]. *)
Inductive pyval :=
  | PInt (z : Z)
  | PStr (s : string)
  | PFloat (d : Decimal).

(** [float(d)]: the double nearest to the decimal [d].  Doubles are kept
    symbolic; no arithmetic is done on them here. *)
Definition float (d : Decimal) : pyval := PFloat d.

(** ** Redis *)

(** What Redis stores in a hash field: a text.  [FloatText d] is the text
    redis-py writes for [float(d)]; it always contains a point, an exponent or
    letters, so it is never empty and never an integer literal. *)
Inductive rtext :=
  | Text (s : string)
  | FloatText (d : Decimal).

Global Instance rtext_eq_dec : EqDecision rtext.
Proof. solve_decision. Defined.

Definition encode (v : pyval) : rtext :=
  match v with
  | PInt z => Text (py_str z)
  | PStr s => Text s
  | PFloat d => FloatText d
  end.

(** Truth value of what [hget] returns: [None] and the empty text are falsy. *)
Definition truthy (v : option rtext) : bool :=
  match v with
  | None => false
  | Some (Text "") => false
  | Some _ => true
  end.

(** [int(v)] on a field text. *)
Definition int_of_rtext (v : rtext) : outcome Z :=
  match v with
  | Text s => match py_int s with Some z => Return z | None => Raise ValueError end
  | FloatText _ => Raise ValueError
  end.

(** [f"stock:{product_id}"] *)
Definition stock_key (product_id : Z) : string := "stock:" +:+ py_str product_id.

(** The glob [stock:*] of [scan_iter]. *)
Definition matches_stock_pattern (key : string) : bool := String.prefix "stock:" key.

(** [HSET key field value ...]: fields named in the mapping are set, the
    other fields of an existing hash stay. *)
Definition redis_hset (key : string) (mapping : gmap string pyval)
    (c : gmap string (gmap string rtext)) : gmap string (gmap string rtext) :=
  <[key := (encode <$> mapping) ∪ default ∅ (c !! key)]> c.

Definition redis_hget (key field : string) (c : gmap string (gmap string rtext))
    : option rtext :=
  c !! key ≫= λ h, h !! field.

Definition redis_scan_stock (c : gmap string (gmap string rtext)) : list string :=
  filter (λ k, matches_stock_pattern k = true) (map_to_list c).*1.

(** A pipeline is the list of queued [hset] commands, oldest first. *)
Definition run_pipeline (queue : list (string * gmap string pyval))
    (c : gmap string (gmap string rtext)) : gmap string (gmap string rtext) :=
  foldl (λ acc cmd, redis_hset cmd.1 cmd.2 acc) c queue.

(** ** Store of record *)

(** Modelled from the spec: [stocks.models.stock.Stock], whose declaration
    is not in [write_stock.py]: a [product_id], the unique key of the table,
    and a [quantity].  Quantities are unbounded integers: the core checks
    neither sign nor magnitude, and the range of the column is not modelled. *)
Module Stock.
Record t := Make { product_id : Z; quantity : Z }.
End Stock.

(** Modelled from the spec: [stocks.models.product.Product], whose declaration
    is not in [write_stock.py]: [id], [name], [sku] and a decimal [price]. *)
Module Product.
Record t := Make { id : Z; name : string; sku : string; price : Decimal }.
End Product.

Global Instance Stock_eq_dec : EqDecision Stock.t.
Proof. solve_decision. Defined.
Global Instance Product_eq_dec : EqDecision Product.t.
Proof. solve_decision. Defined.

(** Modelled from the spec: [product_id] is the unique key of [stocks], so an
    INSERT of a second row for a product id breaks it.  The reference of
    [product_id] to a product is not enforced: the spec treats a stock row
    without product as a valid state. *)
Definition violates_unique_key (new_stock : Stock.t) (rows : list Stock.t) : Prop :=
  Stock.product_id new_stock ∈ Stock.product_id <$> rows.

Global Instance violates_unique_key_dec new_stock rows :
  Decision (violates_unique_key new_stock rows).
Proof. unfold violates_unique_key. apply _. Defined.

Record tables := Tables {
  stocks : list Stock.t;
  products : list Product.t
}.

(** [UPDATE stocks SET quantity = :qty WHERE product_id = :pid].
    Returns the row count and the new table.  SQLAlchemy's MySQL dialects
    connect with the found-rows flag, so the count is that of matched rows. *)
Definition sql_update_set (pid qty : Z) (rows : list Stock.t) : Z * list Stock.t :=
  (Z.of_nat (length (filter (λ r, Stock.product_id r = pid) rows)),
   (λ r, if decide (Stock.product_id r = pid)
         then Stock.Make (Stock.product_id r) qty else r) <$> rows).

(** The operator text spliced into the batch statement (line 62).  The model
    covers the two texts the module itself passes, [+] (line 76) and [-]
    (line 72), for which the statement is the arithmetic update below.  For
    any other text the server runs whatever SQL the splice produces; that is
    not modelled, [None] marks it, and every statement about
    [update_stock_mysql] fixes the operator or assumes
    [sql_operator operation = Some f]. *)
Definition sql_operator (operation : string) : option (Z → Z → Z) :=
  if decide (operation = "+") then Some Z.add
  else if decide (operation = "-") then Some Z.sub
  else None.

(** [UPDATE stocks SET quantity = quantity <op> :qty WHERE product_id = :pid] *)
Definition sql_update_arith (f : Z → Z → Z) (pid qty : Z) (rows : list Stock.t)
    : Z * list Stock.t :=
  (Z.of_nat (length (filter (λ r, Stock.product_id r = pid) rows)),
   (λ r, if decide (Stock.product_id r = pid)
         then Stock.Make (Stock.product_id r) (f (Stock.quantity r) qty) else r) <$> rows).

(** [SELECT s.product_id, s.quantity, p.name, p.sku, p.price
     FROM stocks s JOIN products p ON s.product_id = p.id] *)
Definition sql_join (t : tables) : list (Z * Z * string * string * Decimal) :=
  s ← stocks t;
  p ← filter (λ p, Stock.product_id s = Product.id p) (products t);
  [(Stock.product_id s, Stock.quantity s, Product.name p, Product.sku p, Product.price p)].

(** ** The world and the monad *)

Inductive event :=
  | Opened (h : nat)
  | Committed (h : nat)
  | RolledBack (h : nat)
  | Closed (h : nat).

Global Instance event_eq_dec : EqDecision event.
Proof. solve_decision. Defined.

Record world := World {
  committed : tables;                       (* what the database holds *)
  sessions : gmap nat tables;               (* open sessions: handle to view *)
  cache : gmap string (gmap string rtext);  (* the Redis keyspace *)
  log : list event;                         (* session life-cycle calls *)
  faults : list (option exn)                (* one entry per collaborator call *)
}.

Definition set_committed (t : tables) (w : world) : world :=
  World t (sessions w) (cache w) (log w) (faults w).
Definition set_sessions (s : gmap nat tables) (w : world) : world :=
  World (committed w) s (cache w) (log w) (faults w).
Definition set_cache (c : gmap string (gmap string rtext)) (w : world) : world :=
  World (committed w) (sessions w) c (log w) (faults w).
Definition add_event (e : event) (w : world) : world :=
  World (committed w) (sessions w) (cache w) (log w ++ [e]) (faults w).
Definition set_faults (f : list (option exn)) (w : world) : world :=
  World (committed w) (sessions w) (cache w) (log w) f.

(** A computation runs in a world and returns or raises; the world it leaves
    is kept in both cases. *)
Definition M (A : Type) : Type := world → outcome A * world.

Definition ret {A} (a : A) : M A := λ w, (Return a, w).
Definition raise {A} (e : exn) : M A := λ w, (Raise e, w).
Definition bind {A B} (m : M A) (k : A → M B) : M B :=
  λ w, match m w with
       | (Return a, w') => k a w'
       | (Raise e, w') => (Raise e, w')
       end.

Global Instance M_ret : MRet M := @ret.
Global Instance M_bind : MBind M := λ A B k m, bind m k.

(** [try: body  except Exception as e: handler(e)] *)
Definition try_except {A} (body : M A) (handler : exn → M A) : M A :=
  λ w, match body w with
       | (Return a, w') => (Return a, w')
       | (Raise e, w') => handler e w'
       end.

(** [try: body  finally: cleanup].  An exception of the cleanup replaces the
    outcome of the body. *)
Definition try_finally {A} (body : M A) (cleanup : M unit) : M A :=
  λ w, match body w with
       | (r, w') => match cleanup w' with
                    | (Return _, w'') => (r, w'')
                    | (Raise e, w'') => (Raise e, w'')
                    end
       end.

(** [for x in xs: body(x)] *)
Fixpoint for_each {A} (xs : list A) (body : A → M unit) : M unit :=
  match xs with
  | [] => ret tt
  | x :: xs' => body x ;; for_each xs' body
  end.

(** Lifting a pure outcome. *)
Definition lift {A} (r : outcome A) : M A := λ w, (r, w).

(** Every call to a collaborator consumes one entry of the fault plan and
    raises when the entry says so.  An exhausted plan means no more faults. *)
Definition collaborator_call : M unit :=
  λ w, match faults w with
       | Some e :: fs => (Raise e, set_faults fs w)
       | None :: fs => (Return tt, set_faults fs w)
       | [] => (Return tt, w)
       end.

(** [for x in xs: s = body(s, x)], for a loop that builds up local state. *)
Fixpoint fold_for {A S} (xs : list A) (s : S) (body : S → A → M S) : M S :=
  match xs with
  | [] => ret s
  | x :: xs' => s' ← body s x; fold_for xs' s' body
  end.

(** ** Sessions (SQLAlchemy) *)

(** What a session sees: its own view while it is open, else the committed
    tables (a session begins a transaction on its first statement). *)
Definition session_view (session : nat) (w : world) : tables :=
  default (committed w) (sessions w !! session).

Definition set_view (session : nat) (t : tables) (w : world) : world :=
  set_sessions (<[session := t]> (sessions w)) w.

(** Modelled from the spec: [db.get_sqlalchemy_session()], whose code is not
    in [write_stock.py]; it hands out a new session, here a fresh handle whose
    view starts as the committed tables. *)
Definition get_sqlalchemy_session : M nat :=
  bind collaborator_call (λ _ w,
    let h := fresh (dom (sessions w)) in
    (Return h, add_event (Opened h) (set_view h (committed w) w))).

(** [session.execute(text("UPDATE stocks SET quantity = :qty WHERE
    product_id = :pid"), ...)]; the result is [result.rowcount]. *)
Definition session_execute_update_set (session : nat) (pid qty : Z) : M Z :=
  bind collaborator_call (λ _ w,
    let t := session_view session w in
    let r := sql_update_set pid qty (stocks t) in
    (Return r.1, set_view session (Tables r.2 (products t)) w)).

(** [session.execute(text(f"UPDATE stocks SET quantity = quantity {operation}
    :qty WHERE product_id = :pid"), ...)]; the result is [result.rowcount].
    For an operator text outside the model the command stops with a marker;
    nothing is stated about that case. *)
Definition session_execute_update_arith (session : nat) (operation : string)
    (pid qty : Z) : M Z :=
  bind collaborator_call (λ _,
    match sql_operator operation with
    | None => raise (ExternalError "statement outside the model")
    | Some f =>
        λ w, let t := session_view session w in
             let r := sql_update_arith f pid qty (stocks t) in
             (Return r.1, set_view session (Tables r.2 (products t)) w)
    end).

(** [session.add(new_stock); session.flush()]: the INSERT is sent; the server
    refuses it when it breaks the unique key. *)
Definition session_add_flush (session : nat) (new_stock : Stock.t) : M unit :=
  bind collaborator_call (λ _ w,
    let t := session_view session w in
    if decide (violates_unique_key new_stock (stocks t))
    then (Raise (ExternalError "IntegrityError"), w)
    else (Return tt,
          set_view session (Tables (stocks t ++ [new_stock]) (products t)) w)).

(** [session.commit()] *)
Definition session_commit (session : nat) : M unit :=
  bind collaborator_call (λ _ w,
    (Return tt,
     add_event (Committed session) (set_committed (session_view session w) w))).

(** [session.rollback()] and [session.close()] are taken not to raise. *)
Definition session_rollback (session : nat) : M unit :=
  λ w, (Return tt, add_event (RolledBack session) (set_view session (committed w) w)).

Definition session_close (session : nat) : M unit :=
  λ w, (Return tt,
        add_event (Closed session) (set_sessions (delete session (sessions w)) w)).

(** [session.query(Product).filter(Product.id == product_id).first()] *)
Definition session_query_product_first (session : nat) (product_id : Z)
    : M (option Product.t) :=
  bind collaborator_call (λ _ w,
    (Return (head (filter (λ p, Product.id p = product_id)
                          (products (session_view session w)))), w)).

(** [session.query(Product).filter(Product.id.in_(product_ids)).all()] *)
Definition session_query_products_in (session : nat) (product_ids : gset Z)
    : M (list Product.t) :=
  bind collaborator_call (λ _ w,
    (Return (filter (λ p, Product.id p ∈ product_ids)
                    (products (session_view session w))), w)).

(** [session.execute(text("SELECT ... FROM stocks s JOIN products p ...")).fetchall()] *)
Definition session_execute_join (session : nat)
    : M (list (Z * Z * string * string * Decimal)) :=
  bind collaborator_call (λ _ w, (Return (sql_join (session_view session w)), w)).

(** ** The Redis connection (redis-py) *)

(** Modelled from the spec: [db.get_redis_conn()], whose code is not in
    [write_stock.py].  The connection carries no state of its own: the
    keyspace it talks to is that of the world. *)
Definition get_redis_conn : M unit := collaborator_call.

(** [r.hset(key, mapping=mapping)] *)
Definition r_hset (key : string) (mapping : gmap string pyval) : M unit :=
  bind collaborator_call (λ _ w,
    (Return tt, set_cache (redis_hset key mapping (cache w)) w)).

(** [r.hget(key, field)] *)
Definition r_hget (key field : string) : M (option rtext) :=
  bind collaborator_call (λ _ w, (Return (redis_hget key field (cache w)), w)).

(** [list(r.scan_iter("stock:*"))] *)
Definition r_scan_iter_stock : M (list string) :=
  bind collaborator_call (λ _ w, (Return (redis_scan_stock (cache w)), w)).

(** [pipeline.execute()]: the queued commands reach the server, in order. *)
Definition pipeline_execute (queue : list (string * gmap string pyval)) : M unit :=
  bind collaborator_call (λ _ w,
    (Return tt, set_cache (run_pipeline queue (cache w)) w)).

(** ** Order items *)

(** An order item is an object with attributes [product_id], [quantity] and
    possibly [unit_price], or a dict with these keys. *)
Module OrderItem.
Record fields := Fields {
  product_id : Z;
  quantity : Z;
  unit_price : option Decimal
}.
Inductive t :=
  | Object (f : fields)
  | Mapping (f : fields).
End OrderItem.

(** [hasattr(item, 'product_id')] *)
Definition hasattr_product_id (item : OrderItem.t) : bool :=
  match item with
  | OrderItem.Object _ => true
  | OrderItem.Mapping _ => false
  end.

(** [item.attr]: a dict has no such attribute. *)
Definition getattr {A} (item : OrderItem.t) (attr : OrderItem.fields → A) : outcome A :=
  match item with
  | OrderItem.Object f => Return (attr f)
  | OrderItem.Mapping _ => Raise AttributeError
  end.

(** [item['key']]: an object is not subscriptable. *)
Definition getitem {A} (item : OrderItem.t) (key : OrderItem.fields → A) : outcome A :=
  match item with
  | OrderItem.Mapping f => Return (key f)
  | OrderItem.Object _ => Raise TypeError
  end.

(** [order_items[0]] *)
Definition first_item (order_items : list OrderItem.t) : outcome OrderItem.t :=
  match order_items with
  | item :: _ => Return item
  | [] => Raise IndexError
  end.

(** ** The commands of [write_stock.py] *)

(** The [try] block of [set_stock_for_product]. *)
Definition set_stock_try (session : nat) (product_id quantity : Z) : M string :=
  rowcount ← session_execute_update_set session product_id quantity;
  response_message ←
    (if decide (rowcount = 0)
     then session_add_flush session (Stock.Make product_id quantity) ;;
          ret ("rows added: " +:+ py_str product_id)
     else ret ("rows updated: " +:+ py_str rowcount));
  session_commit session ;;
  product ← session_query_product_first session product_id;
  let redis_payload : gmap string pyval := {["quantity" := PInt quantity]} in
  let redis_payload :=
    match product with
    | Some product =>
        <["name" := PStr (Product.name product)]>
        (<["sku" := PStr (Product.sku product)]>
        (<["price" := float (Product.price product)]> redis_payload))
    | None => redis_payload
    end in
  r ← get_redis_conn;
  r_hset (stock_key product_id) redis_payload ;;
  ret response_message.

(** [set_stock_for_product(product_id, quantity)] *)
Definition set_stock_for_product (product_id quantity : Z) : M string :=
  session ← get_sqlalchemy_session;
  try_finally
    (try_except
       (set_stock_try session product_id quantity)
       (λ e, session_rollback session ;; raise e))
    (session_close session).

(** The body of the loop of [update_stock_mysql].  The shape test looks at
    [order_items[0]], whatever the current item is. *)
Definition update_item (session : nat) (order_items : list OrderItem.t)
    (operation : string) (item : OrderItem.t) : M unit :=
  first ← lift (first_item order_items);
  '(pid, qty) ←
    (if hasattr_product_id first
     then pid ← lift (getattr item OrderItem.product_id);
          qty ← lift (getattr item OrderItem.quantity);
          ret (pid, qty)
     else pid ← lift (getitem item OrderItem.product_id);
          qty ← lift (getitem item OrderItem.quantity);
          ret (pid, qty));
  session_execute_update_arith session operation pid qty ;;
  ret tt.

(** [update_stock_mysql(session, order_items, operation)] *)
Definition update_stock_mysql (session : nat) (order_items : list OrderItem.t)
    (operation : string) : M unit :=
  try_except
    (for_each order_items (update_item session order_items operation))
    (λ e, raise e).

(** [check_out_items_from_stock(session, order_items)] *)
Definition check_out_items_from_stock (session : nat) (order_items : list OrderItem.t)
    : M unit :=
  update_stock_mysql session order_items "-".

(** [check_in_items_to_stock(session, order_items)] *)
Definition check_in_items_to_stock (session : nat) (order_items : list OrderItem.t)
    : M unit :=
  update_stock_mysql session order_items "+".

(** The [hset] commands the loop of [_populate_redis_from_mysql] queues,
    one per fetched row. *)
Definition populate_pipeline (stocks : list (Z * Z * string * string * Decimal))
    : list (string * gmap string pyval) :=
  (λ '(product_id, quantity, name, sku, price),
     (stock_key product_id,
      <["quantity" := PInt quantity]>
      (<["name" := PStr name]>
      (<["sku" := PStr sku]>
      (<["price" := float price]> ∅))))) <$> stocks.

(** The [try] block of [_populate_redis_from_mysql]. *)
Definition populate_try (session : nat) : M unit :=
  stocks ← session_execute_join session;
  if decide (length stocks = 0%nat) then ret tt
  else pipeline_execute (populate_pipeline stocks).

(** [_populate_redis_from_mysql(redis_conn)].  The [print] calls are left
    out: the console is not part of the world. *)
Definition _populate_redis_from_mysql (redis_conn : unit) : M unit :=
  session ← get_sqlalchemy_session;
  try_finally
    (try_except (populate_try session) (λ e, raise e))
    (session_close session).

(** One normalized item: [(product_id, quantity, unit_price)]. *)
Definition normalize (item : OrderItem.t) : outcome (Z * Z * option Decimal) :=
  if hasattr_product_id item
  then match getattr item OrderItem.product_id, getattr item OrderItem.quantity with
       | Return product_id, Return quantity =>
           Return (product_id, quantity,
                   match item with
                   | OrderItem.Object f => OrderItem.unit_price f
                   | OrderItem.Mapping _ => None
                   end)
       | Raise e, _ | _, Raise e => Raise e
       end
  else match getitem item OrderItem.product_id, getitem item OrderItem.quantity,
             getitem item OrderItem.unit_price with
       | Return product_id, Return quantity, Return unit_price =>
           Return (product_id, quantity, unit_price)
       | Raise e, _, _ | _, Raise e, _ | _, _, Raise e => Raise e
       end.

(** The body of the second loop of [update_stock_redis], for one item: read,
    compute, build the mapping, queue the [hset]. *)
Definition adjust_item (operation : string) (product_map : gmap Z Product.t)
    (pipeline : list (string * gmap string pyval))
    (item : Z * Z * option Decimal) : M (list (string * gmap string pyval)) :=
  let '(product_id, quantity, unit_price) := item in
  current_stock ← r_hget (stock_key product_id) "quantity";
  current_stock ←
    (if truthy current_stock
     then match current_stock with
          | Some v => lift (int_of_rtext v)
          | None => ret 0
          end
     else ret 0);
  let new_quantity :=
    if decide (operation = "+") then current_stock + quantity
    else current_stock - quantity in
  let mapping : gmap string pyval := {["quantity" := PInt new_quantity]} in
  let mapping :=
    match product_map !! product_id with
    | Some product =>
        <["name" := PStr (Product.name product)]>
        (<["sku" := PStr (Product.sku product)]>
        (<["price" := float (Product.price product)]> mapping))
    | None =>
        match unit_price with
        | Some unit_price => <["price" := float unit_price]> mapping
        | None => mapping
        end
    end in
  ret (pipeline ++ [(stock_key product_id, mapping)]).

(** The body of the first loop of [update_stock_redis]: normalize the item,
    remember it and its product id. *)
Definition collect_item (state : gset Z * list (Z * Z * option Decimal))
    (item : OrderItem.t) : M (gset Z * list (Z * Z * option Decimal)) :=
  let '(product_ids, normalized_items) := state in
  '(product_id, quantity, unit_price) ← lift (normalize item);
  ret ({[product_id]} ∪ product_ids,
       normalized_items ++ [(product_id, quantity, unit_price)]).

(** [update_stock_redis], from the normalization loop to the end. *)
Definition adjust_entries (order_items : list OrderItem.t) (operation : string)
    : M unit :=
  '(product_ids, normalized_items) ← fold_for order_items (∅, []) collect_item;
  session ← get_sqlalchemy_session;
  try_finally
    (products ←
       (if decide (product_ids = ∅) then ret []
        else session_query_products_in session product_ids);
     let product_map : gmap Z Product.t :=
       foldl (λ m product, <[Product.id product := product]> m) ∅ products in
     pipeline ← fold_for normalized_items [] (adjust_item operation product_map);
     pipeline_execute pipeline)
    (session_close session).

(** [update_stock_redis(order_items, operation)] *)
Definition update_stock_redis (order_items : list OrderItem.t) (operation : string)
    : M unit :=
  match order_items with
  | [] => ret tt
  | _ :: _ =>
      r ← get_redis_conn;
      keys ← r_scan_iter_stock;
      (match keys with
       | [] => _populate_redis_from_mysql r
       | _ :: _ => ret tt
       end) ;;
      adjust_entries order_items operation
  end.

(** * Derived notions used in the statements *)

(** ** The batch store path *)

Definition fields_of (item : OrderItem.t) : OrderItem.fields :=
  match item with
  | OrderItem.Object f => f
  | OrderItem.Mapping f => f
  end.

(** What the loop of [update_stock_mysql] makes of [item] when the first item
    of the sequence is [first]. *)
Definition normalize_as (first item : OrderItem.t) : outcome (Z * Z) :=
  if hasattr_product_id first
  then match item with
       | OrderItem.Object f => Return (OrderItem.product_id f, OrderItem.quantity f)
       | OrderItem.Mapping _ => Raise AttributeError
       end
  else match item with
       | OrderItem.Mapping f => Return (OrderItem.product_id f, OrderItem.quantity f)
       | OrderItem.Object _ => Raise TypeError
       end.

(** The statements the loop gets to issue before it ends or raises. *)
Fixpoint issued (first : OrderItem.t) (xs : list OrderItem.t) : list (Z * Z) :=
  match xs with
  | [] => []
  | item :: xs' =>
      match normalize_as first item with
      | Return pq => pq :: issued first xs'
      | Raise _ => []
      end
  end.

Fixpoint batch_outcome (first : OrderItem.t) (xs : list OrderItem.t) : outcome unit :=
  match xs with
  | [] => Return tt
  | item :: xs' =>
      match normalize_as first item with
      | Return _ => batch_outcome first xs'
      | Raise e => Raise e
      end
  end.

Definition apply_statements (f : Z → Z → Z) (stmts : list (Z * Z))
    (rows : list Stock.t) : list Stock.t :=
  foldl (λ rows pq, (sql_update_arith f pq.1 pq.2 rows).2) rows stmts.

(** All items have the shape of the first one. *)
Definition uniform (order_items : list OrderItem.t) : bool :=
  match order_items with
  | [] => true
  | first :: _ =>
      forallb (λ item, bool_decide (hasattr_product_id item = hasattr_product_id first))
              order_items
  end.

(** The sum of the quantities the statements carry for [pid]. *)
Definition delta (pid : Z) (stmts : list (Z * Z)) : Z :=
  foldr (λ pq acc, if decide (pq.1 = pid) then pq.2 + acc else acc) 0 stmts.

(** The rows of a table for one product id. *)
Definition records_of (pid : Z) (rows : list Stock.t) : list Stock.t :=
  filter (λ r, Stock.product_id r = pid) rows.

(** ** The direct stock writer *)

(** The field mapping written for [quantity] and the product found, if any. *)
Definition writer_payload (quantity : Z) (product : option Product.t)
    : gmap string pyval :=
  match product with
  | Some product =>
      <["name" := PStr (Product.name product)]>
      (<["sku" := PStr (Product.sku product)]>
      (<["price" := float (Product.price product)]>
      {["quantity" := PInt quantity]}))
  | None => {["quantity" := PInt quantity]}
  end.

(** The product a lookup by id finds. *)
Definition product_by_id (product_id : Z) (t : tables) : option Product.t :=
  head (filter (λ p, Product.id p = product_id) (products t)).

(** ** The cache path *)

(** An item as the cache path normalizes it. *)
Definition normalized (item : OrderItem.t) : Z * Z * option Decimal :=
  (OrderItem.product_id (fields_of item), OrderItem.quantity (fields_of item),
   OrderItem.unit_price (fields_of item)).

(** The current quantity of an entry: a missing or falsy field counts as 0,
    any other text is read as an integer. *)
Definition current_stock (c : gmap string (gmap string rtext)) (product_id : Z)
    : outcome Z :=
  match redis_hget (stock_key product_id) "quantity" c with
  | None => Return 0
  | Some (Text "") => Return 0
  | Some v => int_of_rtext v
  end.

(** The quantity the cache path reads for a product, 0 when the field does
    not read as an integer (the call raises in that case). *)
Definition read_stock (c : gmap string (gmap string rtext)) (product_id : Z) : Z :=
  match current_stock c product_id with
  | Return z => z
  | Raise _ => 0
  end.

(** The quantity field of the entry reads as an integer, or is missing or
    falsy. *)
Definition readable (c : gmap string (gmap string rtext)) (product_id : Z) : Prop :=
  ∃ z, current_stock c product_id = Return z.

(** A text of decimal digits only. *)
Definition digits_only (s : string) : bool := forallb is_digit (list_ascii_of_string s).

(** ASCII characters other than the separators 28 to 31: on texts made of
    these, [int] on [bytes] and [int] on [str] agree with [py_int]. *)
Definition plain_char (c : ascii) : bool :=
  let n := nat_of_ascii c in
  (Nat.ltb n 28 || Nat.ltb 31 n) && Nat.ltb n 128.

Definition plain (s : string) : bool := forallb plain_char (list_ascii_of_string s).

(** The quantity field of the entry, when there is one, is a plain text. *)
Definition plain_quantity (c : gmap string (gmap string rtext)) (product_id : Z) : Prop :=
  match redis_hget (stock_key product_id) "quantity" c with
  | Some (Text s) => plain s = true
  | _ => True
  end.

(** Current plus delta for [+], current minus delta otherwise. *)
Definition new_quantity (operation : string) (current delta : Z) : Z :=
  if decide (operation = "+") then current + delta else current - delta.

(** The snapshot of a product id: the row of [products] with that id (the
    last one, should the id repeat). *)
Definition snapshot_of (product_id : Z) (t : tables) : option Product.t :=
  last (filter (λ p, Product.id p = product_id) (products t)).

(** The field mapping of an adjusted entry: the quantity; with a product
    snapshot also name, sku and price; else, with a unit price, the price. *)
Definition adjusted_mapping (product : option Product.t) (unit_price : option Decimal)
    (quantity : Z) : gmap string pyval :=
  match product, unit_price with
  | Some product, _ =>
      <["name" := PStr (Product.name product)]>
      (<["sku" := PStr (Product.sku product)]>
      (<["price" := float (Product.price product)]>
      {["quantity" := PInt quantity]}))
  | None, Some unit_price => <["price" := float unit_price]> {["quantity" := PInt quantity]}
  | None, None => {["quantity" := PInt quantity]}
  end.

(** The write queued for one normalized item when the cache is [c]. *)
Definition adjust_command (operation : string) (t : tables)
    (c : gmap string (gmap string rtext)) (item : Z * Z * option Decimal)
    : outcome (string * gmap string pyval) :=
  match current_stock c item.1.1 with
  | Return current =>
      Return (stock_key item.1.1,
              adjusted_mapping (snapshot_of item.1.1 t) item.2
                               (new_quantity operation current item.1.2))
  | Raise e => Raise e
  end.

(** The write queued for a normalized item whose entry is readable. *)
Definition entry_write (operation : string) (t : tables)
    (c : gmap string (gmap string rtext)) (item : Z * Z * option Decimal)
    : string * gmap string pyval :=
  (stock_key item.1.1,
   adjusted_mapping (snapshot_of item.1.1 t) item.2
                    (new_quantity operation (read_stock c item.1.1) item.1.2)).

(** [f] on every element, in order, up to the first that raises. *)
Fixpoint collect {A B} (f : A → outcome B) (xs : list A) : outcome (list B) :=
  match xs with
  | [] => Return []
  | x :: xs' =>
      match f x with
      | Return y =>
          match collect f xs' with
          | Return ys => Return (y :: ys)
          | Raise e => Raise e
          end
      | Raise e => Raise e
      end
  end.

(** The last normalized item of the sequence for a product id. *)
Definition last_item_for (product_id : Z) (items : list (Z * Z * option Decimal))
    : option (Z * Z * option Decimal) :=
  last (filter (λ item, item.1.1 = product_id) items).

(** The cache has an entry in the stock namespace. *)
Definition warm (c : gmap string (gmap string rtext)) : Prop :=
  redis_scan_stock c ≠ [].

(** ** Rehydration *)

(** The product id of a joined row. *)
Definition row_id (row : Z * Z * string * string * Decimal) : Z := row.1.1.1.1.

(** The stock row has a matching product. *)
Definition has_product (t : tables) (s : Stock.t) : Prop :=
  Stock.product_id s ∈ Product.id <$> products t.

Global Instance has_product_dec (t : tables) (s : Stock.t) : Decision (has_product t s).
Proof. unfold has_product. apply _. Defined.

(** The entry rehydration writes for one joined row. *)
Definition rehydrated_entry (row : Z * Z * string * string * Decimal)
    : gmap string rtext :=
  let '(product_id, quantity, name, sku, price) := row in
  {["quantity" := Text (py_str quantity); "name" := Text name;
    "sku" := Text sku; "price" := FloatText price]}.

(** The cache once rehydrated from the tables [t]. *)
Definition rehydrated (t : tables) (c : gmap string (gmap string rtext))
    : gmap string (gmap string rtext) :=
  run_pipeline (populate_pipeline (sql_join t)) c.

(** The cache the per-item processing of [update_stock_redis] starts from. *)
Definition cache_at_start (w : world) : gmap string (gmap string rtext) :=
  match redis_scan_stock (cache w) with
  | [] => rehydrated (committed w) (cache w)
  | _ :: _ => cache w
  end.

(** ** Exit paths

    [session_frame allowed h w w']: from [w] to [w'] only the view of [h]
    changed among the sessions, the log grew by events that are [allowed],
    and the committed tables changed only if the log grew. *)
Definition session_frame (allowed : event → Prop) (h : nat) (w w' : world) : Prop :=
  delete h (sessions w') = delete h (sessions w)
  ∧ ∃ evs, log w' = log w ++ evs
           ∧ Forall allowed evs
           ∧ (evs = [] → committed w' = committed w).

(** A computation that keeps within the frame, whatever its outcome. *)
Definition framed {A} (allowed : event → Prop) (h : nat) (m : M A) : Prop :=
  ∀ w, session_frame allowed h w (m w).2.

(** ** Worlds and items of the examples *)

Definition widget : Product.t := Product.Make 1 "Widget" "W1" (Dec 999 (-2)).

(** The store holds (product 1, quantity 10) and the product Widget; the
    cache is empty, no session is open and no call fails. *)
Definition cold_world : world :=
  World (Tables [Stock.Make 1 10] [widget]) ∅ ∅ [] [].

(** The example world with its cache rehydrated: product 1 has the entry
    quantity 10, Widget, W1, 9.99. *)
Definition warm_world : world := (_populate_redis_from_mysql tt cold_world).2.

(** The store fails at its commit: third call of [set_stock_for_product 1 _]
    on the example store (session, update, commit). *)
Definition failing_commit_world : world :=
  set_faults [None; None; Some (ExternalError "commit")] cold_world.

(** The example world once product 5, which is in no catalogue, got a stock
    record through a first call of the direct stock writer. *)
Definition world_after_first_write : world :=
  (set_stock_for_product 5 0 cold_world).2.

(** The example world once the cache was adjusted for product 5, which is
    in no catalogue, by an item that carries a unit price of 2.50. *)
Definition world_after_adjustment : world :=
  (update_stock_redis
     [OrderItem.Object (OrderItem.Fields 5 1 (Some (Dec 250 (-2))))] "+" cold_world).2.

Definition as_object (product_id quantity : Z) : OrderItem.t :=
  OrderItem.Object (OrderItem.Fields product_id quantity None).

Definition as_mapping (product_id quantity : Z) : OrderItem.t :=
  OrderItem.Mapping (OrderItem.Fields product_id quantity None).

(** ** Any plan of faults *)

(** From [w] to [w'] nothing changed but, possibly, the plan of faults. *)
Definition same_but_faults (w w' : world) : Prop :=
  committed w' = committed w ∧ sessions w' = sessions w
  ∧ cache w' = cache w ∧ log w' = log w.

(** The tables after the upsert of [set_stock_for_product]. *)
Definition upserted (product_id quantity : Z) (t : tables) : tables :=
  let upd := sql_update_set product_id quantity (stocks t) in
  Tables (if decide (upd.1 = 0) then upd.2 ++ [Stock.Make product_id quantity] else upd.2)
         (products t).

(** The status text of [set_stock_for_product] on the tables [t]. *)
Definition upsert_message (product_id quantity : Z) (t : tables) : string :=
  let upd := sql_update_set product_id quantity (stocks t) in
  if decide (upd.1 = 0) then "rows added: " +:+ py_str product_id
  else "rows updated: " +:+ py_str upd.1.

(** What a call of [set_stock_for_product] in the world [w] may end in: the
    sessions are as before; when it returns, the store holds the upsert, the
    cache entry got the payload and the text says what happened; when it
    raises, the cache is as before and the store is as before or holds the
    upsert. *)
Definition writer_result (product_id quantity : Z) (w : world)
    (r : outcome string * world) : Prop :=
  sessions r.2 = sessions w
  ∧ match r.1 with
    | Return message =>
        committed r.2 = upserted product_id quantity (committed w)
        ∧ cache r.2
          = redis_hset (stock_key product_id)
              (writer_payload quantity (product_by_id product_id (committed w))) (cache w)
        ∧ message = upsert_message product_id quantity (committed w)
    | Raise e =>
        cache r.2 = cache w
        ∧ (committed r.2 = committed w
           ∨ committed r.2 = upserted product_id quantity (committed w))
    end.

(** ** The batch store path under any plan of faults

    [batch_frame session w w']: from [w] to [w'] nothing was committed, rolled
    back, opened or closed, the cache and the other sessions are the same,
    and in the view of [session] the products and the product ids of the
    stock rows are the same: at most quantities changed. *)
Definition batch_frame (session : nat) (w w' : world) : Prop :=
  committed w' = committed w ∧ cache w' = cache w ∧ log w' = log w
  ∧ delete session (sessions w') = delete session (sessions w)
  ∧ products (session_view session w') = products (session_view session w)
  ∧ Stock.product_id <$> stocks (session_view session w')
    = Stock.product_id <$> stocks (session_view session w).

(** The statements a sequence of items stands for: one (product id,
    quantity) per item, in order. *)
Definition statements_of (order_items : list OrderItem.t) : list (Z * Z) :=
  (λ item, (OrderItem.product_id (fields_of item), OrderItem.quantity (fields_of item)))
    <$> order_items.

(** The quantity a sequence of items orders of a product. *)
Definition ordered (pid : Z) (order_items : list OrderItem.t) : Z :=
  delta pid (statements_of order_items).

(** ** The cache path under any plan of faults

    [cache_effect w r on_return on_raise]: the result [r] of a command run in
    [w] leaves the sessions and the committed tables of [w], and a cache that
    satisfies [on_return] when the command returned and [on_raise] when it
    raised. *)
Definition cache_effect {A} (w : world) (r : outcome A * world)
    (on_return : A → gmap string (gmap string rtext) → Prop)
    (on_raise : gmap string (gmap string rtext) → Prop) : Prop :=
  sessions r.2 = sessions w ∧ committed r.2 = committed w
  ∧ match r.1 with
    | Return a => on_return a (cache r.2)
    | Raise _ => on_raise (cache r.2)
    end.


(** ** Texts of integers and keys *)

Lemma string_of_to_int_shape (z : Z) :
  NilEmpty.string_of_int (Z.to_int z) ≠ "" ∧ NilEmpty.string_of_int (Z.to_int z) ≠ "-".
Proof.
  destruct z as [|p|p]; simpl; [split; discriminate| |].
  - pose proof (DecimalPos.Unsigned.to_uint_nonnil p) as Hn.
    destruct (Pos.to_uint p) eqn:E; try congruence; simpl; split; discriminate.
  - pose proof (DecimalPos.Unsigned.to_uint_nonnil p) as Hn.
    destruct (Pos.to_uint p) eqn:E; try congruence; simpl; split; discriminate.
Qed.

Lemma string_of_uint_digits (d : Decimal.uint) :
  digits_only (NilEmpty.string_of_uint d) = true.
Proof. induction d; simpl; done. Qed.

Lemma digit_not_space c : is_digit c = true → is_space c = false.
Proof. destruct c as [[] [] [] [] [] [] [] []]; done. Qed.

Lemma digit_not_underscore c : is_digit c = true → Ascii.eqb c "_" = false.
Proof. destruct c as [[] [] [] [] [] [] [] []]; done. Qed.

Lemma digits_only_cons c s :
  digits_only (String c s) = true ↔ is_digit c = true ∧ digits_only s = true.
Proof. unfold digits_only. simpl. by rewrite andb_true_iff. Qed.

Lemma lstrip_digits s : digits_only s = true → lstrip s = s.
Proof.
  destruct s as [|c s]; [done|]. intros [Hc _]%digits_only_cons. simpl.
  by rewrite digit_not_space.
Qed.

Lemma rstrip_digits s : digits_only s = true → rstrip s = s.
Proof.
  induction s as [|c s IH]; [done|]. intros [Hc Hs]%digits_only_cons. simpl.
  rewrite IH, digit_not_space by done. by destruct s.
Qed.

Lemma ungroup_digits s : digits_only s = true → ungroup s = s.
Proof.
  induction s as [|c s IH]; [done|]. intros [Hc Hs]%digits_only_cons. simpl.
  by rewrite IH, digit_not_underscore.
Qed.

Lemma grouped_digits b s : digits_only s = true → s ≠ "" ∨ b = true → grouped b s = true.
Proof.
  revert b. induction s as [|c s IH]; intros b Hs Hne.
  - by destruct Hne.
  - apply digits_only_cons in Hs as [Hc Hs]. simpl. rewrite Hc. apply IH; [done|by right].
Qed.

Lemma py_digits_text (d : Decimal.uint) :
  NilEmpty.string_of_uint d ≠ "" →
  py_digits (NilEmpty.string_of_uint d) = Some (Z.of_uint d).
Proof.
  intros Hne. unfold py_digits.
  rewrite grouped_digits, ungroup_digits, NilEmpty.usu;
    [done|apply string_of_uint_digits..|by left].
Qed.

Lemma py_int_unsigned s : digits_only s = true → s ≠ "" → py_int s = py_digits s.
Proof.
  intros Hs Hne. unfold py_int. rewrite rstrip_digits, lstrip_digits by done.
  destruct s as [|c s]; [done|]. apply digits_only_cons in Hs as [Hc _].
  destruct c as [[] [] [] [] [] [] [] []]; done.
Qed.

Lemma py_int_negative s :
  digits_only s = true → s ≠ "" → py_int (String "-" s) = Z.opp <$> py_digits s.
Proof.
  intros Hs Hne. unfold py_int. cbn [rstrip]. rewrite rstrip_digits by done.
  destruct s as [|c s]; [done|]. done.
Qed.

Lemma py_int_str (z : Z) : py_int (py_str z) = Some z.
Proof.
  unfold py_str. rewrite <- (DecimalZ.of_to z) at 2.
  destruct z as [|p|p]; cbn [Z.to_int NilEmpty.string_of_int Z.of_int].
  - done.
  - assert (NilEmpty.string_of_uint (Pos.to_uint p) ≠ "") as Hne.
    { pose proof (DecimalPos.Unsigned.to_uint_nonnil p). by destruct (Pos.to_uint p). }
    rewrite py_int_unsigned, py_digits_text; [done..|apply string_of_uint_digits|done].
  - assert (NilEmpty.string_of_uint (Pos.to_uint p) ≠ "") as Hne.
    { pose proof (DecimalPos.Unsigned.to_uint_nonnil p). by destruct (Pos.to_uint p). }
    rewrite py_int_negative, py_digits_text; [done..|apply string_of_uint_digits|done].
Qed.

Global Instance py_str_inj : Inj (=) (=) py_str.
Proof.
  intros x y H. apply (f_equal py_int) in H. rewrite !py_int_str in H. congruence.
Qed.

Global Instance stock_key_inj : Inj (=) (=) stock_key.
Proof.
  intros x y H. unfold stock_key in H.
  by apply String.app_inj, py_str_inj in H.
Qed.

Lemma stock_key_matches (product_id : Z) :
  matches_stock_pattern (stock_key product_id) = true.
Proof. unfold matches_stock_pattern, stock_key. by destruct (py_str product_id). Qed.


(** ** Worlds without faults *)

Lemma session_view_set_view (h : nat) (t : tables) (w : world) :
  session_view h (set_view h t w) = t.
Proof. unfold session_view, set_view. simpl. by rewrite lookup_insert_eq. Qed.

Lemma collaborator_call_quiet (w : world) :
  faults w = [] → collaborator_call w = (Return tt, w).
Proof. intros H. unfold collaborator_call. by rewrite H. Qed.

(** Unfolds the monad down to [collaborator_call], which a world without
    faults lets through. *)
Ltac unfold_calls H :=
  unfold mbind, M_bind, bind, ret, raise, lift;
  rewrite ?(collaborator_call_quiet _ H).

Lemma update_item_quiet session first rest operation f item w :
  faults w = [] → sql_operator operation = Some f →
  update_item session (first :: rest) operation item w =
    match normalize_as first item with
    | Return pq =>
        (Return tt,
         set_view session
           (Tables (sql_update_arith f pq.1 pq.2 (stocks (session_view session w))).2
                   (products (session_view session w))) w)
    | Raise e => (Raise e, w)
    end.
Proof.
  intros Hq Hop. unfold update_item, session_execute_update_arith, normalize_as, first_item.
  unfold_calls Hq. rewrite Hop.
  destruct first, item; simpl; by rewrite ?(collaborator_call_quiet _ Hq).
Qed.

Lemma batch_loop_quiet session first rest operation f xs w :
  faults w = [] → sql_operator operation = Some f →
  let r := for_each xs (update_item session (first :: rest) operation) w in
  r.1 = batch_outcome first xs
  ∧ stocks (session_view session r.2)
    = apply_statements f (issued first xs) (stocks (session_view session w))
  ∧ products (session_view session r.2) = products (session_view session w)
  ∧ faults r.2 = [].
Proof.
  intros Hq Hop. revert w Hq. induction xs as [|item xs IH]; intros w Hq.
  - done.
  - cbn [for_each issued batch_outcome].
    unfold mbind, M_bind, bind. rewrite (update_item_quiet _ _ _ _ f) by done.
    destruct (normalize_as first item) as [pq|e]; [|done].
    set (w1 := set_view session _ w).
    destruct (IH w1 Hq) as (H1 & H2 & H3 & H4).
    subst w1. rewrite !session_view_set_view in H2, H3.
    split_and!; [exact H1 | rewrite H2; reflexivity | exact H3 | exact H4].
Qed.

Lemma update_stock_mysql_quiet session order_items operation f w :
  faults w = [] → sql_operator operation = Some f →
  let r := update_stock_mysql session order_items operation w in
  r.1 = match order_items with
        | [] => Return tt
        | first :: _ => batch_outcome first order_items
        end
  ∧ stocks (session_view session r.2)
    = match order_items with
      | [] => stocks (session_view session w)
      | first :: _ =>
          apply_statements f (issued first order_items) (stocks (session_view session w))
      end
  ∧ products (session_view session r.2) = products (session_view session w)
  ∧ faults r.2 = [].
Proof.
  intros Hq Hop. unfold update_stock_mysql, try_except.
  destruct order_items as [|first rest]; [done|].
  pose proof (batch_loop_quiet session first rest operation f (first :: rest) w Hq Hop) as H.
  cbv zeta in H.
  destruct (for_each (first :: rest) (update_item session (first :: rest) operation) w)
    as [[u|e] w'] eqn:E; exact H.
Qed.

Lemma sql_update_arith_ids f pid qty rows :
  Stock.product_id <$> (sql_update_arith f pid qty rows).2 = Stock.product_id <$> rows.
Proof.
  unfold sql_update_arith. cbn [snd]. rewrite <- list_fmap_compose.
  apply list_fmap_ext. intros i r _. simpl. by destruct (decide _).
Qed.

Lemma apply_statements_ids f stmts rows :
  Stock.product_id <$> apply_statements f stmts rows = Stock.product_id <$> rows.
Proof.
  revert rows. induction stmts as [|pq stmts IH]; intros rows; [done|].
  unfold apply_statements in *. cbn [foldl]. rewrite IH. apply sql_update_arith_ids.
Qed.

Lemma records_of_absent pid rows :
  pid ∉ Stock.product_id <$> rows ↔ records_of pid rows = [].
Proof.
  unfold records_of. induction rows as [|r rows IH].
  { split; [done|]. intros _. apply not_elem_of_nil. }
  rewrite filter_cons, fmap_cons, not_elem_of_cons.
  destruct (decide (Stock.product_id r = pid)) as [Heq|Hne].
  - split; [intros [? _]; congruence | discriminate].
  - rewrite <- IH. split; [by intros [_ ?] | by intros ?].
Qed.

Lemma sql_update_arith_absent f pid qty rows :
  pid ∉ Stock.product_id <$> rows → sql_update_arith f pid qty rows = (0, rows).
Proof.
  intros Hno. unfold sql_update_arith. f_equal.
  - apply records_of_absent in Hno. unfold records_of in Hno. by rewrite Hno.
  - rewrite <- (list_fmap_id rows) at 2. apply list_fmap_ext. intros i r Hr.
    destruct (decide _) as [Heq|]; [|done]. exfalso. apply Hno.
    rewrite <- Heq. apply list_elem_of_fmap_2. eapply list_elem_of_lookup_2, Hr.
Qed.

Lemma apply_statements_delta sign stmts rows :
  apply_statements (λ a b, a + sign * b) stmts rows =
  (λ r, Stock.Make (Stock.product_id r)
                   (Stock.quantity r + sign * delta (Stock.product_id r) stmts)) <$> rows.
Proof.
  revert rows. induction stmts as [|pq stmts IH]; intros rows.
  - simpl. rewrite <- (list_fmap_id rows) at 1. apply list_fmap_ext.
    intros i [p q] _. simpl. f_equal. lia.
  - unfold apply_statements in *. cbn [foldl]. rewrite IH.
    unfold sql_update_arith. cbn [snd]. rewrite <- list_fmap_compose.
    apply list_fmap_ext. intros i [p q] _. simpl.
    destruct (decide (p = pq.1)) as [->|Hne]; simpl.
    + rewrite decide_True by done. f_equal. lia.
    + rewrite decide_False by done. done.
Qed.

Lemma apply_statements_ext f g stmts rows :
  (∀ a b, f a b = g a b) → apply_statements f stmts rows = apply_statements g stmts rows.
Proof.
  intros Hfg. unfold apply_statements. revert rows.
  induction stmts as [|pq stmts IH]; intros rows; [done|].
  cbn [foldl]. rewrite IH. f_equal. unfold sql_update_arith. cbn [snd].
  apply list_fmap_ext. intros i r _. simpl. destruct (decide _); [|done]. by rewrite Hfg.
Qed.

Lemma apply_statements_add stmts rows :
  apply_statements Z.add stmts rows =
  (λ r, Stock.Make (Stock.product_id r)
                   (Stock.quantity r + delta (Stock.product_id r) stmts)) <$> rows.
Proof.
  rewrite (apply_statements_ext Z.add (λ a b, a + 1 * b)) by (intros; lia).
  rewrite apply_statements_delta. apply list_fmap_ext. intros i r _. simpl. f_equal; lia.
Qed.

Lemma apply_statements_sub stmts rows :
  apply_statements Z.sub stmts rows =
  (λ r, Stock.Make (Stock.product_id r)
                   (Stock.quantity r - delta (Stock.product_id r) stmts)) <$> rows.
Proof.
  rewrite (apply_statements_ext Z.sub (λ a b, a + (-1) * b)) by (intros; lia).
  rewrite apply_statements_delta. apply list_fmap_ext. intros i r _. simpl. f_equal; lia.
Qed.

(** Adding and then subtracting the same statements, in either order,
    restores every row. *)
Lemma apply_statements_cancel stmts rows :
  apply_statements Z.sub stmts (apply_statements Z.add stmts rows) = rows
  ∧ apply_statements Z.add stmts (apply_statements Z.sub stmts rows) = rows.
Proof.
  rewrite (apply_statements_sub stmts (apply_statements Z.add stmts rows)).
  rewrite (apply_statements_add stmts (apply_statements Z.sub stmts rows)).
  rewrite (apply_statements_sub stmts rows), (apply_statements_add stmts rows).
  rewrite <- !list_fmap_compose.
  split; (etrans; [|apply list_fmap_id]); apply list_fmap_ext;
    intros i [p q] _; simpl; f_equal; lia.
Qed.

Lemma batch_outcome_uniform first rest :
  uniform (first :: rest) = true → batch_outcome first (first :: rest) = Return tt.
Proof.
  unfold uniform. generalize (first :: rest) as xs. intros xs.
  induction xs as [|item xs IH]; [done|].
  cbn [forallb batch_outcome]. rewrite andb_true_iff, bool_decide_eq_true.
  intros [Hshape Hrest]. unfold normalize_as.
  destruct first, item; simpl in *; try discriminate; by apply IH.
Qed.

Lemma issued_uniform first rest :
  uniform (first :: rest) = true →
  issued first (first :: rest)
  = (λ item, (OrderItem.product_id (fields_of item), OrderItem.quantity (fields_of item)))
      <$> (first :: rest).
Proof.
  unfold uniform. generalize (first :: rest) as xs. intros xs.
  induction xs as [|item xs IH]; [done|].
  cbn [forallb issued]. rewrite andb_true_iff, bool_decide_eq_true.
  intros [Hshape Hrest]. unfold normalize_as. rewrite fmap_cons.
  destruct first, item; simpl in *; try discriminate; by rewrite IH.
Qed.

(** ** Exit paths: sessions and log *)

Section Frames.
Context (allowed : event → Prop) (h : nat).

Lemma session_frame_refl w : session_frame allowed h w w.
Proof. split; [done|]. exists []. by rewrite app_nil_r. Qed.

Lemma session_frame_trans w1 w2 w3 :
  session_frame allowed h w1 w2 → session_frame allowed h w2 w3 →
  session_frame allowed h w1 w3.
Proof.
  intros (Hs1 & evs1 & Hl1 & Ha1 & Hc1) (Hs2 & evs2 & Hl2 & Ha2 & Hc2).
  split; [congruence|]. exists (evs1 ++ evs2). split_and!.
  - by rewrite Hl2, Hl1, app_assoc.
  - by apply Forall_app.
  - intros [-> ->]%app_eq_nil. rewrite Hc2, Hc1; done.
Qed.

Lemma framed_ret {A} (a : A) : framed allowed h (ret a).
Proof. intros w. apply session_frame_refl. Qed.

Lemma framed_raise {A} (e : exn) : framed allowed h (@raise A e).
Proof. intros w. apply session_frame_refl. Qed.

Lemma framed_lift {A} (r : outcome A) : framed allowed h (lift r).
Proof. intros w. apply session_frame_refl. Qed.

Lemma framed_bind {A B} (m : M A) (k : A → M B) :
  framed allowed h m → (∀ a, framed allowed h (k a)) → framed allowed h (m ≫= k).
Proof.
  intros Hm Hk w. unfold mbind, M_bind, bind. specialize (Hm w).
  destruct (m w) as [[a|e] w1]; [|exact Hm].
  eapply session_frame_trans; [exact Hm|apply Hk].
Qed.

Lemma framed_collaborator_call : framed allowed h collaborator_call.
Proof.
  intros w. unfold collaborator_call.
  destruct (faults w) as [|[e|] fs]; split; try done; exists []; by rewrite app_nil_r.
Qed.

(** A step that, after the collaborator answered, only changes the view
    of [h] or the cache. *)
Lemma framed_call_then {A} (step : world → outcome A * world) :
  (∀ w, session_frame allowed h w (step w).2) →
  framed allowed h (bind collaborator_call (λ _, step)).
Proof.
  intros Hstep w. unfold bind.
  pose proof (framed_collaborator_call w) as Hc.
  destruct (collaborator_call w) as [[[]|e] w1]; [|exact Hc].
  eapply session_frame_trans; [exact Hc|apply Hstep].
Qed.


Lemma session_frame_set_cache c w : session_frame allowed h w (set_cache c w).
Proof. split; [done|]. exists []. by rewrite app_nil_r. Qed.





Lemma framed_execute_join : framed allowed h (session_execute_join h).
Proof. apply framed_call_then. intros w. apply session_frame_refl. Qed.



Lemma framed_pipeline_execute queue : framed allowed h (pipeline_execute queue).
Proof. apply framed_call_then. intros w. apply session_frame_set_cache. Qed.

Lemma framed_try_except {A} (body : M A) (handler : exn → M A) :
  framed allowed h body → (∀ e, framed allowed h (handler e)) →
  framed allowed h (try_except body handler).
Proof.
  intros Hb Hh w. unfold try_except. specialize (Hb w).
  destruct (body w) as [[a|e] w1]; [exact Hb|].
  eapply session_frame_trans; [exact Hb|apply Hh].
Qed.
End Frames.


(** Obtaining a session: either the call raises and nothing changed but the
    fault plan, or a fresh handle is opened on the committed tables. *)
Lemma get_sqlalchemy_session_cases w :
  (∃ e, (get_sqlalchemy_session w).1 = Raise e
        ∧ sessions (get_sqlalchemy_session w).2 = sessions w
        ∧ log (get_sqlalchemy_session w).2 = log w
        ∧ committed (get_sqlalchemy_session w).2 = committed w
        ∧ cache (get_sqlalchemy_session w).2 = cache w)
  ∨ (∃ h, (get_sqlalchemy_session w).1 = Return h
          ∧ sessions w !! h = None
          ∧ sessions (get_sqlalchemy_session w).2 = <[h := committed w]> (sessions w)
          ∧ log (get_sqlalchemy_session w).2 = (log w ++ [Opened h])
          ∧ committed (get_sqlalchemy_session w).2 = committed w
          ∧ cache (get_sqlalchemy_session w).2 = cache w).
Proof.
  unfold get_sqlalchemy_session, bind, collaborator_call.
  destruct (faults w) as [|[e|] fs]; simpl.
  - right. eexists. split_and!; try done. apply not_elem_of_dom, is_fresh.
  - left. by exists e.
  - right. eexists. split_and!; try done. apply not_elem_of_dom, is_fresh.
Qed.

(** ** Collaborator calls in a world without faults *)

Section Quiet.
Context (w : world) (Hq : faults w = []).

Lemma get_sqlalchemy_session_quiet :
  get_sqlalchemy_session w =
    (Return (fresh (dom (sessions w))),
     add_event (Opened (fresh (dom (sessions w))))
               (set_view (fresh (dom (sessions w))) (committed w) w)).
Proof. unfold get_sqlalchemy_session, bind. by rewrite collaborator_call_quiet. Qed.

Lemma session_execute_update_set_quiet h pid qty :
  session_execute_update_set h pid qty w =
    (Return (sql_update_set pid qty (stocks (session_view h w))).1,
     set_view h (Tables (sql_update_set pid qty (stocks (session_view h w))).2
                        (products (session_view h w))) w).
Proof. unfold session_execute_update_set, bind. by rewrite collaborator_call_quiet. Qed.

Lemma session_add_flush_quiet h row :
  Stock.product_id row ∉ Stock.product_id <$> stocks (session_view h w) →
  session_add_flush h row w =
    (Return tt,
     set_view h (Tables (stocks (session_view h w) ++ [row])
                        (products (session_view h w))) w).
Proof.
  intros Hno. unfold session_add_flush, bind.
  rewrite collaborator_call_quiet by done. by rewrite decide_False.
Qed.

Lemma session_commit_quiet h :
  session_commit h w =
    (Return tt, add_event (Committed h) (set_committed (session_view h w) w)).
Proof. unfold session_commit, bind. by rewrite collaborator_call_quiet. Qed.

Lemma session_query_product_first_quiet h pid :
  session_query_product_first h pid w =
    (Return (product_by_id pid (session_view h w)), w).
Proof. unfold session_query_product_first, bind. by rewrite collaborator_call_quiet. Qed.

Lemma session_query_products_in_quiet h ids :
  session_query_products_in h ids w =
    (Return (filter (λ p, Product.id p ∈ ids) (products (session_view h w))), w).
Proof. unfold session_query_products_in, bind. by rewrite collaborator_call_quiet. Qed.

Lemma session_execute_join_quiet h :
  session_execute_join h w = (Return (sql_join (session_view h w)), w).
Proof. unfold session_execute_join, bind. by rewrite collaborator_call_quiet. Qed.

Lemma get_redis_conn_quiet : get_redis_conn w = (Return tt, w).
Proof. by apply collaborator_call_quiet. Qed.

Lemma r_hset_quiet key mapping :
  r_hset key mapping w = (Return tt, set_cache (redis_hset key mapping (cache w)) w).
Proof. unfold r_hset, bind. by rewrite collaborator_call_quiet. Qed.

Lemma r_hget_quiet key field :
  r_hget key field w = (Return (redis_hget key field (cache w)), w).
Proof. unfold r_hget, bind. by rewrite collaborator_call_quiet. Qed.

Lemma r_scan_iter_stock_quiet :
  r_scan_iter_stock w = (Return (redis_scan_stock (cache w)), w).
Proof. unfold r_scan_iter_stock, bind. by rewrite collaborator_call_quiet. Qed.

Lemma pipeline_execute_quiet queue :
  pipeline_execute queue w = (Return tt, set_cache (run_pipeline queue (cache w)) w).
Proof. unfold pipeline_execute, bind. by rewrite collaborator_call_quiet. Qed.
End Quiet.

Lemma session_view_add_event h e w : session_view h (add_event e w) = session_view h w.
Proof. done. Qed.

Lemma session_view_set_cache h c w : session_view h (set_cache c w) = session_view h w.
Proof. done. Qed.

Lemma session_view_commit h w :
  session_view h (set_committed (session_view h w) w) = session_view h w.
Proof. unfold session_view. simpl. by destruct (sessions w !! h). Qed.

Lemma world_eq w1 w2 :
  committed w1 = committed w2 → sessions w1 = sessions w2 → cache w1 = cache w2 →
  log w1 = log w2 → faults w1 = faults w2 → w1 = w2.
Proof. destruct w1, w2. simpl. congruence. Qed.

(** Projections of a world through the setters. *)
Ltac world_simpl :=
  cbn [committed sessions cache log faults stocks products
       set_committed set_sessions set_cache add_event set_faults set_view].

Lemma session_view_set_committed h t t' w :
  session_view h (set_committed t (set_view h t' w)) = t'.
Proof. unfold session_view. simpl. by rewrite lookup_insert_eq. Qed.

Lemma sessions_released h (ss : gmap nat tables) t :
  ss !! h = None → delete h (<[h := t]> ss) = ss.
Proof. intros Hno. rewrite delete_insert_eq. by apply delete_id. Qed.

Create Rewrite HintDb world.
Hint Rewrite session_view_set_view session_view_add_event session_view_set_cache
  session_view_set_committed session_view_commit : world.

(** Runs the next collaborator call of the goal in a world without faults. *)
Ltac quiet_step lem := rewrite lem by (simpl; assumption); cbv beta iota.


(** ** The direct stock writer, without faults *)

Lemma sql_update_set_count pid qty rows :
  (sql_update_set pid qty rows).1 = 0 ↔ records_of pid rows = [].
Proof.
  unfold sql_update_set, records_of. cbn [fst].
  destruct (filter _ rows); simpl; [done|]. split; [lia|done].
Qed.

Lemma sql_update_set_ids pid qty rows :
  Stock.product_id <$> (sql_update_set pid qty rows).2 = Stock.product_id <$> rows.
Proof.
  unfold sql_update_set. cbn [snd]. rewrite <- list_fmap_compose.
  apply list_fmap_ext. intros i r _. simpl. by destruct (decide _).
Qed.


Lemma set_stock_for_product_quiet product_id quantity w :
  faults w = [] →
  let h := fresh (dom (sessions w)) in
  let upd := sql_update_set product_id quantity (stocks (committed w)) in
  let rows := if decide (upd.1 = 0)
              then upd.2 ++ [Stock.Make product_id quantity] else upd.2 in
  let message := if decide (upd.1 = 0) then "rows added: " +:+ py_str product_id
                 else "rows updated: " +:+ py_str upd.1 in
  let payload := writer_payload quantity (product_by_id product_id (committed w)) in
  set_stock_for_product product_id quantity w =
    (Return message,
     World (Tables rows (products (committed w)))
           (sessions w)
           (redis_hset (stock_key product_id) payload (cache w))
           (log w ++ [Opened h; Committed h; Closed h])
           []).
Proof.
  intros Hq h upd rows message payload.
  unfold set_stock_for_product, set_stock_try, try_finally, try_except,
    mbind, M_bind, bind, ret.
  quiet_step get_sqlalchemy_session_quiet. fold h.
  quiet_step session_execute_update_set_quiet.
  autorewrite with world. fold upd.
  assert (upd.1 = 0 → product_id ∉ Stock.product_id <$> upd.2) as Hfresh.
  { intros H0. subst upd. rewrite sql_update_set_ids.
    apply records_of_absent. exact (proj1 (sql_update_set_count product_id quantity _) H0). }
  destruct (decide (upd.1 = 0)) as [H0|H0].
  - rewrite session_add_flush_quiet;
      [|exact Hq|autorewrite with world; by apply Hfresh].
    cbv beta iota.
    quiet_step session_commit_quiet.
    quiet_step session_query_product_first_quiet.
    quiet_step get_redis_conn_quiet.
    quiet_step r_hset_quiet.
    unfold session_close. cbv beta iota. f_equal.
    autorewrite with world.
    apply world_eq; world_simpl.
    + done.
    + rewrite !insert_insert_eq. apply sessions_released, not_elem_of_dom, is_fresh.
    + done.
    + by rewrite <- !app_assoc.
    + done.
  - quiet_step session_commit_quiet.
    quiet_step session_query_product_first_quiet.
    quiet_step get_redis_conn_quiet.
    quiet_step r_hset_quiet.
    unfold session_close. cbv beta iota. f_equal.
    autorewrite with world.
    apply world_eq; world_simpl.
    + done.
    + rewrite !insert_insert_eq. apply sessions_released, not_elem_of_dom, is_fresh.
    + done.
    + by rewrite <- !app_assoc.
    + done.
Qed.

(** ** The cache path, without faults *)

Lemma populate_quiet w :
  faults w = [] →
  _populate_redis_from_mysql tt w =
    (Return tt,
     World (committed w) (sessions w) (rehydrated (committed w) (cache w))
           (log w ++ [Opened (fresh (dom (sessions w))); Closed (fresh (dom (sessions w)))])
           []).
Proof.
  intros Hq. unfold _populate_redis_from_mysql, populate_try, try_finally, try_except,
    mbind, M_bind, bind, ret.
  quiet_step get_sqlalchemy_session_quiet.
  quiet_step session_execute_join_quiet.
  autorewrite with world. unfold rehydrated.
  destruct (decide (length (sql_join (committed w)) = 0%nat)) as [Hlen|Hlen].
  - apply length_zero_iff_nil in Hlen. rewrite Hlen.
    unfold session_close. cbv beta iota. f_equal.
    apply world_eq; world_simpl; try done.
    + apply sessions_released, not_elem_of_dom, is_fresh.
    + by rewrite <- app_assoc.
  - quiet_step pipeline_execute_quiet.
    unfold session_close. cbv beta iota. f_equal.
    apply world_eq; world_simpl; try done.
    + apply sessions_released, not_elem_of_dom, is_fresh.
    + by rewrite <- app_assoc.
Qed.

Lemma normalize_total item : normalize item = Return (normalized item).
Proof. by destruct item as [[]|[]]. Qed.

(** The first loop of [adjust_entries]: it cannot raise. *)
Lemma collect_item_run (ids : gset Z) acc item w :
  collect_item (ids, acc) item w
  = (Return ({[OrderItem.product_id (fields_of item)]} ∪ ids, acc ++ [normalized item]), w).
Proof.
  unfold collect_item, mbind, M_bind, bind, lift, ret.
  rewrite normalize_total. done.
Qed.

Lemma normalize_loop_quiet order_items (ids : gset Z) acc w :
  fold_for order_items (ids, acc) collect_item w
  = (Return (foldl (λ s item, {[OrderItem.product_id (fields_of item)]} ∪ s) ids order_items,
             acc ++ (normalized <$> order_items)), w).
Proof.
  revert ids acc. induction order_items as [|item xs IH]; intros ids acc.
  - simpl. unfold ret. by rewrite app_nil_r.
  - cbn [fold_for]. unfold mbind, M_bind, bind.
    rewrite collect_item_run, IH. cbn [foldl fmap list_fmap]. by rewrite <- app_assoc.
Qed.

Lemma elem_of_collected_ids (ids : gset Z) order_items pid :
  pid ∈ foldl (λ s item, {[OrderItem.product_id (fields_of item)]} ∪ s) ids order_items
  ↔ pid ∈ ids ∨ pid ∈ (λ item, OrderItem.product_id (fields_of item)) <$> order_items.
Proof.
  revert ids. induction order_items as [|item xs IH]; intros ids; cbn [foldl].
  - rewrite fmap_nil, elem_of_nil. tauto.
  - rewrite IH, fmap_cons, elem_of_cons, elem_of_union, elem_of_singleton. tauto.
Qed.

(** The dict [product_map], read at a product id. *)
Lemma product_map_lookup (ps : list Product.t) (m0 : gmap Z Product.t) pid :
  foldl (λ m product, <[Product.id product := product]> m) m0 ps !! pid
  = match last (filter (λ p, Product.id p = pid) ps) with
    | Some p => Some p
    | None => m0 !! pid
    end.
Proof.
  revert m0. induction ps as [|p ps IH]; intros m0; [done|].
  cbn [foldl]. rewrite IH, filter_cons.
  destruct (decide (Product.id p = pid)) as [Heq|Hne].
  - rewrite last_cons. destruct (last (filter _ ps)); [done|].
    by rewrite <- Heq, lookup_insert_eq.
  - destruct (last (filter _ ps)); [done|]. by rewrite lookup_insert_ne.
Qed.

Lemma product_map_snapshot (ids : gset Z) (t : tables) pid :
  pid ∈ ids →
  foldl (λ m product, <[Product.id product := product]> m) (∅ : gmap Z Product.t)
        (filter (λ p, Product.id p ∈ ids) (products t)) !! pid
  = snapshot_of pid t.
Proof.
  intros Hin. rewrite product_map_lookup, lookup_empty. unfold snapshot_of.
  rewrite list_filter_filter.
  rewrite (list_filter_iff _ (λ p, Product.id p = pid)).
  - by destruct (last _).
  - intros p. split; [by intros [? _]|]. intros Heq. split; [done|]. by rewrite Heq.
Qed.

Lemma current_stock_read c pid :
  (if truthy (redis_hget (stock_key pid) "quantity" c)
   then match redis_hget (stock_key pid) "quantity" c with
        | Some v => int_of_rtext v
        | None => Return 0
        end
   else Return 0) = current_stock c pid.
Proof.
  unfold current_stock, truthy.
  destruct (redis_hget (stock_key pid) "quantity" c) as [[[|a s]|d]|]; done.
Qed.

Lemma adjusted_mapping_build (product : option Product.t) unit_price quantity :
  match product with
  | Some product =>
      <["name" := PStr (Product.name product)]>
      (<["sku" := PStr (Product.sku product)]>
      (<["price" := float (Product.price product)]>
      ({["quantity" := PInt quantity]} : gmap string pyval)))
  | None =>
      match unit_price with
      | Some unit_price => <["price" := float unit_price]> {["quantity" := PInt quantity]}
      | None => {["quantity" := PInt quantity]}
      end
  end = adjusted_mapping product unit_price quantity.
Proof. by destruct product, unit_price. Qed.

Lemma adjust_item_quiet operation (product_map : gmap Z Product.t) t pipeline item w :
  faults w = [] →
  product_map !! item.1.1 = snapshot_of item.1.1 t →
  adjust_item operation product_map pipeline item w =
    match adjust_command operation t (cache w) item with
    | Return cmd => (Return (pipeline ++ [cmd]), w)
    | Raise e => (Raise e, w)
    end.
Proof.
  destruct item as [[pid qty] up]. cbn [fst snd]. intros Hq Hmap.
  unfold adjust_item, adjust_command, mbind, M_bind, bind, ret. cbn [fst snd].
  quiet_step r_hget_quiet. unfold current_stock, new_quantity, lift, truthy.
  destruct (redis_hget (stock_key pid) "quantity" (cache w)) as [[[|a s]|d]|];
    cbv beta iota zeta; rewrite ?Hmap, ?adjusted_mapping_build; try done.
  destruct (int_of_rtext (Text (String a s))); cbv beta iota zeta;
    rewrite ?Hmap, ?adjusted_mapping_build; done.
Qed.

Lemma adjust_loop_quiet operation (product_map : gmap Z Product.t) t items pipeline w :
  faults w = [] →
  (∀ item, item ∈ items → product_map !! item.1.1 = snapshot_of item.1.1 t) →
  fold_for items pipeline (adjust_item operation product_map) w =
    match collect (adjust_command operation t (cache w)) items with
    | Return queue => (Return (pipeline ++ queue), w)
    | Raise e => (Raise e, w)
    end.
Proof.
  intros Hq. revert pipeline. induction items as [|item items IH]; intros pipeline Hmap.
  - simpl. unfold ret. by rewrite app_nil_r.
  - cbn [fold_for collect]. unfold mbind, M_bind, bind.
    rewrite (adjust_item_quiet _ _ t) by (try done; apply Hmap; by left).
    destruct (adjust_command operation t (cache w) item) as [cmd|e]; [|done].
    rewrite IH by (intros ? ?; apply Hmap; by right).
    destruct (collect _ items); [|done]. by rewrite <- app_assoc.
Qed.

Lemma adjust_entries_quiet order_items operation w :
  faults w = [] →
  adjust_entries order_items operation w =
    let h := fresh (dom (sessions w)) in
    match collect (adjust_command operation (committed w) (cache w))
                  (normalized <$> order_items) with
    | Return queue =>
        (Return tt,
         World (committed w) (sessions w) (run_pipeline queue (cache w))
               (log w ++ [Opened h; Closed h]) [])
    | Raise e =>
        (Raise e,
         World (committed w) (sessions w) (cache w) (log w ++ [Opened h; Closed h]) [])
    end.
Proof.
  intros Hq. unfold adjust_entries, try_finally, mbind, M_bind, bind.
  rewrite normalize_loop_quiet. cbv beta iota. rewrite app_nil_l.
  quiet_step get_sqlalchemy_session_quiet.
  set (h := fresh (dom (sessions w))).
  set (ids := foldl _ ∅ order_items).
  set (w1 := add_event (Opened h) (set_view h (committed w) w)).
  assert (faults w1 = []) as Hq1 by done.
  assert (∀ item, item ∈ normalized <$> order_items → item.1.1 ∈ ids) as Hids.
  { intros item (it & -> & Hin)%list_elem_of_fmap. apply elem_of_collected_ids. right.
    exact (list_elem_of_fmap_2 (λ item, OrderItem.product_id (fields_of item)) _ _ Hin). }
  assert (∃ ps : list Product.t,
            (if decide (ids = ∅) then ret []
             else session_query_products_in h ids) w1 = (Return ps, w1)
            ∧ ∀ item, item ∈ normalized <$> order_items →
                foldl (λ m product, <[Product.id product := product]> m)
                      (∅ : gmap Z Product.t) ps !! item.1.1
                = snapshot_of item.1.1 (committed w)) as (ps & Hps & Hmap).
  { destruct (decide (ids = ∅)) as [Hempty|Hne].
    - exists []. split; [done|]. intros item Hin%Hids. rewrite Hempty in Hin.
      by apply not_elem_of_empty in Hin.
    - eexists. split; [by apply session_query_products_in_quiet|].
      intros item Hin%Hids. subst w1. autorewrite with world.
      by apply product_map_snapshot. }
  rewrite Hps. cbv beta iota zeta.
  rewrite (adjust_loop_quiet _ _ (committed w)) by done.
  change (cache w1) with (cache w).
  destruct (collect _ _) as [queue|e].
  - rewrite app_nil_l. quiet_step pipeline_execute_quiet.
    unfold session_close. cbv beta iota. f_equal.
    apply world_eq; subst w1; world_simpl; try done.
    + apply sessions_released, not_elem_of_dom, is_fresh.
    + by rewrite <- app_assoc.
  - unfold session_close. cbv beta iota. f_equal.
    apply world_eq; subst w1; world_simpl; try done.
    + apply sessions_released, not_elem_of_dom, is_fresh.
    + by rewrite <- app_assoc.
Qed.

Lemma update_stock_redis_quiet order_items operation w :
  faults w = [] → order_items ≠ [] →
  update_stock_redis order_items operation w =
    adjust_entries order_items operation
      (match redis_scan_stock (cache w) with
       | [] => (_populate_redis_from_mysql tt w).2
       | _ :: _ => w
       end).
Proof.
  intros Hq Hne. unfold update_stock_redis.
  destruct order_items as [|item rest]; [done|].
  unfold mbind, M_bind, bind.
  quiet_step get_redis_conn_quiet. quiet_step r_scan_iter_stock_quiet.
  destruct (redis_scan_stock (cache w)) as [|k ks].
  - rewrite populate_quiet by done. done.
  - done.
Qed.

(** Whatever calls fail: with no key in [stock:*], the call is the connection,
    the scan, the rehydration and then the per-item processing, in that
    order. *)
Lemma update_stock_redis_cold_sequence order_items operation w :
  order_items ≠ [] →
  redis_scan_stock (cache w) = [] →
  update_stock_redis order_items operation w
  = (r ← get_redis_conn;
     r_scan_iter_stock ;;
     _populate_redis_from_mysql r ;;
     adjust_entries order_items operation) w.
Proof.
  intros Hne Hcold. unfold update_stock_redis.
  destruct order_items as [|item rest]; [done|].
  unfold mbind, M_bind, bind, get_redis_conn, r_scan_iter_stock, bind, collaborator_call.
  destruct (faults w) as [|[e|] fs] eqn:Hf; cbn [faults set_faults cache].
  - by rewrite Hf, Hcold.
  - done.
  - destruct fs as [|[e|] fs]; cbn [faults set_faults cache]; by rewrite ?Hcold.
Qed.

(** ** Rehydration *)

Lemma run_pipeline_snoc queue cmd c :
  run_pipeline (queue ++ [cmd]) c = redis_hset cmd.1 cmd.2 (run_pipeline queue c).
Proof. unfold run_pipeline. by rewrite foldl_app. Qed.

Lemma redis_hset_lookup_ne key mapping c k :
  k ≠ key → redis_hset key mapping c !! k = c !! k.
Proof. intros Hne. unfold redis_hset. by rewrite lookup_insert_ne. Qed.

Lemma run_pipeline_lookup_other queue c k :
  (∀ cmd, cmd ∈ queue → cmd.1 ≠ k) → run_pipeline queue c !! k = c !! k.
Proof.
  induction queue as [|cmd queue IH] using rev_ind; intros Hk; [done|].
  rewrite run_pipeline_snoc, redis_hset_lookup_ne.
  - apply IH. intros cmd' Hin. apply Hk, elem_of_app. by left.
  - intros Heq. apply (Hk cmd); [|done]. apply elem_of_app. right. by left.
Qed.

Lemma populate_pipeline_snoc rows row :
  populate_pipeline (rows ++ [row])
  = populate_pipeline rows ++ populate_pipeline [row].
Proof. unfold populate_pipeline. by rewrite fmap_app. Qed.

Lemma populate_command_entry row :
  ∃ m, populate_pipeline [row] = [(stock_key (row_id row), m)]
       ∧ encode <$> m = rehydrated_entry row
       ∧ dom m = ({["quantity"; "name"; "sku"; "price"]} : gset string).
Proof.
  destruct row as [[[[pid qty] name] sku] price]. eexists. split; [done|].
  split.
  - unfold rehydrated_entry. rewrite !fmap_insert, fmap_empty. done.
  - rewrite !dom_insert_L, dom_empty_L. set_solver.
Qed.

Lemma rehydrated_entry_dom row :
  dom (rehydrated_entry row) = ({["quantity"; "name"; "sku"; "price"]} : gset string).
Proof.
  destruct row as [[[[pid qty] name] sku] price]. unfold rehydrated_entry.
  rewrite !dom_insert_L, dom_singleton_L. set_solver.
Qed.

(** A hash written twice with the same fields keeps the later values. *)
Lemma same_fields_union (m1 m2 : gmap string rtext) :
  dom m2 ⊆ dom m1 → m1 ∪ m2 = m1.
Proof.
  intros Hsub. apply map_eq. intros f. rewrite lookup_union.
  destruct (m1 !! f) as [v|] eqn:E1; [by destruct (m2 !! f)|].
  destruct (m2 !! f) as [v|] eqn:E2; [|done].
  exfalso. apply not_elem_of_dom in E1. apply E1, Hsub, elem_of_dom. eauto.
Qed.

(** The entry of a product after rehydration, when it had none before: that
    of the last joined row for the product. *)
Lemma rehydrated_lookup rows c pid :
  c !! stock_key pid = None →
  run_pipeline (populate_pipeline rows) c !! stock_key pid
  = rehydrated_entry <$> last (filter (λ row, row_id row = pid) rows).
Proof.
  intros Hcold. induction rows as [|row rows IH] using rev_ind; [done|].
  rewrite populate_pipeline_snoc, filter_app.
  destruct (populate_command_entry row) as (m & -> & Henc & Hdom).
  rewrite run_pipeline_snoc. cbn [fst snd].
  rewrite filter_cons, filter_nil.
  destruct (decide (row_id row = pid)) as [Heq|Hne].
  - rewrite last_snoc. unfold redis_hset. rewrite Heq, lookup_insert_eq, IH, Henc.
    simpl. f_equal. apply same_fields_union.
    destruct (last _) as [row'|]; simpl.
    + by rewrite !rehydrated_entry_dom.
    + by rewrite dom_empty_L.
  - rewrite app_nil_r, redis_hset_lookup_ne; [done|].
    intros Heq%(inj stock_key). done.
Qed.

Lemma rehydrated_lookup_outside rows c k :
  matches_stock_pattern k = false →
  run_pipeline (populate_pipeline rows) c !! k = c !! k.
Proof.
  intros Hout. apply run_pipeline_lookup_other.
  intros cmd (row & -> & _)%list_elem_of_fmap Heq.
  destruct row as [[[[pid qty] name] sku] price]. simpl in Heq. subst k.
  by rewrite stock_key_matches in Hout.
Qed.

Lemma sql_join_one s (ps : list Product.t) :
  NoDup (Product.id <$> ps) →
  row_id <$> (filter (λ p, Stock.product_id s = Product.id p) ps
                ≫= λ p, [(Stock.product_id s, Stock.quantity s, Product.name p,
                          Product.sku p, Product.price p)])
  = if decide (Stock.product_id s ∈ Product.id <$> ps) then [Stock.product_id s] else [].
Proof.
  induction ps as [|p ps IHp]; intros Hkey.
  - rewrite decide_False; [done|]. apply not_elem_of_nil.
  - rewrite fmap_cons in Hkey. apply NoDup_cons in Hkey as [Hnotin Hnd].
    rewrite filter_cons, fmap_cons.
    destruct (decide (Stock.product_id s = Product.id p)) as [Heq|Hne].
    + rewrite bind_cons, fmap_app, IHp by done.
      rewrite decide_False by by rewrite Heq.
      rewrite decide_True by (rewrite Heq; by left). done.
    + rewrite IHp by done.
      destruct (decide (Stock.product_id s ∈ Product.id <$> ps)) as [Hin|Hnin].
      * rewrite decide_True by by right. done.
      * rewrite decide_False; [done|]. by intros [?|?]%elem_of_cons.
Qed.

(** The joined rows, in table order, are the stock rows that have a
    product. *)
Lemma sql_join_ids t :
  NoDup (Product.id <$> products t) →
  row_id <$> sql_join t
  = Stock.product_id <$> filter (has_product t) (stocks t).
Proof.
  intros Hkey. unfold sql_join. induction (stocks t) as [|s rows IH]; [done|].
  rewrite bind_cons, fmap_app, IH, filter_cons, sql_join_one by done.
  destruct (decide (has_product t s)) as [Hp|Hp]; unfold has_product in Hp.
  - by rewrite decide_True.
  - by rewrite decide_False.
Qed.

Lemma sql_join_rows t row :
  row ∈ sql_join t ↔
  ∃ s p, s ∈ stocks t ∧ p ∈ products t ∧ Stock.product_id s = Product.id p
         ∧ row = (Stock.product_id s, Stock.quantity s,
                  Product.name p, Product.sku p, Product.price p).
Proof.
  unfold sql_join. rewrite list_elem_of_bind. split.
  - intros (s & (p & Hrow & Hp)%list_elem_of_bind & Hs).
    apply list_elem_of_filter in Hp as [Heq Hp].
    apply list_elem_of_singleton in Hrow. by exists s, p.
  - intros (s & p & Hs & Hp & Heq & ->). exists s. split; [|done].
    apply list_elem_of_bind. exists p. split; [by apply list_elem_of_singleton|].
    by apply list_elem_of_filter.
Qed.

Lemma NoDup_fmap_eq {A B} (f : A → B) (l : list A) x y :
  NoDup (f <$> l) → x ∈ l → y ∈ l → f x = f y → x = y.
Proof.
  induction l as [|a l IH]; [by intros _ ?%elem_of_nil|].
  rewrite fmap_cons, NoDup_cons. intros [Hnotin Hnd] Hx Hy Hf.
  apply elem_of_cons in Hx as [->|Hx], Hy as [->|Hy]; [done| | |by apply IH].
  - exfalso. apply Hnotin. rewrite Hf. by apply list_elem_of_fmap_2.
  - exfalso. apply Hnotin. rewrite <- Hf. by apply list_elem_of_fmap_2.
Qed.

Lemma last_filter_elem {A} (P : A → Prop) `{∀ x, Decision (P x)} (l : list A) x :
  x ∈ l → P x → ∃ y, last (filter P l) = Some y ∧ y ∈ l ∧ P y.
Proof.
  intros Hx HP.
  assert (x ∈ filter P l) as Hin by by apply list_elem_of_filter.
  destruct (last (filter P l)) as [y|] eqn:E.
  - exists y. split; [done|]. apply last_Some in E as (l' & E).
    assert (y ∈ filter P l) as Hy by (rewrite E; apply elem_of_app; right; by left).
    apply list_elem_of_filter in Hy as [? ?]. done.
  - apply last_None in E. rewrite E in Hin. by apply elem_of_nil in Hin.
Qed.

(** The entry of a stock row that has a product, after a rehydration of a
    cache that had no entry for it, under the unique keys of both tables. *)
Lemma rehydrated_entry_of t c s p :
  NoDup (Stock.product_id <$> stocks t) →
  NoDup (Product.id <$> products t) →
  s ∈ stocks t → p ∈ products t → Stock.product_id s = Product.id p →
  c !! stock_key (Stock.product_id s) = None →
  rehydrated t c !! stock_key (Stock.product_id s)
  = Some {["quantity" := Text (py_str (Stock.quantity s)); "name" := Text (Product.name p);
           "sku" := Text (Product.sku p); "price" := FloatText (Product.price p)]}.
Proof.
  intros Hks Hkp Hs Hp Heq Hcold. unfold rehydrated.
  rewrite rehydrated_lookup by done.
  destruct (last_filter_elem (λ row, row_id row = Stock.product_id s) (sql_join t)
              (Stock.product_id s, Stock.quantity s,
               Product.name p, Product.sku p, Product.price p))
    as (row & -> & Hrow & Hid); [apply sql_join_rows; by exists s, p|done|].
  apply sql_join_rows in Hrow as (s' & p' & Hs' & Hp' & Heq' & ->).
  unfold row_id in Hid. cbn [fst] in Hid.
  assert (s' = s) as -> by (eapply NoDup_fmap_eq; done).
  assert (p' = p) as -> by (eapply NoDup_fmap_eq; [done..|congruence]).
  done.
Qed.

(** A product id without a stock row that has a product gets no entry. *)
Lemma rehydrated_no_entry t c pid :
  (∀ s, s ∈ stocks t → Stock.product_id s = pid → ¬ has_product t s) →
  rehydrated t c !! stock_key pid = c !! stock_key pid.
Proof.
  intros Hno. unfold rehydrated. apply run_pipeline_lookup_other.
  intros cmd (row & -> & Hrow)%list_elem_of_fmap Hkey.
  apply sql_join_rows in Hrow as (s & p & Hs & Hp & Heq & ->).
  cbn [fst] in Hkey. apply (inj stock_key) in Hkey.
  apply (Hno s Hs Hkey). unfold has_product. rewrite Heq. by apply list_elem_of_fmap_2.
Qed.

Lemma cold_lookup c k :
  redis_scan_stock c = [] → matches_stock_pattern k = true → c !! k = None.
Proof.
  intros Hcold Hk. destruct (c !! k) as [v|] eqn:E; [|done]. exfalso.
  unfold redis_scan_stock in Hcold.
  eapply (filter_nil_not_elem_of _ _ k Hcold Hk).
  apply list_elem_of_fmap. exists (k, v). split; [done|]. by apply elem_of_map_to_list.
Qed.

Lemma elem_of_scan c k :
  k ∈ redis_scan_stock c ↔ matches_stock_pattern k = true ∧ is_Some (c !! k).
Proof.
  unfold redis_scan_stock. rewrite list_elem_of_filter, list_elem_of_fmap. split.
  - intros [Hk ([k' v] & -> & Hin)]. split; [done|].
    apply elem_of_map_to_list in Hin. by exists v.
  - intros [Hk [v Hv]]. split; [done|]. exists (k, v). split; [done|].
    by apply elem_of_map_to_list.
Qed.

(** One stock entry per joined row, when the cache was cold and product ids
    do not repeat among the rows. *)
Lemma rehydrated_scan rows c :
  redis_scan_stock c = [] → NoDup (row_id <$> rows) →
  redis_scan_stock (run_pipeline (populate_pipeline rows) c)
  ≡ₚ stock_key <$> (row_id <$> rows).
Proof.
  intros Hcold Hnd. apply NoDup_Permutation.
  - unfold redis_scan_stock. apply NoDup_filter, NoDup_fst_map_to_list.
  - by apply (NoDup_fmap_2 stock_key).
  - intros k. rewrite elem_of_scan. split.
    + intros [Hk [v Hv]].
      destruct (decide (k ∈ stock_key <$> (row_id <$> rows))) as [|Hnot]; [done|].
      exfalso. rewrite run_pipeline_lookup_other in Hv.
      * by rewrite (cold_lookup c k) in Hv.
      * intros cmd (row & -> & Hrow)%list_elem_of_fmap Heq. apply Hnot.
        destruct row as [[[[pid qty] name] sku] price]. simpl in Heq. subst k.
        apply list_elem_of_fmap_2. by apply (list_elem_of_fmap_2' row_id _ _ _ Hrow).
    + intros (pid & -> & (row & -> & Hrow)%list_elem_of_fmap)%list_elem_of_fmap.
      split; [apply stock_key_matches|].
      rewrite rehydrated_lookup by (apply cold_lookup; [done|apply stock_key_matches]).
      destruct (last_filter_elem (λ r, row_id r = row_id row) rows row Hrow eq_refl)
        as (row' & -> & _). by eexists.
Qed.

(** ** Per-item processing of the cache path *)

Lemma adjust_command_readable operation t c item :
  readable c item.1.1 →
  adjust_command operation t c item = Return (entry_write operation t c item).
Proof.
  intros [z Hz]. unfold adjust_command, entry_write, read_stock. by rewrite Hz.
Qed.

Lemma adjust_command_unreadable operation t c item :
  ¬ readable c item.1.1 → ∃ e, adjust_command operation t c item = Raise e.
Proof.
  intros Hno. unfold adjust_command.
  destruct (current_stock c item.1.1) as [z|e] eqn:E; [|by exists e].
  exfalso. apply Hno. by exists z.
Qed.

Lemma readable_dec c pid : readable c pid ∨ ¬ readable c pid.
Proof.
  unfold readable. destruct (current_stock c pid) as [z|e]; [left; by exists z|].
  right. by intros [z ?].
Qed.

Lemma collect_readable operation t c items :
  Forall (λ item, readable c item.1.1) items →
  collect (adjust_command operation t c) items
  = Return (entry_write operation t c <$> items).
Proof.
  induction 1 as [|item items Hr _ IH]; [done|].
  cbn [collect]. by rewrite adjust_command_readable, IH.
Qed.

Lemma collect_unreadable operation t c items :
  ¬ Forall (λ item, readable c item.1.1) items →
  ∃ e, collect (adjust_command operation t c) items = Raise e.
Proof.
  induction items as [|item items IH]; intros Hno.
  - exfalso. apply Hno. constructor.
  - cbn [collect]. destruct (readable_dec c item.1.1) as [Hr|Hr].
    + rewrite adjust_command_readable by done.
      destruct IH as [e He]; [|rewrite He; by exists e].
      intros Hall. apply Hno. by constructor.
    + destruct (adjust_command_unreadable operation t c item Hr) as [e ->]. by exists e.
Qed.

(** What [update_stock_redis] does in a world without faults: it processes
    the items against the cache as it stands after the optional rehydration;
    when every entry is readable it returns and the queued writes are run in
    input order, otherwise it raises and queues nothing. *)
Lemma update_stock_redis_run order_items operation w :
  faults w = [] → order_items ≠ [] →
  let c := cache_at_start w in
  let r := update_stock_redis order_items operation w in
  faults r.2 = [] ∧ committed r.2 = committed w
  ∧ (Forall (λ item, readable c item.1.1) (normalized <$> order_items) →
     r.1 = Return tt
     ∧ cache r.2
       = run_pipeline (entry_write operation (committed w) c <$> (normalized <$> order_items)) c)
  ∧ (¬ Forall (λ item, readable c item.1.1) (normalized <$> order_items) →
     (∃ e, r.1 = Raise e) ∧ cache r.2 = c).
Proof.
  intros Hq Hne c r. subst r. rewrite update_stock_redis_quiet by done.
  set (w1 := match redis_scan_stock (cache w) with
             | [] => (_populate_redis_from_mysql tt w).2
             | _ :: _ => w
             end).
  assert (faults w1 = [] ∧ committed w1 = committed w ∧ cache w1 = c) as (Hq1 & Hc1 & Hcache).
  { subst w1 c. unfold cache_at_start.
    destruct (redis_scan_stock (cache w)); [|done]. by rewrite populate_quiet. }
  rewrite (adjust_entries_quiet _ _ _ Hq1). cbv zeta. rewrite Hc1, Hcache.
  destruct (collect _ _) as [queue|e] eqn:E; cbn [fst snd faults committed cache].
  - split_and!; [done|done| |].
    + intros Hall. rewrite collect_readable in E by done. by simplify_eq.
    + intros Hno. destruct (collect_unreadable operation (committed w) c _ Hno) as [e He].
      congruence.
  - split_and!; [done|done| |].
    + intros Hall. rewrite collect_readable in E by done. done.
    + intros _. split; [by exists e|done].
Qed.

Lemma current_stock_missing c pid :
  redis_hget (stock_key pid) "quantity" c = None → current_stock c pid = Return 0.
Proof. intros H. unfold current_stock. by rewrite H. Qed.

Lemma current_stock_falsy c pid :
  redis_hget (stock_key pid) "quantity" c = Some (Text "") → current_stock c pid = Return 0.
Proof. intros H. unfold current_stock. by rewrite H. Qed.

Lemma current_stock_integer c pid z :
  redis_hget (stock_key pid) "quantity" c = Some (Text (py_str z)) →
  current_stock c pid = Return z.
Proof.
  intros H. unfold current_stock. rewrite H. unfold int_of_rtext. rewrite py_int_str.
  destruct (py_str z) eqn:E; [|done].
  pose proof (py_int_str z) as Hrt. rewrite E in Hrt. done.
Qed.

Lemma current_stock_text c pid s z :
  redis_hget (stock_key pid) "quantity" c = Some (Text s) → py_int s = Some z →
  current_stock c pid = Return z.
Proof.
  intros H Hint. unfold current_stock. rewrite H. unfold int_of_rtext. rewrite Hint.
  by destruct s.
Qed.

Lemma snapshot_of_exists pid t :
  is_Some (snapshot_of pid t) ↔ pid ∈ Product.id <$> products t.
Proof.
  unfold snapshot_of. split.
  - intros [p Hp]. apply last_Some in Hp as [l Hl].
    assert (p ∈ filter (λ p, Product.id p = pid) (products t)) as Hin.
    { rewrite Hl. apply elem_of_app. right. by left. }
    apply list_elem_of_filter in Hin as [<- Hin]. by apply list_elem_of_fmap_2.
  - intros (p & -> & Hp)%list_elem_of_fmap.
    destruct (last_filter_elem (λ p', Product.id p' = Product.id p) (products t) p Hp eq_refl)
      as (p' & -> & _). by eexists.
Qed.

(** Equality of two small maps with explicit keys. *)
Ltac map_by_keys :=
  apply map_eq; intros ?;
  rewrite ?lookup_insert, ?lookup_singleton;
  repeat case_decide; simplify_eq; done.

Lemma adjusted_mapping_snapshot p up q :
  adjusted_mapping (Some p) up q
  = {["quantity" := PInt q; "name" := PStr (Product.name p);
      "sku" := PStr (Product.sku p); "price" := float (Product.price p)]}.
Proof. unfold adjusted_mapping. map_by_keys. Qed.

Lemma adjusted_mapping_unit_price up q :
  adjusted_mapping None (Some up) q = {["quantity" := PInt q; "price" := float up]}.
Proof. unfold adjusted_mapping. map_by_keys. Qed.

Lemma adjusted_mapping_bare q :
  adjusted_mapping None None q = {["quantity" := PInt q]}.
Proof. done. Qed.

Lemma adjusted_mapping_quantity product up q :
  adjusted_mapping product up q !! "quantity" = Some (PInt q).
Proof. by destruct product, up. Qed.

(** ** Reading back what the pipeline wrote *)

Lemma redis_hget_hset key mapping c k field :
  redis_hget k field (redis_hset key mapping c)
  = if decide (k = key)
    then match mapping !! field with
         | Some v => Some (encode v)
         | None => redis_hget k field c
         end
    else redis_hget k field c.
Proof.
  unfold redis_hget, redis_hset. destruct (decide (k = key)) as [->|Hne].
  - rewrite lookup_insert_eq. simpl. rewrite lookup_union, lookup_fmap.
    destruct (mapping !! field); simpl; [by destruct (default ∅ (c !! key) !! field)|].
    rewrite (left_id_L None _). by destruct (c !! key).
  - by rewrite lookup_insert_ne.
Qed.

Lemma last_item_for_snoc pid items item :
  last_item_for pid (items ++ [item])
  = if decide (item.1.1 = pid) then Some item else last_item_for pid items.
Proof.
  unfold last_item_for. rewrite filter_app, filter_cons, filter_nil.
  destruct (decide (item.1.1 = pid)); [by rewrite last_snoc|by rewrite app_nil_r].
Qed.

(** After the queued writes the quantity field of a product is the one of
    the last item for that product; a product no item names keeps its
    field. *)
Lemma entry_writes_quantity operation t c0 items c pid :
  redis_hget (stock_key pid) "quantity"
             (run_pipeline (entry_write operation t c0 <$> items) c)
  = match last_item_for pid items with
    | Some item =>
        Some (Text (py_str (new_quantity operation (read_stock c0 pid) item.1.2)))
    | None => redis_hget (stock_key pid) "quantity" c
    end.
Proof.
  induction items as [|item items IH] using rev_ind; [done|].
  rewrite fmap_app, last_item_for_snoc. cbn [fmap list_fmap].
  rewrite run_pipeline_snoc, redis_hget_hset. cbn [entry_write fst snd].
  destruct (decide (item.1.1 = pid)) as [Heq|Hne].
  - rewrite decide_True by by rewrite Heq. rewrite adjusted_mapping_quantity. simpl.
    by rewrite Heq.
  - rewrite decide_False; [exact IH|]. intros Hk%(inj stock_key). done.
Qed.

Lemma run_pipeline_keeps queue c k :
  is_Some (c !! k) → is_Some (run_pipeline queue c !! k).
Proof.
  intros Hk. induction queue as [|cmd queue IH] using rev_ind; [done|].
  rewrite run_pipeline_snoc. unfold redis_hset.
  destruct (decide (k = cmd.1)) as [->|Hne].
  - rewrite lookup_insert_eq. eauto.
  - by rewrite lookup_insert_ne.
Qed.

Lemma warm_iff c : warm c ↔ ∃ k, matches_stock_pattern k = true ∧ is_Some (c !! k).
Proof.
  unfold warm. split.
  - intros Hne. destruct (redis_scan_stock c) as [|k ks] eqn:E; [done|].
    exists k. apply elem_of_scan. rewrite E. by left.
  - intros (k & Hk) Hnil. apply elem_of_scan in Hk. rewrite Hnil in Hk.
    by apply elem_of_nil in Hk.
Qed.

Lemma warm_run_pipeline queue c : warm c → warm (run_pipeline queue c).
Proof.
  rewrite !warm_iff. intros (k & Hk & Hsome). exists k. split; [done|].
  by apply run_pipeline_keeps.
Qed.

Lemma cache_at_start_warm w : warm (cache w) → cache_at_start w = cache w.
Proof.
  unfold warm, cache_at_start. by destruct (redis_scan_stock (cache w)).
Qed.

Lemma current_stock_hget c c' pid :
  redis_hget (stock_key pid) "quantity" c' = redis_hget (stock_key pid) "quantity" c →
  current_stock c' pid = current_stock c pid.
Proof. intros H. unfold current_stock. by rewrite H. Qed.

Lemma readable_all_dec c (items : list (Z * Z * option Decimal)) :
  Forall (λ item, readable c item.1.1) items
  ∨ ¬ Forall (λ item, readable c item.1.1) items.
Proof.
  induction items as [|item items [IH|IH]].
  - left. constructor.
  - destruct (readable_dec c item.1.1) as [Hr|Hr].
    + left. by constructor.
    + right. by intros [? ?]%Forall_cons.
  - right. by intros [? ?]%Forall_cons.
Qed.

(** Two calls of [update_stock_redis] on the same items whose operations undo
    each other leave the quantity every product reads as it was, provided the
    cache holds a stock entry to start with. *)
Lemma cache_round_trip o1 o2 order_items w pid z :
  (∀ x d, new_quantity o2 (new_quantity o1 x d) d = x) →
  faults w = [] → warm (cache w) →
  current_stock (cache w) pid = Return z →
  let r1 := update_stock_redis order_items o1 w in
  let r2 := update_stock_redis order_items o2 r1.2 in
  current_stock (cache r2.2) pid = Return z
  ∧ (Forall (λ item, readable (cache w) item.1.1) (normalized <$> order_items) →
     r1.1 = Return tt ∧ r2.1 = Return tt).
Proof.
  intros Hundo Hq Hwarm Hz r1 r2.
  destruct (decide (order_items = [])) as [->|Hne]; [done|].
  pose proof (update_stock_redis_run order_items o1 w Hq Hne) as (Hq1 & Hc1 & Hok1 & Hbad1).
  fold r1 in Hq1, Hc1, Hok1, Hbad1. rewrite (cache_at_start_warm w Hwarm) in Hok1, Hbad1.
  pose proof (update_stock_redis_run order_items o2 r1.2 Hq1 Hne) as (_ & _ & Hok2 & Hbad2).
  fold r2 in Hok2, Hbad2.
  set (items := normalized <$> order_items) in *.
  destruct (readable_all_dec (cache w) items) as [Hall|Hnot].
  - destruct (Hok1 Hall) as [Hret1 Hcache1].
    assert (warm (cache r1.2)) as Hwarm1 by (rewrite Hcache1; by apply warm_run_pipeline).
    rewrite (cache_at_start_warm _ Hwarm1), Hc1 in Hok2.
    assert (∀ p, is_Some (last_item_for p items) →
              ∃ item, last_item_for p items = Some item
                      ∧ current_stock (cache r1.2) p
                        = Return (new_quantity o1 (read_stock (cache w) p) item.1.2))
      as Hread1.
    { intros p [item Hitem]. exists item. split; [done|].
      apply current_stock_integer. by rewrite Hcache1, entry_writes_quantity, Hitem. }
    assert (Forall (λ item, readable (cache r1.2) item.1.1) items) as Hall1.
    { apply Forall_forall. intros item Hin.
      destruct (last_filter_elem (λ it, it.1.1 = item.1.1) items item Hin eq_refl)
        as (item' & Hlast & _).
      destruct (Hread1 item.1.1) as (? & _ & Hcur); [by eexists|]. by eexists. }
    destruct (Hok2 Hall1) as [Hret2 Hcache2]. split; [|done].
    destruct (last_item_for pid items) as [item|] eqn:Hlast.
    + destruct (Hread1 pid) as (item' & Hlast' & Hcur); [by eexists|].
      rewrite Hlast in Hlast'. simplify_eq.
      apply current_stock_integer.
      rewrite Hcache2, entry_writes_quantity, Hlast. unfold read_stock at 1.
      rewrite Hcur, Hundo. unfold read_stock. by rewrite Hz.
    + rewrite <- Hz. apply current_stock_hget.
      rewrite Hcache2, entry_writes_quantity, Hlast.
      by rewrite Hcache1, entry_writes_quantity, Hlast.
  - destruct (Hbad1 Hnot) as [_ Hcache1].
    assert (warm (cache r1.2)) as Hwarm1 by by rewrite Hcache1.
    rewrite (cache_at_start_warm _ Hwarm1), Hcache1 in Hbad2.
    destruct (Hbad2 Hnot) as [_ Hcache2]. by rewrite Hcache2.
Qed.

(** ** The commands on the example store *)

Example py_int_examples :
  py_int "13" = Some 13 ∧ py_int "-4" = Some (-4) ∧ py_int "" = None
  ∧ py_int "9.99" = None ∧ py_str 13 = "13" ∧ stock_key 5 = "stock:5".
Proof. vm_compute. done. Qed.

Example py_int_literals :
  py_int "+7" = Some 7 ∧ py_int " 7" = Some 7 ∧ py_int "7 " = Some 7
  ∧ py_int "1_000" = Some 1000 ∧ py_int "007" = Some 7 ∧ py_int "-0" = Some 0
  ∧ py_int " " = None ∧ py_int "-" = None ∧ py_int "+-7" = None ∧ py_int "+ 7" = None
  ∧ py_int "_7" = None ∧ py_int "7_" = None ∧ py_int "1__0" = None
  ∧ py_int "7.0" = None ∧ py_int "1e3" = None ∧ py_int "0x10" = None.
Proof. vm_compute. done. Qed.

Example set_stock_existing_product :
  let r := set_stock_for_product 1 4 cold_world in
  r.1 = Return "rows updated: 1"
  ∧ stocks (committed r.2) = [Stock.Make 1 4]
  ∧ cache r.2 = {[ "stock:1" := {["quantity" := Text "4"; "name" := Text "Widget";
                                  "sku" := Text "W1"; "price" := FloatText (Dec 999 (-2))]} ]}
  ∧ log r.2 = [Opened 0%nat; Committed 0%nat; Closed 0%nat]
  ∧ sessions r.2 = ∅.
Proof. vm_compute. done. Qed.

Example set_stock_failing_commit :
  let r := set_stock_for_product 1 4 failing_commit_world in
  r.1 = Raise (ExternalError "commit")
  ∧ committed r.2 = committed cold_world
  ∧ cache r.2 = ∅
  ∧ log r.2 = [Opened 0%nat; RolledBack 0%nat; Closed 0%nat]
  ∧ sessions r.2 = ∅.
Proof. vm_compute. done. Qed.

Example update_stock_redis_cold :
  let r := update_stock_redis [as_mapping 1 3] "+" cold_world in
  r.1 = Return tt
  ∧ cache r.2 = {[ "stock:1" := {["quantity" := Text "13"; "name" := Text "Widget";
                                  "sku" := Text "W1"; "price" := FloatText (Dec 999 (-2))]} ]}
  ∧ log r.2 = [Opened 0%nat; Closed 0%nat; Opened 0%nat; Closed 0%nat].
Proof. vm_compute. done. Qed.

Example update_stock_redis_unknown_product :
  let item := OrderItem.Object (OrderItem.Fields 5 2 (Some (Dec 250 (-2)))) in
  let r := update_stock_redis [item] "-" warm_world in
  r.1 = Return tt
  ∧ cache r.2 !! "stock:5"
    = Some {["quantity" := Text "-2"; "price" := FloatText (Dec 250 (-2))]}
  ∧ cache r.2 !! "stock:1" = cache warm_world !! "stock:1".
Proof. vm_compute. done. Qed.

Example update_stock_redis_unreadable :
  let w := set_cache {[ "stock:1" := {["quantity" := Text "ten"]} ]} cold_world in
  let r := update_stock_redis [as_mapping 1 3] "+" w in
  r.1 = Raise ValueError ∧ cache r.2 = cache w ∧ sessions r.2 = ∅.
Proof. vm_compute. done. Qed.

Example update_stock_redis_signed_text :
  let w := set_cache {[ "stock:1" := {["quantity" := Text "+7"]} ]} cold_world in
  let r := update_stock_redis [as_mapping 1 3] "+" w in
  r.1 = Return tt
  ∧ redis_hget "stock:1" "quantity" (cache r.2) = Some (Text "10").
Proof. vm_compute. done. Qed.

Example check_in_then_out :
  let items := [as_object 1 3; as_object 7 1; as_object 1 2] in
  let r1 := check_in_items_to_stock 0 items cold_world in
  let r2 := check_out_items_from_stock 0 items r1.2 in
  r1.1 = Return tt
  ∧ stocks (session_view 0 r1.2) = [Stock.Make 1 15]
  ∧ r2.1 = Return tt
  ∧ stocks (session_view 0 r2.2) = [Stock.Make 1 10]
  ∧ committed r2.2 = committed cold_world.
Proof. vm_compute. done. Qed.

(** * The batch store path: claims *)

Lemma apply_statements_absent f stmts rows :
  (∀ pq, pq ∈ stmts → records_of pq.1 rows = []) →
  apply_statements f stmts rows = rows.
Proof.
  induction stmts as [|pq stmts IH]; intros Hno; [done|].
  unfold apply_statements in *. cbn [foldl].
  rewrite sql_update_arith_absent.
  - apply IH. intros pq' Hin. apply Hno. by right.
  - apply records_of_absent, Hno. by left.
Qed.

Lemma issued_from_items first xs pq :
  pq ∈ issued first xs →
  ∃ item, item ∈ xs ∧ pq.1 = OrderItem.product_id (fields_of item).
Proof.
  induction xs as [|item xs IH]; cbn [issued]; [by intros ?%elem_of_nil|].
  destruct (normalize_as first item) as [pq'|e] eqn:E; [|by intros ?%elem_of_nil].
  intros [->|Hin]%elem_of_cons.
  - exists item. split; [by left|].
    unfold normalize_as in E. destruct (hasattr_product_id first), item; by simplify_eq.
  - destruct (IH Hin) as (item' & ? & ?). exists item'. split; [by right|done].
Qed.

(** C4: [update_stock_mysql] does not normalize each item by its own shape.
    On the sequence [object(product 1, 2); mapping(product 1, 3)] the second
    item is read through attributes because the first one is an object: the
    call raises [AttributeError] after the first statement, and the update of
    the second item is never issued, although the item on its own normalizes
    (as [update_stock_redis] does it) to (1, 3). *)
Theorem update_stock_mysql_mixed_shapes :
  let order_items := [as_object 1 2; as_mapping 1 3] in
  let r := update_stock_mysql 0 order_items "+" cold_world in
  r.1 = Raise AttributeError
  ∧ stocks (session_view 0 r.2) = [Stock.Make 1 12]
  ∧ normalize (as_mapping 1 3) = Return (1, 3, None)
  ∧ (update_stock_mysql 0 [as_mapping 1 2; as_object 1 3] "+" cold_world).1
    = Raise TypeError.
Proof. vm_compute. done. Qed.

(** C10: in [update_stock_mysql], the statement issued for an item whose
    product id has no stock record affects zero rows and raises nothing, and
    the table the session sees stays as it was: the call inserts no row (the
    product ids of the table are the same before and after), a product id
    without record has none afterwards, a sequence of one shape makes the
    call return normally, and when no item has a record the table is
    unchanged. *)
Theorem update_stock_mysql_no_upsert
    (session : nat) (order_items : list OrderItem.t) (operation : string)
    (f : Z → Z → Z) (w : world) :
  faults w = [] →
  sql_operator operation = Some f →
  let rows := stocks (session_view session w) in
  let r := update_stock_mysql session order_items operation w in
  (∀ pid qty, records_of pid rows = [] →
     (session_execute_update_arith session operation pid qty w).1 = Return 0
     ∧ session_view session (session_execute_update_arith session operation pid qty w).2
       = session_view session w)
  ∧ Stock.product_id <$> stocks (session_view session r.2) = Stock.product_id <$> rows
  ∧ (∀ pid, records_of pid rows = [] →
       records_of pid (stocks (session_view session r.2)) = [])
  ∧ (uniform order_items = true → r.1 = Return tt)
  ∧ ((∀ item, item ∈ order_items →
        records_of (OrderItem.product_id (fields_of item)) rows = []) →
     stocks (session_view session r.2) = rows).
Proof.
  intros Hq Hop rows r.
  destruct (update_stock_mysql_quiet session order_items operation f w Hq Hop)
    as (Hout & Hrows & Hprod & _).
  fold r in Hout, Hrows, Hprod. fold rows in Hrows.
  assert (Stock.product_id <$> stocks (session_view session r.2) = Stock.product_id <$> rows)
    as Hids.
  { rewrite Hrows. destruct order_items; [done|]. apply apply_statements_ids. }
  split_and!.
  - intros pid qty Hno. unfold session_execute_update_arith.
    unfold_calls Hq. rewrite Hop. cbn [fst snd].
    rewrite sql_update_arith_absent by by apply records_of_absent.
    split; [done|]. rewrite session_view_set_view. cbn [snd]. by destruct (session_view session w).
  - exact Hids.
  - intros pid Hno. apply records_of_absent. rewrite Hids. by apply records_of_absent.
  - intros Hu. rewrite Hout. destruct order_items as [|first rest]; [done|].
    by apply batch_outcome_uniform.
  - intros Hno. rewrite Hrows. destruct order_items as [|first rest]; [done|].
    apply apply_statements_absent. intros pq Hin.
    destruct (issued_from_items _ _ _ Hin) as (item & Hitem & ->). by apply Hno.
Qed.

Lemma update_stock_mysql_no_upsert_witness :
  let r := update_stock_mysql 0 [as_mapping 7 3] "+" cold_world in
  r.1 = Return tt ∧ stocks (session_view 0 r.2) = [Stock.Make 1 10].
Proof.
  destruct (update_stock_mysql_no_upsert 0 [as_mapping 7 3] "+" Z.add cold_world
              eq_refl eq_refl) as (_ & _ & _ & Hret & Hsame).
  split.
  - apply Hret. reflexivity.
  - apply Hsame. intros item Hin. apply list_elem_of_singleton in Hin. subst item. reflexivity.
Defined.

(** * Exit paths of the direct stock writer: claims *)



(** * The direct stock writer: claims *)

Lemma records_of_update_same pid qty rows :
  records_of pid (sql_update_set pid qty rows).2
  = (λ _, Stock.Make pid qty) <$> records_of pid rows.
Proof.
  unfold records_of, sql_update_set. cbn [snd].
  induction rows as [|r rows IH]; [done|].
  csimpl. rewrite !filter_cons.
  destruct (decide (Stock.product_id r = pid)) as [Heq|Hne]; simpl.
  - rewrite decide_True by done. csimpl. rewrite IH, Heq. done.
  - by rewrite decide_False.
Qed.

Lemma records_of_update_other pid pid' qty rows :
  pid' ≠ pid →
  records_of pid' (sql_update_set pid qty rows).2 = records_of pid' rows.
Proof.
  intros Hne. unfold records_of, sql_update_set. cbn [snd].
  induction rows as [|r rows IH]; [done|].
  csimpl. rewrite !filter_cons.
  destruct (decide (Stock.product_id r = pid)) as [Heq|Hne']; simpl.
  - rewrite !decide_False by congruence. done.
  - destruct (decide (Stock.product_id r = pid')); by rewrite IH.
Qed.

Lemma records_of_unique pid rows :
  NoDup (Stock.product_id <$> rows) → (length (records_of pid rows) ≤ 1)%nat.
Proof.
  unfold records_of. induction rows as [|r rows IH]; [simpl; lia|].
  rewrite fmap_cons, NoDup_cons, filter_cons. intros [Hnotin Hnd].
  destruct (decide (Stock.product_id r = pid)) as [Heq|Hne]; [|by apply IH].
  rewrite Heq in Hnotin. apply records_of_absent in Hnotin.
  unfold records_of in Hnotin. rewrite Hnotin. simpl. lia.
Qed.

Lemma records_of_app pid rows1 rows2 :
  records_of pid (rows1 ++ rows2) = records_of pid rows1 ++ records_of pid rows2.
Proof. apply filter_app. Qed.

(** C3: without faults and on a table that respects its unique key,
    [set_stock_for_product] issues the update by key and inserts a row exactly
    when the update affected zero rows, that is when the product had no
    record.  Afterwards the product has exactly one record, holding the
    written quantity; the records of the other products are as before; the
    key is still unique; and the status text says which of the two happened:
    [rows added: <product_id>] for an insert, [rows updated: 1] for an
    update. *)
Theorem set_stock_for_product_upsert (product_id quantity : Z) (w : world) :
  faults w = [] →
  NoDup (Stock.product_id <$> stocks (committed w)) →
  let upd := sql_update_set product_id quantity (stocks (committed w)) in
  let r := set_stock_for_product product_id quantity w in
  stocks (committed r.2)
    = upd.2 ++ (if decide (upd.1 = 0) then [Stock.Make product_id quantity] else [])
  ∧ (upd.1 = 0 ↔ records_of product_id (stocks (committed w)) = [])
  ∧ records_of product_id (stocks (committed r.2)) = [Stock.Make product_id quantity]
  ∧ (∀ pid, pid ≠ product_id →
       records_of pid (stocks (committed r.2)) = records_of pid (stocks (committed w)))
  ∧ NoDup (Stock.product_id <$> stocks (committed r.2))
  ∧ r.1 = Return (if decide (upd.1 = 0) then "rows added: " +:+ py_str product_id
                  else "rows updated: 1").
Proof.
  intros Hq Hkey upd r. subst r.
  rewrite (set_stock_for_product_quiet _ _ _ Hq). cbn [fst snd committed stocks].
  fold upd.
  pose proof (sql_update_set_count product_id quantity (stocks (committed w))) as Hcount.
  fold upd in Hcount.
  pose proof (records_of_unique product_id _ Hkey) as Hone.
  assert (upd.1 = Z.of_nat (length (records_of product_id (stocks (committed w)))))
    as Hlen by done.
  split_and!.
  - destruct (decide (upd.1 = 0)); [done|by rewrite app_nil_r].
  - done.
  - destruct (decide (upd.1 = 0)) as [H0|H0].
    + rewrite records_of_app. subst upd. rewrite records_of_update_same.
      rewrite (proj1 Hcount H0). unfold records_of. simpl.
      rewrite filter_cons, decide_True by done. done.
    + subst upd. rewrite records_of_update_same.
      destruct (records_of product_id (stocks (committed w))) as [|r0 [|r1 rest]];
        simpl in *; [lia|done|lia].
  - intros pid Hne. destruct (decide (upd.1 = 0)).
    + rewrite records_of_app. subst upd. rewrite records_of_update_other by done.
      unfold records_of at 2. rewrite filter_cons, decide_False by done.
      by rewrite filter_nil, app_nil_r.
    + subst upd. by rewrite records_of_update_other.
  - destruct (decide (upd.1 = 0)) as [H0|H0].
    + rewrite fmap_app. subst upd. rewrite sql_update_set_ids. simpl.
      apply NoDup_app. split_and!; [done| |apply NoDup_singleton].
      intros x Hx ->%list_elem_of_singleton.
      by apply (proj2 (records_of_absent product_id _) (proj1 Hcount H0)).
    + subst upd. by rewrite sql_update_set_ids.
  - destruct (decide (upd.1 = 0)) as [H0|H0]; [done|].
    do 2 f_equal. rewrite Hlen in *.
    destruct (records_of product_id (stocks (committed w))) as [|r0 [|r1 rest]];
      simpl in *; [lia|done|lia].
Qed.

Lemma set_stock_for_product_upsert_witness :
  let r := set_stock_for_product 1 4 cold_world in
  stocks (committed r.2) = [Stock.Make 1 4] ∧ r.1 = Return "rows updated: 1".
Proof.
  assert (NoDup (Stock.product_id <$> stocks (committed cold_world))) as Hkey.
  { apply NoDup_singleton. }
  destruct (set_stock_for_product_upsert 1 4 cold_world eq_refl Hkey)
    as (Hrows & _ & _ & _ & _ & Hmsg).
  split; [exact Hrows|exact Hmsg].
Defined.

(** C9, as stated, fails: "no product with id 5" does not decide the status
    text, the stock records do.  After a first call for product 5 the product
    still does not exist, and a second call with the same arguments reports an
    update.  The entry is not reduced to [quantity] either: [hset] keeps the
    fields the mapping does not name, here the [price] an earlier adjustment
    left. *)
Lemma set_stock_for_product_unknown_product_counterexample :
  (faults world_after_first_write = []
   ∧ product_by_id 5 (committed world_after_first_write) = None
   ∧ (set_stock_for_product 5 0 world_after_first_write).1 = Return "rows updated: 1")
  ∧ (faults world_after_adjustment = []
     ∧ product_by_id 5 (committed world_after_adjustment) = None
     ∧ (set_stock_for_product 5 0 world_after_adjustment).1 = Return "rows added: 5"
     ∧ cache (set_stock_for_product 5 0 world_after_adjustment).2 !! stock_key 5
       = Some {["price" := FloatText (Dec 250 (-2)); "quantity" := Text "0"]}).
Proof. vm_compute. done. Qed.

(** C9, amended: when [set_stock_for_product] is called for a product id
    that has neither a product nor a stock record (as 5 with quantity 0 in the
    example), and no call fails, the result is [rows added: <product_id>], the
    record is appended to the table, and the field mapping written to the
    cache holds the [quantity] field only; the entry then consists of that
    field alone provided the product had no cache entry before. *)
Theorem set_stock_for_product_unknown_product (product_id quantity : Z) (w : world) :
  faults w = [] →
  product_by_id product_id (committed w) = None →
  records_of product_id (stocks (committed w)) = [] →
  let r := set_stock_for_product product_id quantity w in
  r.1 = Return ("rows added: " +:+ py_str product_id)
  ∧ stocks (committed r.2) = stocks (committed w) ++ [Stock.Make product_id quantity]
  ∧ cache r.2 = redis_hset (stock_key product_id) {["quantity" := PInt quantity]} (cache w)
  ∧ (cache w !! stock_key product_id = None →
     cache r.2 !! stock_key product_id = Some {["quantity" := Text (py_str quantity)]}).
Proof.
  intros Hq Hprod Hrec r. subst r.
  rewrite (set_stock_for_product_quiet _ _ _ Hq). cbn [fst snd committed stocks cache].
  rewrite Hprod.
  pose proof (proj2 (sql_update_set_count product_id quantity _) Hrec) as H0.
  rewrite !decide_True by done.
  assert ((sql_update_set product_id quantity (stocks (committed w))).2 = stocks (committed w))
    as Hsame.
  { unfold sql_update_set. cbn [snd]. etrans; [|apply list_fmap_id].
    apply list_fmap_ext. intros i row Hrow. simpl.
    destruct (decide _) as [Heq|]; [|done]. exfalso.
    apply records_of_absent in Hrec. apply Hrec. rewrite <- Heq.
    apply list_elem_of_fmap_2. eapply list_elem_of_lookup_2, Hrow. }
  rewrite Hsame. split_and!; try done.
  intros Hnone. unfold redis_hset, writer_payload. rewrite lookup_insert_eq, Hnone. simpl.
  rewrite map_fmap_singleton. by rewrite (right_id_L ∅ (∪)).
Qed.

Lemma set_stock_for_product_unknown_product_witness :
  let r := set_stock_for_product 5 0 cold_world in
  r.1 = Return "rows added: 5"
  ∧ cache r.2 !! stock_key 5 = Some {["quantity" := Text "0"]}.
Proof.
  destruct (set_stock_for_product_unknown_product 5 0 cold_world eq_refl eq_refl eq_refl)
    as (Hmsg & _ & _ & Hentry).
  split; [exact Hmsg|]. apply Hentry. reflexivity.
Defined.

(** * Rehydration: claims *)

Lemma framed_populate_try h : framed (λ _, False) h (populate_try h).
Proof.
  apply framed_bind; [apply framed_execute_join|]. intros rows.
  destruct (decide _); [apply framed_ret|apply framed_pipeline_execute].
Qed.

Lemma populate_exits w :
  let r := _populate_redis_from_mysql tt w in
  sessions r.2 = sessions w ∧ committed r.2 = committed w
  ∧ (log r.2 = log w ∨ ∃ h, log r.2 = log w ++ [Opened h; Closed h]).
Proof.
  intros r. subst r. unfold _populate_redis_from_mysql, mbind, M_bind, bind.
  destruct (get_sqlalchemy_session_cases w)
    as [(e0 & Hr & Hs & Hl & Hc & _)|(h & Hr & Hfresh & Hs & Hl & Hc & _)].
  - destruct (get_sqlalchemy_session w) as [[h|e1] w1]; simpl in *; [done|].
    split_and!; [done|done|by left].
  - destruct (get_sqlalchemy_session w) as [[h'|e1] w1]; simpl in *; [|done].
    simplify_eq. unfold try_finally, try_except.
    pose proof (framed_populate_try h w1) as (Hfs & evs & Hfl & Hfa & Hfc).
    assert (evs = []) as -> by (destruct evs as [|ev evs]; [done|by inversion Hfa]).
    rewrite app_nil_r in Hfl.
    destruct (populate_try h w1) as [[[]|e] w2];
      unfold raise, session_close; cbn [fst snd] in *; world_simpl.
    all: split_and!;
      [rewrite Hfs, Hs; by apply sessions_released
      |by rewrite Hfc
      |right; exists h; by rewrite Hfl, Hl, <- app_assoc].
Qed.

Lemma populate_pipeline_fields rows :
  Forall (λ cmd, dom cmd.2 = ({["quantity"; "name"; "sku"; "price"]} : gset string))
         (populate_pipeline rows).
Proof.
  unfold populate_pipeline. apply Forall_fmap, Forall_forall.
  intros [[[[pid qty] name] sku] price] _. simpl.
  rewrite !dom_insert_L, dom_empty_L. set_solver.
Qed.

(** C6: [_populate_redis_from_mysql].

    Exit paths, whatever call fails: the session obtained is released (the
    open sessions are as before and the log gained exactly the opening and
    the closing of one session, or nothing when no session could be
    obtained), and nothing is committed.

    Without faults the call returns normally and the cache is what the queued
    commands make of it: one [hset] per row of the inner join of [stocks] and
    [products], each with exactly the fields quantity, name, sku and price;
    a joined row is a stock row paired with a product of the same id; with no
    stock row the cache is left as it was; keys outside [stock:*] are never
    touched.  When the product ids of both tables are unique and the cache
    holds no [stock:*] key (the situation of the only caller), afterwards
    every stock row with a product has the entry made of its quantity and the
    name, sku and price of its product, a product id without such a row has no
    entry, and the stock keys of the cache are exactly one per stock row that
    has a product. *)
Theorem populate_redis_from_mysql_rehydrates (w : world) :
  let r := _populate_redis_from_mysql tt w in
  let t := committed w in
  (sessions r.2 = sessions w ∧ committed r.2 = committed w
   ∧ (log r.2 = log w ∨ ∃ h, log r.2 = log w ++ [Opened h; Closed h]))
  ∧ (faults w = [] →
     r.1 = Return tt
     ∧ cache r.2 = run_pipeline (populate_pipeline (sql_join t)) (cache w)
     ∧ length (populate_pipeline (sql_join t)) = length (sql_join t)
     ∧ Forall (λ cmd, dom cmd.2 = ({["quantity"; "name"; "sku"; "price"]} : gset string))
              (populate_pipeline (sql_join t))
     ∧ (∀ row, row ∈ sql_join t ↔
          ∃ s p, s ∈ stocks t ∧ p ∈ products t ∧ Stock.product_id s = Product.id p
                 ∧ row = (Stock.product_id s, Stock.quantity s,
                          Product.name p, Product.sku p, Product.price p))
     ∧ (stocks t = [] → cache r.2 = cache w)
     ∧ (∀ k, matches_stock_pattern k = false → cache r.2 !! k = cache w !! k)
     ∧ (NoDup (Stock.product_id <$> stocks t) →
        NoDup (Product.id <$> products t) →
        redis_scan_stock (cache w) = [] →
        (∀ s p, s ∈ stocks t → p ∈ products t → Stock.product_id s = Product.id p →
           cache r.2 !! stock_key (Stock.product_id s)
           = Some {["quantity" := Text (py_str (Stock.quantity s));
                    "name" := Text (Product.name p);
                    "sku" := Text (Product.sku p);
                    "price" := FloatText (Product.price p)]})
        ∧ (∀ pid, (∀ s, s ∈ stocks t → Stock.product_id s = pid → ¬ has_product t s) →
             cache r.2 !! stock_key pid = None)
        ∧ redis_scan_stock (cache r.2)
          ≡ₚ stock_key <$> (Stock.product_id <$> filter (has_product t) (stocks t)))).
Proof.
  intros r t. split; [apply populate_exits|]. intros Hq.
  subst r. rewrite (populate_quiet w Hq). cbn [fst snd cache]. fold t. unfold rehydrated.
  split_and!.
  - done.
  - done.
  - unfold populate_pipeline. by rewrite length_fmap.
  - apply populate_pipeline_fields.
  - apply sql_join_rows.
  - intros Hnone. unfold sql_join. by rewrite Hnone.
  - intros k Hk. by apply rehydrated_lookup_outside.
  - intros Hks Hkp Hcold. split_and!.
    + intros s p Hs Hp Heq. apply (rehydrated_entry_of t); try done.
      apply cold_lookup; [done|apply stock_key_matches].
    + intros pid Hno. etrans; [exact (rehydrated_no_entry t (cache w) pid Hno)|].
      apply cold_lookup; [done|apply stock_key_matches].
    + rewrite <- sql_join_ids by done. apply rehydrated_scan; [done|].
      rewrite sql_join_ids by done.
      eapply sublist_NoDup; [exact Hks|]. apply fmap_sublist, sublist_filter.
Qed.

Lemma populate_redis_from_mysql_rehydrates_witness :
  (_populate_redis_from_mysql tt cold_world).1 = Return tt
  ∧ cache (_populate_redis_from_mysql tt cold_world).2 !! stock_key 1
    = Some {["quantity" := Text "10"; "name" := Text "Widget";
             "sku" := Text "W1"; "price" := FloatText (Dec 999 (-2))]}.
Proof.
  destruct (populate_redis_from_mysql_rehydrates cold_world) as [_ Hrun].
  destruct (Hrun eq_refl) as (Hret & _ & _ & _ & _ & _ & _ & Huniq).
  split; [exact Hret|].
  destruct Huniq as (Hentry & _ & _).
  - apply NoDup_singleton.
  - apply NoDup_singleton.
  - reflexivity.
  - apply (Hentry (Stock.Make 1 10) widget); [by left|by left|reflexivity].
Defined.

(** * The cache path: claims *)

(** C1: for a non-empty item sequence, when the scan for [stock:*] finds
    nothing, [update_stock_redis] runs the rehydration before any per-item
    processing (on every path, whatever call fails).  Without faults the
    rehydration returns and the processing runs against the rehydrated cache:
    its reads see the entries rehydration wrote.  In the example (store:
    product 1 with quantity 10 and the product Widget, W1, 9.99; cache empty;
    item {product_id: 1, quantity: 3}; operation +) the entry ends with
    quantity 13. *)
Theorem update_stock_redis_rehydrates_first
    (order_items : list OrderItem.t) (operation : string) (w : world) :
  order_items ≠ [] →
  redis_scan_stock (cache w) = [] →
  let c := rehydrated (committed w) (cache w) in
  let r := update_stock_redis order_items operation w in
  update_stock_redis order_items operation w
    = (r ← get_redis_conn;
       r_scan_iter_stock ;;
       _populate_redis_from_mysql r ;;
       adjust_entries order_items operation) w
  ∧ (faults w = [] →
     update_stock_redis order_items operation w
       = adjust_entries order_items operation (_populate_redis_from_mysql tt w).2
     ∧ (_populate_redis_from_mysql tt w).1 = Return tt
     ∧ cache (_populate_redis_from_mysql tt w).2 = c
     ∧ (Forall (λ item, readable c item.1.1) (normalized <$> order_items) →
        r.1 = Return tt
        ∧ cache r.2
          = run_pipeline
              (entry_write operation (committed w) c <$> (normalized <$> order_items)) c))
  ∧ (let r1 := update_stock_redis [as_mapping 1 3] "+" cold_world in
     r1.1 = Return tt
     ∧ cache (_populate_redis_from_mysql tt cold_world).2 !! stock_key 1
       = Some {["quantity" := Text "10"; "name" := Text "Widget";
                "sku" := Text "W1"; "price" := FloatText (Dec 999 (-2))]}
     ∧ redis_hget (stock_key 1) "quantity" (cache r1.2) = Some (Text "13")).
Proof.
  intros Hne Hcold c r. split_and!.
  - by apply update_stock_redis_cold_sequence.
  - intros Hq.
    pose proof (update_stock_redis_run order_items operation w Hq Hne) as (_ & _ & Hok & _).
    unfold cache_at_start in Hok. rewrite Hcold in Hok. fold c in Hok.
    split_and!.
    + rewrite update_stock_redis_quiet by done. by rewrite Hcold.
    + by rewrite populate_quiet.
    + by rewrite populate_quiet.
    + exact Hok.
  - vm_compute. done.
Qed.

Lemma update_stock_redis_rehydrates_first_witness :
  update_stock_redis [as_mapping 1 3] "+" cold_world
  = adjust_entries [as_mapping 1 3] "+" (_populate_redis_from_mysql tt cold_world).2.
Proof.
  assert ([as_mapping 1 3] ≠ []) as Hne by discriminate.
  destruct (update_stock_redis_rehydrates_first [as_mapping 1 3] "+" cold_world
              Hne eq_refl) as (_ & Hquiet & _).
  exact (proj1 (Hquiet eq_refl)).
Defined.

(** C5: without faults, [update_stock_redis] queues one write per item, in
    input order, and runs them on the cache the processing started from.  The
    write of an item goes to the key of its product id and carries the field
    mapping of [adjusted_mapping] for the new quantity, which is the current
    quantity plus the delta for [+] and minus the delta for any other
    operation; the current quantity is 0 when the field is missing or empty
    and otherwise the integer [int] reads in the field, be it written as by
    [str] or with a sign, spaces or grouped digits.  The mapping has the
    quantity and, when the product has a snapshot, its name, sku and price;
    else the price alone when the item carried a unit price; else nothing
    more.  When the quantity fields are plain texts and one of them does not
    read as an integer, the call raises and writes nothing. *)
Theorem update_stock_redis_per_item
    (order_items : list OrderItem.t) (operation : string) (w : world) :
  faults w = [] →
  order_items ≠ [] →
  let c := cache_at_start w in
  let t := committed w in
  let r := update_stock_redis order_items operation w in
  (Forall (λ item, readable c item.1.1) (normalized <$> order_items) →
     r.1 = Return tt
     ∧ cache r.2 = run_pipeline (entry_write operation t c <$> (normalized <$> order_items)) c)
  ∧ (Forall (λ item, plain_quantity c item.1.1) (normalized <$> order_items) →
     ¬ Forall (λ item, readable c item.1.1) (normalized <$> order_items) →
     (∃ e, r.1 = Raise e) ∧ cache r.2 = c)
  ∧ (∀ pid qty up,
       entry_write operation t c (pid, qty, up)
       = (stock_key pid,
          adjusted_mapping (snapshot_of pid t) up
            (if decide (operation = "+") then read_stock c pid + qty
             else read_stock c pid - qty)))
  ∧ (∀ pid, redis_hget (stock_key pid) "quantity" c = None
            ∨ redis_hget (stock_key pid) "quantity" c = Some (Text "") →
       readable c pid ∧ read_stock c pid = 0)
  ∧ (∀ pid z, redis_hget (stock_key pid) "quantity" c = Some (Text (py_str z)) →
       readable c pid ∧ read_stock c pid = z)
  ∧ (∀ pid s z, redis_hget (stock_key pid) "quantity" c = Some (Text s) →
       py_int s = Some z →
       readable c pid ∧ read_stock c pid = z)
  ∧ (∀ pid, is_Some (snapshot_of pid t) ↔ pid ∈ Product.id <$> products t)
  ∧ (∀ p up q,
       adjusted_mapping (Some p) up q
       = {["quantity" := PInt q; "name" := PStr (Product.name p);
           "sku" := PStr (Product.sku p); "price" := float (Product.price p)]})
  ∧ (∀ up q, adjusted_mapping None (Some up) q
             = {["quantity" := PInt q; "price" := float up]})
  ∧ (∀ q, adjusted_mapping None None q = {["quantity" := PInt q]}).
Proof.
  intros Hq Hne c t r.
  pose proof (update_stock_redis_run order_items operation w Hq Hne) as (_ & _ & Hok & Hbad).
  split_and!.
  - exact Hok.
  - intros _. exact Hbad.
  - done.
  - intros pid [H|H]; unfold readable, read_stock.
    + rewrite (current_stock_missing _ _ H). eauto.
    + rewrite (current_stock_falsy _ _ H). eauto.
  - intros pid z H. unfold readable, read_stock.
    rewrite (current_stock_integer _ _ _ H). eauto.
  - intros pid s z H Hint. unfold readable, read_stock.
    rewrite (current_stock_text _ _ _ _ H Hint). eauto.
  - intros pid. apply snapshot_of_exists.
  - apply adjusted_mapping_snapshot.
  - apply adjusted_mapping_unit_price.
  - apply adjusted_mapping_bare.
Qed.

Lemma update_stock_redis_per_item_witness :
  let r := update_stock_redis [as_mapping 1 3] "-" cold_world in
  r.1 = Return tt
  ∧ cache r.2
    = run_pipeline
        (entry_write "-" (committed cold_world) (cache_at_start cold_world)
           <$> (normalized <$> [as_mapping 1 3]))
        (cache_at_start cold_world).
Proof.
  assert ([as_mapping 1 3] ≠ []) as Hne by discriminate.
  destruct (update_stock_redis_per_item [as_mapping 1 3] "-" cold_world eq_refl Hne)
    as (Hok & _).
  apply Hok. repeat constructor. exists 10. reflexivity.
Defined.

(** C2, as stated, fails on "pre-call": when the call first rehydrates an
    empty cache, the items are computed from the rehydrated value, not from
    what the cache held before the call.  Store: product 1 with quantity 10;
    cache empty (product 1 reads as 0 before the call); items
    [{1, 3}; {1, 4}] with [+]: the entry ends at 14, not at 0 + 4. *)
Lemma update_stock_redis_pre_call_counterexample :
  let order_items := [as_mapping 1 3; as_mapping 1 4] in
  let r := update_stock_redis order_items "+" cold_world in
  current_stock (cache cold_world) 1 = Return 0
  ∧ r.1 = Return tt
  ∧ redis_hget (stock_key 1) "quantity" (cache r.2) = Some (Text "14")
  ∧ redis_hget (stock_key 1) "quantity" (cache r.2)
    ≠ Some (Text (py_str (new_quantity "+" (read_stock (cache cold_world) 1) 4))).
Proof. vm_compute. split_and!; done. Qed.

(** C2, amended: without faults, every write [update_stock_redis] queues
    in its per-item loop is computed from one and the same cache, the one the
    processing starts from: the pre-call cache when it held a stock entry, the
    rehydrated cache otherwise.  No item observes the write of an earlier
    item, so for a product id that several items name the deltas do not
    compound: its quantity ends at the starting quantity adjusted by the delta
    of the last of these items alone, and a product no item names keeps its
    field. *)
Theorem update_stock_redis_reads_before_writes
    (order_items : list OrderItem.t) (operation : string) (w : world) :
  faults w = [] →
  order_items ≠ [] →
  Forall (λ item, readable (cache_at_start w) item.1.1) (normalized <$> order_items) →
  let c := cache_at_start w in
  let r := update_stock_redis order_items operation w in
  (warm (cache w) → c = cache w)
  ∧ (redis_scan_stock (cache w) = [] → c = rehydrated (committed w) (cache w))
  ∧ r.1 = Return tt
  ∧ cache r.2
    = run_pipeline (entry_write operation (committed w) c <$> (normalized <$> order_items)) c
  ∧ (∀ pid item,
       last_item_for pid (normalized <$> order_items) = Some item →
       redis_hget (stock_key pid) "quantity" (cache r.2)
       = Some (Text (py_str (new_quantity operation (read_stock c pid) item.1.2))))
  ∧ (∀ pid,
       last_item_for pid (normalized <$> order_items) = None →
       redis_hget (stock_key pid) "quantity" (cache r.2)
       = redis_hget (stock_key pid) "quantity" c).
Proof.
  intros Hq Hne Hall c r.
  pose proof (update_stock_redis_run order_items operation w Hq Hne) as (_ & _ & Hok & _).
  destruct (Hok Hall) as [Hret Hcache]. fold r c in Hret, Hcache.
  split_and!.
  - apply cache_at_start_warm.
  - intros Hcold. subst c. unfold cache_at_start. by rewrite Hcold.
  - done.
  - done.
  - intros pid item Hlast. by rewrite Hcache, entry_writes_quantity, Hlast.
  - intros pid Hlast. by rewrite Hcache, entry_writes_quantity, Hlast.
Qed.

Lemma update_stock_redis_reads_before_writes_witness :
  redis_hget (stock_key 1) "quantity"
    (cache (update_stock_redis [as_mapping 1 3; as_mapping 1 4] "+" warm_world).2)
  = Some (Text (py_str (new_quantity "+" (read_stock (cache_at_start warm_world) 1) 4))).
Proof.
  assert ([as_mapping 1 3; as_mapping 1 4] ≠ []) as Hne by discriminate.
  assert (Forall (λ item, readable (cache_at_start warm_world) item.1.1)
                 (normalized <$> [as_mapping 1 3; as_mapping 1 4])) as Hall.
  { repeat constructor; exists 10; reflexivity. }
  destruct (update_stock_redis_reads_before_writes
              [as_mapping 1 3; as_mapping 1 4] "+" warm_world eq_refl Hne Hall)
    as (_ & _ & _ & _ & Hlast & _).
  apply (Hlast 1 (1, 4, None)). reflexivity.
Defined.

(** * Increment and decrement cancel: claim *)

Lemma store_round_trip session order_items w :
  faults w = [] →
  let r1 := check_in_items_to_stock session order_items w in
  let r2 := check_out_items_from_stock session order_items r1.2 in
  stocks (session_view session r2.2) = stocks (session_view session w)
  ∧ (uniform order_items = true → r1.1 = Return tt ∧ r2.1 = Return tt).
Proof.
  intros Hq r1 r2. unfold check_in_items_to_stock, check_out_items_from_stock in *.
  destruct (update_stock_mysql_quiet session order_items "+" Z.add w Hq eq_refl)
    as (Ho1 & Hr1 & _ & Hq1). fold r1 in Ho1, Hr1, Hq1.
  destruct (update_stock_mysql_quiet session order_items "-" Z.sub r1.2 Hq1 eq_refl)
    as (Ho2 & Hr2 & _ & _). fold r2 in Ho2, Hr2.
  destruct order_items as [|first rest].
  - split; [congruence|done].
  - split.
    + rewrite Hr2, Hr1. apply apply_statements_cancel.
    + intros Hu. rewrite Ho1, Ho2. split; by apply batch_outcome_uniform.
Qed.

Lemma store_round_trip_back session order_items w :
  faults w = [] →
  let r1 := check_out_items_from_stock session order_items w in
  let r2 := check_in_items_to_stock session order_items r1.2 in
  stocks (session_view session r2.2) = stocks (session_view session w)
  ∧ (uniform order_items = true → r1.1 = Return tt ∧ r2.1 = Return tt).
Proof.
  intros Hq r1 r2. unfold check_in_items_to_stock, check_out_items_from_stock in *.
  destruct (update_stock_mysql_quiet session order_items "-" Z.sub w Hq eq_refl)
    as (Ho1 & Hr1 & _ & Hq1). fold r1 in Ho1, Hr1, Hq1.
  destruct (update_stock_mysql_quiet session order_items "+" Z.add r1.2 Hq1 eq_refl)
    as (Ho2 & Hr2 & _ & _). fold r2 in Ho2, Hr2.
  destruct order_items as [|first rest].
  - split; [congruence|done].
  - split.
    + rewrite Hr2, Hr1. apply apply_statements_cancel.
    + intros Hu. rewrite Ho1, Ho2. split; by apply batch_outcome_uniform.
Qed.

Lemma new_quantity_undo_plus x d : new_quantity "-" (new_quantity "+" x d) d = x.
Proof. unfold new_quantity. simpl. lia. Qed.

Lemma new_quantity_undo_minus x d : new_quantity "+" (new_quantity "-" x d) d = x.
Proof. unfold new_quantity. simpl. lia. Qed.

(** C8: without faults, an increment followed by a decrement of the same
    items, or the reverse, as two calls one after the other, leaves every
    quantity as it was.  In the store ([check_in_items_to_stock] and
    [check_out_items_from_stock] on one session) the table the session sees is
    the same afterwards, so every existing record has its quantity back.  In
    the cache ([update_stock_redis] with [+] and [-]) a product that has an
    entry reads the same quantity afterwards.  Both calls return normally when
    the items have one shape (store) and when the quantity fields of their
    entries read as integers (cache). *)
Theorem increment_decrement_cancel
    (session : nat) (order_items : list OrderItem.t) (w : world) :
  faults w = [] →
  (let r1 := check_in_items_to_stock session order_items w in
   let r2 := check_out_items_from_stock session order_items r1.2 in
   stocks (session_view session r2.2) = stocks (session_view session w)
   ∧ (uniform order_items = true → r1.1 = Return tt ∧ r2.1 = Return tt))
  ∧ (let r1 := check_out_items_from_stock session order_items w in
     let r2 := check_in_items_to_stock session order_items r1.2 in
     stocks (session_view session r2.2) = stocks (session_view session w)
     ∧ (uniform order_items = true → r1.1 = Return tt ∧ r2.1 = Return tt))
  ∧ (∀ pid z,
       is_Some (cache w !! stock_key pid) →
       current_stock (cache w) pid = Return z →
       (let r1 := update_stock_redis order_items "+" w in
        let r2 := update_stock_redis order_items "-" r1.2 in
        current_stock (cache r2.2) pid = Return z
        ∧ (Forall (λ item, readable (cache w) item.1.1) (normalized <$> order_items) →
           r1.1 = Return tt ∧ r2.1 = Return tt))
       ∧ (let r1 := update_stock_redis order_items "-" w in
          let r2 := update_stock_redis order_items "+" r1.2 in
          current_stock (cache r2.2) pid = Return z
          ∧ (Forall (λ item, readable (cache w) item.1.1) (normalized <$> order_items) →
             r1.1 = Return tt ∧ r2.1 = Return tt))).
Proof.
  intros Hq. split_and!.
  - by apply store_round_trip.
  - by apply store_round_trip_back.
  - intros pid z Hentry Hz.
    assert (warm (cache w)) as Hwarm.
    { apply warm_iff. exists (stock_key pid). split; [apply stock_key_matches|done]. }
    split.
    + apply cache_round_trip; [apply new_quantity_undo_plus|done..].
    + apply cache_round_trip; [apply new_quantity_undo_minus|done..].
Qed.

Lemma increment_decrement_cancel_witness :
  (let r1 := check_in_items_to_stock 0 [as_object 1 3] warm_world in
   let r2 := check_out_items_from_stock 0 [as_object 1 3] r1.2 in
   stocks (session_view 0 r2.2) = stocks (session_view 0 warm_world))
  ∧ (let r1 := update_stock_redis [as_object 1 3] "+" warm_world in
     let r2 := update_stock_redis [as_object 1 3] "-" r1.2 in
     current_stock (cache r2.2) 1 = Return 10).
Proof.
  destruct (increment_decrement_cancel 0 [as_object 1 3] warm_world eq_refl)
    as ((Hstore & _) & _ & Hcache).
  split; [exact Hstore|].
  destruct (Hcache 1 10) as ((Hplus & _) & _).
  - by eexists.
  - reflexivity.
  - exact Hplus.
Defined.

(** * Further properties of the commands *)

(** ** Programs that agree step by step *)

Lemma bind_ext {A B} (m : M A) (k k' : A → M B) w :
  (∀ a w', k a w' = k' a w') → bind m k w = bind m k' w.
Proof. intros Hk. unfold bind. destruct (m w) as [[a|e] w']; [apply Hk|done]. Qed.

Lemma bind_ext_l {A B} (m m' : M A) (k : A → M B) w :
  m w = m' w → bind m k w = bind m' k w.
Proof. intros Hm. unfold bind. by rewrite Hm. Qed.

Lemma try_finally_ext {A} (body body' : M A) (cleanup : M unit) w :
  body w = body' w → try_finally body cleanup w = try_finally body' cleanup w.
Proof. intros Hb. unfold try_finally. by rewrite Hb. Qed.

Lemma fold_for_ext {A S} (xs : list A) (s : S) (f g : S → A → M S) w :
  (∀ s x w', f s x w' = g s x w') → fold_for xs s f w = fold_for xs s g w.
Proof.
  intros Hfg. revert s w. induction xs as [|x xs IH]; intros s w; [done|].
  cbn [fold_for]. unfold mbind, M_bind. rewrite (bind_ext _ _ (λ s', fold_for xs s' g)).
  - unfold bind. by rewrite Hfg.
  - intros. apply IH.
Qed.

(** ** The operation text of the cache path *)

Lemma adjust_item_not_plus operation (product_map : gmap Z Product.t) pipeline item w :
  operation ≠ "+" →
  adjust_item operation product_map pipeline item w
  = adjust_item "-" product_map pipeline item w.
Proof.
  intros Hop. unfold adjust_item. destruct item as [[pid qty] up].
  destruct (decide (operation = "+")) as [|_]; [done|].
  destruct (decide ("-" = "+")) as [|_]; done.
Qed.

Lemma adjust_entries_not_plus order_items operation w :
  operation ≠ "+" →
  adjust_entries order_items operation w = adjust_entries order_items "-" w.
Proof.
  intros Hop. unfold adjust_entries, mbind, M_bind.
  apply bind_ext. intros [ids items] w1.
  apply bind_ext. intros session w2.
  apply try_finally_ext. apply bind_ext. intros products w3. cbv zeta.
  apply bind_ext_l, fold_for_ext. intros. by apply adjust_item_not_plus.
Qed.

(** X9: any operation text other than [+] makes [update_stock_redis] subtract:
    the call is, in every world, the call with [-]. *)
Theorem update_stock_redis_other_operation
    (order_items : list OrderItem.t) (operation : string) (w : world) :
  operation ≠ "+" →
  update_stock_redis order_items operation w = update_stock_redis order_items "-" w.
Proof.
  intros Hop. unfold update_stock_redis. destruct order_items as [|item rest]; [done|].
  unfold mbind, M_bind. apply bind_ext. intros r w1.
  apply bind_ext. intros keys w2. apply bind_ext. intros _ w3.
  by apply adjust_entries_not_plus.
Qed.

Lemma update_stock_redis_other_operation_witness :
  update_stock_redis [as_mapping 1 3] "increment" cold_world
  = update_stock_redis [as_mapping 1 3] "-" cold_world.
Proof. apply update_stock_redis_other_operation. discriminate. Defined.


(** ** The shape of the items *)

Lemma collected_ids_normalized (ids : gset Z) (order_items : list OrderItem.t) :
  foldl (λ s item, {[OrderItem.product_id (fields_of item)]} ∪ s) ids order_items
  = foldl (λ s (n : Z * Z * option Decimal), {[n.1.1]} ∪ s) ids (normalized <$> order_items).
Proof.
  revert ids. induction order_items as [|item xs IH]; intros ids; [done|].
  cbn [foldl fmap list_fmap]. apply IH.
Qed.

Lemma adjust_entries_shape order_items order_items' operation w :
  normalized <$> order_items = normalized <$> order_items' →
  adjust_entries order_items operation w = adjust_entries order_items' operation w.
Proof.
  intros Hsame. unfold adjust_entries, mbind, M_bind. apply bind_ext_l.
  rewrite !normalize_loop_quiet, !collected_ids_normalized. by rewrite Hsame.
Qed.

(** X10: [update_stock_redis] takes objects and mappings alike: two sequences whose
    items carry the same product ids, quantities and unit prices, in the same
    order, give the same outcome and the same world, whatever the shape of
    each item and whatever call fails. *)
Theorem update_stock_redis_shape_independent
    (order_items order_items' : list OrderItem.t) (operation : string) (w : world) :
  normalized <$> order_items = normalized <$> order_items' →
  update_stock_redis order_items operation w = update_stock_redis order_items' operation w.
Proof.
  intros Hsame. unfold update_stock_redis.
  destruct order_items as [|item rest], order_items' as [|item' rest']; try done.
  unfold mbind, M_bind. apply bind_ext. intros r w1.
  apply bind_ext. intros keys w2. apply bind_ext. intros _ w3.
  by apply adjust_entries_shape.
Qed.

Lemma update_stock_redis_shape_independent_witness :
  update_stock_redis [as_object 1 3; as_mapping 1 4] "+" cold_world
  = update_stock_redis [as_mapping 1 3; as_object 1 4] "+" cold_world.
Proof. apply update_stock_redis_shape_independent. reflexivity. Defined.


(** ** Running the calls under any plan of faults *)

Lemma collaborator_call_cases w :
  (∃ e w', collaborator_call w = (Raise e, w') ∧ same_but_faults w w')
  ∨ (∃ w', collaborator_call w = (Return tt, w') ∧ same_but_faults w w').
Proof.
  unfold collaborator_call. destruct (faults w) as [|[e|] fs].
  - right. by exists w.
  - left. by exists e, (set_faults fs w).
  - right. by exists (set_faults fs w).
Qed.

Lemma call_cases {A B} (step : M A) (k : A → M B) w :
  (∃ e w', bind (bind collaborator_call (λ _, step)) k w = (Raise e, w')
           ∧ same_but_faults w w')
  ∨ (∃ w', bind (bind collaborator_call (λ _, step)) k w
           = match step w' with
             | (Return a, w'') => k a w''
             | (Raise e, w'') => (Raise e, w'')
             end
           ∧ same_but_faults w w').
Proof.
  unfold bind. destruct (collaborator_call_cases w) as [(e & w' & -> & Hs)|(w' & -> & Hs)].
  - left. by exists e, w'.
  - right. by exists w'.
Qed.

Lemma call_cases_plain {B} (k : unit → M B) w :
  (∃ e w', bind collaborator_call k w = (Raise e, w') ∧ same_but_faults w w')
  ∨ (∃ w', bind collaborator_call k w = k tt w' ∧ same_but_faults w w').
Proof.
  unfold bind. destruct (collaborator_call_cases w) as [(e & w' & -> & Hs)|(w' & -> & Hs)].
  - left. by exists e, w'.
  - right. by exists w'.
Qed.

Lemma bind_assoc {A B C} (m : M A) (f : A → M B) (k : B → M C) w :
  bind (bind m f) k w = bind m (λ a, bind (f a) k) w.
Proof. unfold bind. by destruct (m w) as [[a|e] w']. Qed.

Lemma bind_ret {A B} (a : A) (k : A → M B) w : bind (ret a) k w = k a w.
Proof. done. Qed.

Lemma session_view_same h w w' :
  same_but_faults w w' → session_view h w' = session_view h w.
Proof. intros (Hc & Hs & _). unfold session_view. by rewrite Hc, Hs. Qed.

Lemma session_view_open h t w v :
  sessions w !! h = Some v → session_view h (set_committed t w) = v.
Proof. intros Hv. unfold session_view. simpl. by rewrite Hv. Qed.

Ltac world_simpl_all :=
  cbn [committed sessions cache log faults stocks products
       set_committed set_sessions set_cache add_event set_faults set_view] in *.

(** Runs the next collaborator call of the goal on session [h]: it raises,
    or it goes on in a world that differs by the plan of faults only. *)
Ltac call_step h :=
  let e := fresh "e" in
  let w' := fresh "w" in
  let Heq := fresh "Hcall" in
  let Hs := fresh "Hsame" in
  match goal with
  | |- context [bind (bind collaborator_call (λ _, ?step)) ?k ?w] =>
      destruct (call_cases step k w) as [(e & w' & Heq & Hs)|(w' & Heq & Hs)]
  | |- context [bind collaborator_call ?k ?w] =>
      destruct (call_cases_plain k w) as [(e & w' & Heq & Hs)|(w' & Heq & Hs)]
  end;
  rewrite Heq; clear Heq;
  pose proof (session_view_same h _ _ Hs);
  destruct Hs as (? & ? & ? & ?);
  cbv beta iota zeta;
  world_simpl_all; autorewrite with world in *.

(** Rewrites the projections of the worlds met so far down to the first
    one. *)
Ltac chase :=
  world_simpl; autorewrite with world;
  repeat (match goal with
          | H : committed ?x = _ |- context [committed ?x] => rewrite H
          | H : sessions ?x = _ |- context [sessions ?x] => rewrite H
          | H : cache ?x = _ |- context [cache ?x] => rewrite H
          | H : log ?x = _ |- context [log ?x] => rewrite H
          | H : session_view ?h ?x = _ |- context [session_view ?h ?x] => rewrite H
          | H : sessions ?x = <[?h := ?v]> _
            |- context [session_view ?h (set_committed ?t ?x)] =>
              rewrite (session_view_open h t x v) by (rewrite H; apply lookup_insert_eq)
          end;
          world_simpl; autorewrite with world).

(** The handlers of a command: rollback, re-raise, close. *)
Ltac run_handlers :=
  unfold bind, session_rollback, raise, session_close, ret;
  cbv beta iota zeta; cbn [fst snd]; chase.

Ltac writer_raised :=
  unfold writer_result, upserted; run_handlers;
  split_and!;
  [rewrite ?insert_insert_eq; by apply sessions_released
  |done
  |first [by left
         |right; rewrite decide_True by done; done
         |right; rewrite decide_False by done; done]].

Lemma set_stock_for_product_any product_id quantity w :
  writer_result product_id quantity w (set_stock_for_product product_id quantity w).
Proof.
  unfold set_stock_for_product, mbind, M_bind.
  unfold bind at 1.
  destruct (get_sqlalchemy_session_cases w)
    as [(e0 & Hr & Hs & Hl & Hc & Hca)|(h & Hr & Hfresh & Hs & Hl & Hc & Hca)].
  - destruct (get_sqlalchemy_session w) as [[h|e1] w1]; simpl in *; [done|].
    unfold writer_result. cbn [fst snd]. split_and!; [done|done|by left].
  - destruct (get_sqlalchemy_session w) as [[h'|e1] w1]; simpl in Hr; [|done].
    simplify_eq. cbn [fst snd] in *.
    assert (session_view h w1 = committed w) as Hview.
    { unfold session_view. by rewrite Hs, lookup_insert_eq. }
    unfold try_finally, try_except, set_stock_try, mbind, M_bind.
    unfold session_execute_update_set, session_add_flush, session_commit,
      session_query_product_first, get_redis_conn, r_hset.
    call_step h; [writer_raised|]. chase.
    destruct (decide ((sql_update_set product_id quantity (stocks (committed w))).1 = 0))
      as [Hzero|Hzero].
    + rewrite bind_assoc. call_step h; [writer_raised|]. chase.
      destruct (decide (violates_unique_key _ _)); cbv beta iota; [writer_raised|].
      rewrite bind_ret.
      call_step h; [writer_raised|]. chase.
      call_step h; [writer_raised|]. chase.
      call_step h; [writer_raised|]. chase.
      call_step h; [writer_raised|]. chase.
      unfold writer_result, upserted, upsert_message. run_handlers.
      rewrite !decide_True by done.
      split_and!; try done.
      rewrite ?insert_insert_eq. by apply sessions_released.
    + rewrite bind_ret.
      call_step h; [writer_raised|]. chase.
      call_step h; [writer_raised|]. chase.
      call_step h; [writer_raised|]. chase.
      call_step h; [writer_raised|]. chase.
      unfold writer_result, upserted, upsert_message. run_handlers.
      rewrite !decide_False by done.
      split_and!; try done.
      rewrite ?insert_insert_eq. by apply sessions_released.
Qed.


(** ** The direct stock writer under any plan of faults *)

(** X1: whatever call fails, [set_stock_for_product] writes the cache only after
    the store has committed.  When it raises, the cache is exactly as it was and
    the store is either as it was or already holds the upsert (a failure after
    the commit is not compensated); when it returns, the store holds the
    upsert, the entry got the payload and the text tells insert from update. *)
Theorem set_stock_for_product_store_before_cache
    (product_id quantity : Z) (w : world) :
  let r := set_stock_for_product product_id quantity w in
  (∀ e, r.1 = Raise e →
     cache r.2 = cache w
     ∧ (committed r.2 = committed w
        ∨ committed r.2 = upserted product_id quantity (committed w)))
  ∧ (∀ message, r.1 = Return message →
       committed r.2 = upserted product_id quantity (committed w)
       ∧ cache r.2
         = redis_hset (stock_key product_id)
             (writer_payload quantity (product_by_id product_id (committed w))) (cache w)
       ∧ message = upsert_message product_id quantity (committed w))
  ∧ (cache r.2 ≠ cache w → committed r.2 = upserted product_id quantity (committed w)).
Proof.
  intros r. destruct (set_stock_for_product_any product_id quantity w) as [_ Hres].
  fold r in Hres. destruct r.1 as [message|e].
  - split_and!; [done|by intros ? [= <-]|by intros _; destruct Hres].
  - split_and!; [by intros ? _|done|]. intros Hne. by destruct Hres.
Qed.

Lemma set_stock_for_product_store_before_cache_witness :
  cache (set_stock_for_product 1 4 failing_commit_world).2 = cache failing_commit_world
  ∧ (committed (set_stock_for_product 1 4 failing_commit_world).2
       = committed failing_commit_world
     ∨ committed (set_stock_for_product 1 4 failing_commit_world).2
       = upserted 1 4 (committed failing_commit_world)).
Proof.
  apply (proj1 (set_stock_for_product_store_before_cache 1 4 failing_commit_world)
           (ExternalError "commit")).
  vm_compute. reflexivity.
Defined.

Lemma records_of_upserted_other pid pid' quantity t :
  pid' ≠ pid →
  records_of pid' (stocks (upserted pid quantity t)) = records_of pid' (stocks t).
Proof.
  intros Hne. unfold upserted. cbn [stocks].
  destruct (decide _).
  - rewrite records_of_app, records_of_update_other by done.
    unfold records_of at 2. rewrite filter_cons, decide_False by done.
    by rewrite filter_nil, app_nil_r.
  - by apply records_of_update_other.
Qed.

(** X2: whatever call fails, [set_stock_for_product] touches nothing but its own
    product: the products table, the stock records of every other product id,
    every other cache key, and the fields of its own entry that the payload
    does not name are as before; the sessions are as before. *)
Theorem set_stock_for_product_only_its_product
    (product_id quantity : Z) (w : world) :
  let r := set_stock_for_product product_id quantity w in
  sessions r.2 = sessions w
  ∧ products (committed r.2) = products (committed w)
  ∧ (∀ pid, pid ≠ product_id →
       records_of pid (stocks (committed r.2)) = records_of pid (stocks (committed w)))
  ∧ (∀ key, key ≠ stock_key product_id → cache r.2 !! key = cache w !! key)
  ∧ (∀ field,
       writer_payload quantity (product_by_id product_id (committed w)) !! field = None →
       redis_hget (stock_key product_id) field (cache r.2)
       = redis_hget (stock_key product_id) field (cache w)).
Proof.
  intros r. destruct (set_stock_for_product_any product_id quantity w) as [Hs Hres].
  fold r in Hs, Hres.
  assert (committed r.2 = committed w
          ∨ committed r.2 = upserted product_id quantity (committed w)) as Hstore.
  { destruct r.1; [right|]; by destruct Hres. }
  assert (cache r.2 = cache w
          ∨ cache r.2
            = redis_hset (stock_key product_id)
                (writer_payload quantity (product_by_id product_id (committed w))) (cache w))
    as Hcache.
  { destruct r.1; [right|left]; by destruct Hres as (? & ? & ?) || destruct Hres. }
  split_and!.
  - done.
  - by destruct Hstore as [->| ->].
  - intros pid Hne. destruct Hstore as [->| ->]; [done|].
    by apply records_of_upserted_other.
  - intros key Hne. destruct Hcache as [->| ->]; [done|].
    by apply redis_hset_lookup_ne.
  - intros field Hnone. destruct Hcache as [->| ->]; [done|].
    by rewrite redis_hget_hset, decide_True, Hnone.
Qed.

Lemma set_stock_for_product_only_its_product_witness :
  cache (set_stock_for_product 5 0 warm_world).2 !! stock_key 1
  = cache warm_world !! stock_key 1.
Proof.
  destruct (set_stock_for_product_only_its_product 5 0 warm_world)
    as (_ & _ & _ & Hkeys & _).
  apply Hkeys. apply not_inj. discriminate.
Defined.


(** ** The direct stock writer, twice *)

Lemma sql_update_set_absent pid qty rows :
  records_of pid rows = [] → sql_update_set pid qty rows = (0, rows).
Proof.
  intros Hno. unfold sql_update_set. f_equal.
  - unfold records_of in Hno. by rewrite Hno.
  - etrans; [|apply list_fmap_id]. apply list_fmap_ext. intros i r Hr. simpl.
    destruct (decide _) as [Heq|]; [|done]. exfalso.
    apply records_of_absent in Hno. apply Hno. rewrite <- Heq.
    apply list_elem_of_fmap_2. eapply list_elem_of_lookup_2, Hr.
Qed.

Lemma sql_update_set_twice pid q1 q2 rows :
  sql_update_set pid q2 (sql_update_set pid q1 rows).2 = sql_update_set pid q2 rows.
Proof.
  unfold sql_update_set at 1 3. f_equal.
  - fold (records_of pid (sql_update_set pid q1 rows).2).
    by rewrite records_of_update_same, length_fmap.
  - unfold sql_update_set. cbn [snd]. rewrite <- list_fmap_compose.
    apply list_fmap_ext. intros i r _. simpl.
    destruct (decide (Stock.product_id r = pid)); simpl; [by rewrite decide_True|].
    by rewrite decide_False.
Qed.

Lemma sql_update_set_app pid qty rows1 rows2 :
  sql_update_set pid qty (rows1 ++ rows2)
  = ((sql_update_set pid qty rows1).1 + (sql_update_set pid qty rows2).1,
     (sql_update_set pid qty rows1).2 ++ (sql_update_set pid qty rows2).2).
Proof.
  unfold sql_update_set. cbn [fst snd]. f_equal.
  - rewrite filter_app, length_app. lia.
  - by rewrite fmap_app.
Qed.

Lemma upserted_twice pid q1 q2 t :
  upserted pid q2 (upserted pid q1 t) = upserted pid q2 t.
Proof.
  unfold upserted. cbn [stocks products].
  destruct (decide ((sql_update_set pid q1 (stocks t)).1 = 0)) as [Hzero|Hsome].
  - assert (records_of pid (stocks t) = []) as Hno by (by eapply sql_update_set_count).
    rewrite sql_update_set_app, !(sql_update_set_absent _ _ _ Hno). cbn [fst snd].
    unfold sql_update_set. cbn [fst snd].
    rewrite (filter_cons _ (Stock.Make pid q1)), (decide_True (P := pid = pid)) by done.
    cbn [length filter list_filter fmap list_fmap Stock.product_id].
    rewrite (decide_True (P := pid = pid)) by done.
    rewrite decide_False by (rewrite ?filter_nil; simpl; lia).
    rewrite (decide_True (P := 0 = 0)) by done. done.
  - rewrite sql_update_set_twice.
    assert ((sql_update_set pid q2 (stocks t)).1 ≠ 0) as Hsome2.
    { intros H0. apply Hsome. apply sql_update_set_count.
      by eapply (sql_update_set_count pid q2). }
    by rewrite !decide_False.
Qed.

Lemma upserted_count pid q1 q2 t :
  0 < (sql_update_set pid q2 (stocks (upserted pid q1 t))).1.
Proof.
  unfold upserted. cbn [stocks].
  destruct (decide ((sql_update_set pid q1 (stocks t)).1 = 0)) as [Hzero|Hsome].
  - rewrite sql_update_set_app. cbn [fst].
    unfold sql_update_set. cbn [fst]. rewrite (filter_cons _ (Stock.Make pid q1)).
    rewrite (decide_True (P := pid = pid)) by done. simpl. lia.
  - rewrite sql_update_set_twice.
    assert ((sql_update_set pid q2 (stocks t)).1 ≠ 0) as Hsome2.
    { intros H0. apply Hsome. apply sql_update_set_count.
      by eapply (sql_update_set_count pid q2). }
    unfold sql_update_set in *. cbn [fst] in *. lia.
Qed.

Lemma redis_hset_twice key (m1 m2 : gmap string pyval) c :
  dom m1 ⊆ dom m2 →
  redis_hset key m2 (redis_hset key m1 c) = redis_hset key m2 c.
Proof.
  intros Hdom. unfold redis_hset. rewrite lookup_insert_eq, insert_insert_eq. simpl.
  f_equal. apply map_eq. intros f. rewrite !lookup_union, !lookup_fmap.
  destruct (m2 !! f) as [v2|] eqn:E2; simpl.
  - by rewrite !union_Some_l.
  - destruct (m1 !! f) as [v1|] eqn:E1; simpl;
      [|by destruct (default ∅ (c !! key) !! f)].
    exfalso. apply not_elem_of_dom in E2. apply E2, Hdom, elem_of_dom. eauto.
Qed.

Lemma writer_payload_dom q1 q2 product :
  dom (writer_payload q1 product) ⊆ dom (writer_payload q2 product).
Proof.
  unfold writer_payload. destruct product.
  - by rewrite !dom_insert_L, !dom_singleton_L.
  - by rewrite !dom_singleton_L.
Qed.

(** X3: without faults, a call of [set_stock_for_product] overwrites the one
    before it for the same product: after the quantities [q1] and then [q2]
    the store, the cache and the sessions are what a single call with [q2]
    leaves, and the second call reports an update, never an insert.  With
    [q1 = q2] the call is idempotent. *)
Theorem set_stock_for_product_overwrites (product_id q1 q2 : Z) (w : world) :
  faults w = [] →
  let r1 := set_stock_for_product product_id q1 w in
  let r2 := set_stock_for_product product_id q2 r1.2 in
  let r := set_stock_for_product product_id q2 w in
  committed r2.2 = committed r.2
  ∧ cache r2.2 = cache r.2
  ∧ sessions r2.2 = sessions r.2
  ∧ ∃ n, 0 < n ∧ r2.1 = Return ("rows updated: " +:+ py_str n).
Proof.
  intros Hq r1 r2 r. subst r1 r2 r.
  rewrite (set_stock_for_product_quiet product_id q1 w Hq). cbn [snd].
  rewrite (set_stock_for_product_quiet product_id q2 w Hq).
  rewrite set_stock_for_product_quiet by done.
  cbn [fst snd committed sessions cache stocks products].
  fold (upserted product_id q1 (committed w)).
  pose proof (upserted_twice product_id q1 q2 (committed w)) as Htwice.
  pose proof (upserted_count product_id q1 q2 (committed w)) as Hcount.
  unfold upserted at 1 in Htwice. cbn [stocks products] in Htwice.
  unfold upserted at 1 in Hcount. cbn [stocks] in Hcount.
  split_and!.
  - exact Htwice.
  - unfold product_by_id. cbn [products]. apply redis_hset_twice, writer_payload_dom.
  - done.
  - eexists. split; [exact Hcount|]. rewrite decide_False by lia. done.
Qed.

Lemma set_stock_for_product_overwrites_witness :
  let r1 := set_stock_for_product 5 7 cold_world in
  let r2 := set_stock_for_product 5 0 r1.2 in
  committed r2.2 = committed (set_stock_for_product 5 0 cold_world).2
  ∧ cache r2.2 = cache (set_stock_for_product 5 0 cold_world).2.
Proof.
  destruct (set_stock_for_product_overwrites 5 7 0 cold_world eq_refl)
    as (Hstore & Hcache & _).
  split; [exact Hstore|exact Hcache].
Defined.


(** ** The batch store path under any plan of faults *)

Lemma batch_frame_refl session w : batch_frame session w w.
Proof. by repeat split. Qed.

Lemma batch_frame_trans session w1 w2 w3 :
  batch_frame session w1 w2 → batch_frame session w2 w3 → batch_frame session w1 w3.
Proof.
  intros (? & ? & ? & ? & ? & ?) (? & ? & ? & ? & ? & ?).
  repeat split; congruence.
Qed.

Lemma batch_frame_faults session w w' : same_but_faults w w' → batch_frame session w w'.
Proof.
  intros Hs. pose proof (session_view_same session _ _ Hs) as Hv.
  destruct Hs as (? & Hses & ? & ?). repeat split; try done; by rewrite ?Hv, ?Hses.
Qed.

Lemma session_view_set_same session t w : session_view session (set_view session t w) = t.
Proof. unfold session_view. simpl. by rewrite lookup_insert_eq. Qed.

Lemma batch_frame_statement session operation f pid qty w :
  sql_operator operation = Some f →
  batch_frame session w (session_execute_update_arith session operation pid qty w).2.
Proof.
  intros Hop. unfold session_execute_update_arith, bind.
  destruct (collaborator_call_cases w) as [(e & w' & -> & Hs)|(w' & -> & Hs)];
    cbn [snd]; [by apply batch_frame_faults|].
  eapply batch_frame_trans; [by apply batch_frame_faults|].
  rewrite Hop. cbn [snd]. repeat split; try done.
  - simpl. by rewrite delete_insert_eq.
  - by rewrite session_view_set_same.
  - rewrite session_view_set_same. cbn [stocks]. apply sql_update_arith_ids.
Qed.

Lemma batch_frame_item session order_items operation f item w :
  sql_operator operation = Some f →
  batch_frame session w (update_item session order_items operation item w).2.
Proof.
  intros Hop. unfold update_item, mbind, M_bind, bind, lift, ret.
  destruct (first_item order_items) as [first|e]; [|apply batch_frame_refl].
  destruct (hasattr_product_id first).
  - destruct (getattr item OrderItem.product_id) as [pid|e]; [|apply batch_frame_refl].
    destruct (getattr item OrderItem.quantity) as [qty|e]; [|apply batch_frame_refl].
    pose proof (batch_frame_statement session operation f pid qty w Hop) as Hst.
    by destruct (session_execute_update_arith session operation pid qty w) as [[n|e] w'].
  - destruct (getitem item OrderItem.product_id) as [pid|e]; [|apply batch_frame_refl].
    destruct (getitem item OrderItem.quantity) as [qty|e]; [|apply batch_frame_refl].
    pose proof (batch_frame_statement session operation f pid qty w Hop) as Hst.
    by destruct (session_execute_update_arith session operation pid qty w) as [[n|e] w'].
Qed.

Lemma batch_frame_loop session (body : OrderItem.t → M unit) xs w :
  (∀ item w, batch_frame session w (body item w).2) →
  batch_frame session w (for_each xs body w).2.
Proof.
  intros Hbody. revert w. induction xs as [|item xs IH]; intros w;
    [apply batch_frame_refl|].
  cbn [for_each]. unfold mbind, M_bind, bind.
  pose proof (Hbody item w) as Hitem.
  destruct (body item w) as [[[]|e] w1]; [|exact Hitem].
  eapply batch_frame_trans; [exact Hitem|apply IH].
Qed.

Lemma batch_frame_batch session order_items operation f w :
  sql_operator operation = Some f →
  batch_frame session w (update_stock_mysql session order_items operation w).2.
Proof.
  intros Hop. unfold update_stock_mysql, try_except, raise.
  pose proof (batch_frame_loop session (update_item session order_items operation)
                order_items w
                (λ item w, batch_frame_item session order_items operation f item w Hop))
    as Hloop.
  by destruct (for_each order_items _ w) as [[[]|e] w1].
Qed.

(** X5: whatever the items and the faults, [update_stock_mysql] with [+] or
    [-] stays within the transaction it was handed: it commits nothing, rolls
    back nothing, opens and closes no session and leaves the cache and the
    other sessions alone; in the view of its session the products and the
    product ids of the stock rows are the same before and after, so it
    inserts and deletes no row. *)
Theorem update_stock_mysql_owns_no_transaction
    (session : nat) (order_items : list OrderItem.t) (operation : string)
    (f : Z → Z → Z) (w : world) :
  sql_operator operation = Some f →
  let w' := (update_stock_mysql session order_items operation w).2 in
  committed w' = committed w ∧ cache w' = cache w ∧ log w' = log w
  ∧ delete session (sessions w') = delete session (sessions w)
  ∧ products (session_view session w') = products (session_view session w)
  ∧ Stock.product_id <$> stocks (session_view session w')
    = Stock.product_id <$> stocks (session_view session w).
Proof.
  intros Hop w'. subst w'. unfold update_stock_mysql, try_except, raise.
  pose proof (batch_frame_loop session (update_item session order_items operation)
                order_items w
                (λ item w, batch_frame_item session order_items operation f item w Hop))
    as Hloop.
  destruct (for_each order_items _ w) as [[[]|e] w1]; exact Hloop.
Qed.

Lemma update_stock_mysql_owns_no_transaction_witness :
  let w' := (update_stock_mysql 0 [as_object 1 2; as_mapping 1 3] "+"
               failing_commit_world).2 in
  committed w' = committed failing_commit_world
  ∧ cache w' = cache failing_commit_world
  ∧ log w' = log failing_commit_world
  ∧ delete 0%nat (sessions w') = delete 0%nat (sessions failing_commit_world)
  ∧ products (session_view 0 w') = products (session_view 0 failing_commit_world)
  ∧ Stock.product_id <$> stocks (session_view 0 w')
    = Stock.product_id <$> stocks (session_view 0 failing_commit_world).
Proof.
  exact (update_stock_mysql_owns_no_transaction 0 [as_object 1 2; as_mapping 1 3] "+"
           Z.add failing_commit_world eq_refl).
Defined.

(** ** What a batch adds up to *)

Lemma delta_app pid xs ys : delta pid (xs ++ ys) = delta pid xs + delta pid ys.
Proof.
  unfold delta. induction xs as [|pq xs IH]; [done|]. cbn [app foldr].
  rewrite IH. destruct (decide _); lia.
Qed.

Lemma delta_Permutation pid xs ys : xs ≡ₚ ys → delta pid xs = delta pid ys.
Proof.
  induction 1 as [|x xs ys _ IH|x y xs|xs ys zs _ IH1 _ IH2]; [done| | |congruence].
  - unfold delta in *. cbn [foldr]. by rewrite IH.
  - unfold delta. cbn [foldr]. repeat destruct (decide _); lia.
Qed.

Lemma ordered_Permutation pid xs ys : xs ≡ₚ ys → ordered pid xs = ordered pid ys.
Proof.
  intros Hp. unfold ordered, statements_of. apply delta_Permutation. by rewrite Hp.
Qed.

Lemma uniform_all xs :
  uniform xs = true ↔
  ∀ x y, x ∈ xs → y ∈ xs → hasattr_product_id x = hasattr_product_id y.
Proof.
  destruct xs as [|first rest]; [split; [by intros _ ? ? ?%elem_of_nil|done]|].
  unfold uniform. rewrite forallb_forall. split.
  - intros Hall x y Hx Hy.
    apply list_elem_of_In, Hall, bool_decide_eq_true in Hx.
    apply list_elem_of_In, Hall, bool_decide_eq_true in Hy. congruence.
  - intros Hall x Hx. apply bool_decide_eq_true, Hall; [by apply list_elem_of_In|by left].
Qed.

Lemma uniform_Permutation xs ys : xs ≡ₚ ys → uniform xs = true → uniform ys = true.
Proof.
  intros Hp. rewrite !uniform_all. intros Hall x y Hx Hy.
  apply Hall; by rewrite Hp.
Qed.

Lemma batch_totals session order_items operation f w :
  faults w = [] → sql_operator operation = Some f → uniform order_items = true →
  let r := update_stock_mysql session order_items operation w in
  r.1 = Return tt
  ∧ stocks (session_view session r.2)
    = apply_statements f
        ((λ item, (OrderItem.product_id (fields_of item),
                   OrderItem.quantity (fields_of item))) <$> order_items)
        (stocks (session_view session w)).
Proof.
  intros Hq Hop Huni r.
  destruct (update_stock_mysql_quiet session order_items operation f w Hq Hop)
    as (Hout & Hrows & _).
  fold r in Hout, Hrows. destruct order_items as [|first rest]; [done|].
  by rewrite Hout, Hrows, batch_outcome_uniform, issued_uniform.
Qed.

(** X7: without faults and with items of one shape, a batch adds up: after
    [check_in_items_to_stock] every stock row of the session's view holds its
    quantity plus everything the items order of its product, after
    [check_out_items_from_stock] its quantity minus that; items that repeat a
    product compound. *)
Theorem update_stock_mysql_adds_up
    (session : nat) (order_items : list OrderItem.t) (w : world) :
  faults w = [] → uniform order_items = true →
  let rows := stocks (session_view session w) in
  let r_in := check_in_items_to_stock session order_items w in
  let r_out := check_out_items_from_stock session order_items w in
  r_in.1 = Return tt ∧ r_out.1 = Return tt
  ∧ stocks (session_view session r_in.2)
    = (λ r, Stock.Make (Stock.product_id r)
              (Stock.quantity r + ordered (Stock.product_id r) order_items)) <$> rows
  ∧ stocks (session_view session r_out.2)
    = (λ r, Stock.Make (Stock.product_id r)
              (Stock.quantity r - ordered (Stock.product_id r) order_items)) <$> rows.
Proof.
  intros Hq Huni rows r_in r_out. subst r_in r_out.
  unfold check_in_items_to_stock, check_out_items_from_stock.
  destruct (batch_totals session order_items "+" Z.add w Hq eq_refl Huni) as [-> ->].
  destruct (batch_totals session order_items "-" Z.sub w Hq eq_refl Huni) as [-> ->].
  by rewrite apply_statements_add, apply_statements_sub.
Qed.

Lemma update_stock_mysql_adds_up_witness :
  stocks (session_view 0
            (check_out_items_from_stock 0 [as_object 1 8; as_object 1 8] cold_world).2)
  = (λ r, Stock.Make (Stock.product_id r)
            (Stock.quantity r - ordered (Stock.product_id r) [as_object 1 8; as_object 1 8]))
      <$> stocks (session_view 0 cold_world).
Proof.
  exact (proj2 (proj2 (proj2
    (update_stock_mysql_adds_up 0 [as_object 1 8; as_object 1 8] cold_world
       eq_refl eq_refl)))).
Defined.

(** X8: without faults, the order of the items of a batch of one shape does not
    matter to the store: a permutation of the items leaves the same stock
    rows in the session's view, for check-in and for check-out. *)
Theorem update_stock_mysql_order_independent
    (session : nat) (order_items order_items' : list OrderItem.t) (w : world) :
  faults w = [] → uniform order_items = true → order_items ≡ₚ order_items' →
  stocks (session_view session (check_in_items_to_stock session order_items' w).2)
  = stocks (session_view session (check_in_items_to_stock session order_items w).2)
  ∧ stocks (session_view session (check_out_items_from_stock session order_items' w).2)
    = stocks (session_view session (check_out_items_from_stock session order_items w).2)
  ∧ (check_in_items_to_stock session order_items' w).1 = Return tt
  ∧ (check_out_items_from_stock session order_items' w).1 = Return tt.
Proof.
  intros Hq Huni Hp.
  pose proof (uniform_Permutation _ _ Hp Huni) as Huni'.
  unfold check_in_items_to_stock, check_out_items_from_stock.
  destruct (batch_totals session order_items "+" Z.add w Hq eq_refl Huni) as [_ ->].
  destruct (batch_totals session order_items "-" Z.sub w Hq eq_refl Huni) as [_ ->].
  destruct (batch_totals session order_items' "+" Z.add w Hq eq_refl Huni') as [-> ->].
  destruct (batch_totals session order_items' "-" Z.sub w Hq eq_refl Huni') as [-> ->].
  rewrite !apply_statements_add, !apply_statements_sub.
  split_and!; try done; apply list_fmap_ext; intros i r _; simpl; f_equal; f_equal;
    symmetry; by apply (ordered_Permutation _ order_items order_items').
Qed.

Lemma update_stock_mysql_order_independent_witness :
  stocks (session_view 0
            (check_in_items_to_stock 0 [as_object 2 1; as_object 1 3] cold_world).2)
  = stocks (session_view 0
              (check_in_items_to_stock 0 [as_object 1 3; as_object 2 1] cold_world).2).
Proof.
  exact (proj1 (update_stock_mysql_order_independent 0
                  [as_object 1 3; as_object 2 1] [as_object 2 1; as_object 1 3] cold_world
                  eq_refl eq_refl (Permutation_swap _ _ _))).
Defined.


(** ** The cache path under any plan of faults *)

Lemma same_but_faults_refl w : same_but_faults w w.
Proof. by repeat split. Qed.

Lemma same_but_faults_trans w1 w2 w3 :
  same_but_faults w1 w2 → same_but_faults w2 w3 → same_but_faults w1 w3.
Proof. intros (? & ? & ? & ?) (? & ? & ? & ?). repeat split; congruence. Qed.

Lemma populate_any w :
  cache_effect w (_populate_redis_from_mysql tt w)
    (λ _ c, c = rehydrated (committed w) (cache w)) (λ c, c = cache w).
Proof.
  unfold _populate_redis_from_mysql, mbind, M_bind.
  unfold bind at 1.
  destruct (get_sqlalchemy_session_cases w)
    as [(e0 & Hr & Hs & Hl & Hc & Hca)|(h & Hr & Hfresh & Hs & Hl & Hc & Hca)].
  - destruct (get_sqlalchemy_session w) as [[h|e1] w1]; simpl in *; [done|].
    unfold cache_effect. cbn [fst snd]. by split_and!.
  - destruct (get_sqlalchemy_session w) as [[h'|e1] w1]; simpl in Hr; [|done].
    simplify_eq. cbn [fst snd] in *.
    assert (session_view h w1 = committed w) as Hview.
    { unfold session_view. by rewrite Hs, lookup_insert_eq. }
    unfold try_finally, try_except, populate_try, mbind, M_bind.
    unfold session_execute_join, pipeline_execute.
    call_step h.
    { unfold cache_effect. run_handlers. split_and!; [|done|done].
      by apply sessions_released. }
    chase.
    destruct (decide (length (sql_join (committed w)) = 0%nat)) as [Hlen|Hlen].
    + unfold cache_effect. run_handlers. split_and!; [by apply sessions_released|done|].
      apply length_zero_iff_nil in Hlen. unfold rehydrated. by rewrite Hlen.
    + call_step h.
      { unfold cache_effect. run_handlers. split_and!; [|done|done].
        by apply sessions_released. }
      unfold cache_effect. run_handlers. split_and!; [by apply sessions_released|done|done].
Qed.

Lemma adjust_item_any operation (product_map : gmap Z Product.t) t pipeline item w :
  product_map !! item.1.1 = snapshot_of item.1.1 t →
  let r := adjust_item operation product_map pipeline item w in
  same_but_faults w r.2
  ∧ match r.1 with
    | Return queue =>
        ∃ cmd, adjust_command operation t (cache w) item = Return cmd
               ∧ queue = pipeline ++ [cmd]
    | Raise _ => True
    end.
Proof.
  destruct item as [[pid qty] up]. cbn [fst snd]. intros Hmap.
  unfold adjust_item, adjust_command, r_hget, mbind, M_bind, bind, ret. cbn [fst snd].
  destruct (collaborator_call_cases w) as [(e & w' & -> & Hs)|(w' & -> & Hs)];
    cbn [fst snd]; [done|].
  assert (cache w' = cache w) as -> by apply Hs.
  unfold current_stock, new_quantity, lift, truthy.
  destruct (redis_hget (stock_key pid) "quantity" (cache w)) as [[[|a s]|d]|];
    cbv beta iota zeta; cbn [fst snd]; rewrite ?Hmap, ?adjusted_mapping_build;
    try (split; [done|]; by eexists).
  destruct (int_of_rtext (Text (String a s))); cbv beta iota zeta; cbn [fst snd];
    rewrite ?Hmap, ?adjusted_mapping_build; (split; [done|]); [by eexists|done].
Qed.

Lemma adjust_loop_any operation (product_map : gmap Z Product.t) t items pipeline w :
  (∀ item, item ∈ items → product_map !! item.1.1 = snapshot_of item.1.1 t) →
  let r := fold_for items pipeline (adjust_item operation product_map) w in
  same_but_faults w r.2
  ∧ match r.1 with
    | Return queue =>
        ∃ cmds, collect (adjust_command operation t (cache w)) items = Return cmds
                ∧ queue = pipeline ++ cmds
    | Raise _ => True
    end.
Proof.
  revert pipeline w. induction items as [|item items IH]; intros pipeline w Hmap.
  - simpl. split; [apply same_but_faults_refl|]. exists []. by rewrite app_nil_r.
  - cbn [fold_for collect]. unfold mbind, M_bind, bind.
    destruct (adjust_item_any operation product_map t pipeline item w) as [Hs Hitem];
      [apply Hmap; by left|].
    destruct (adjust_item operation product_map pipeline item w) as [[queue|e] w1];
      cbn [fst snd] in *; [|done].
    destruct Hitem as (cmd & -> & ->).
    destruct (IH (pipeline ++ [cmd]) w1) as [Hs1 Hrest];
      [intros ? ?; apply Hmap; by right|].
    split; [by eapply same_but_faults_trans|].
    destruct (fold_for items _ _ w1) as [[queue|e] w2]; cbn [fst snd] in *; [|done].
    destruct Hrest as (cmds & Hcmds & ->).
    assert (cache w1 = cache w) as Hc by apply Hs. rewrite Hc in Hcmds. rewrite Hcmds.
    exists (cmd :: cmds). by rewrite <- app_assoc.
Qed.

Lemma query_products_any h (ids : gset Z) w :
  let r := (if decide (ids = ∅) then ret []
            else session_query_products_in h ids) w in
  same_but_faults w r.2
  ∧ match r.1 with
    | Return ps =>
        ∀ pid, pid ∈ ids →
          foldl (λ m product, <[Product.id product := product]> m)
                (∅ : gmap Z Product.t) ps !! pid
          = snapshot_of pid (session_view h w)
    | Raise _ => True
    end.
Proof.
  destruct (decide (ids = ∅)) as [Hempty|Hne]; cbn [ret fst snd].
  - split; [apply same_but_faults_refl|]. intros pid Hin. rewrite Hempty in Hin.
    by apply not_elem_of_empty in Hin.
  - unfold session_query_products_in, bind.
    destruct (collaborator_call_cases w) as [(e & w' & -> & Hs)|(w' & -> & Hs)];
      cbn [fst snd]; [done|].
    split; [done|]. intros pid Hin. rewrite (session_view_same h w w' Hs).
    by apply product_map_snapshot.
Qed.

Lemma pipeline_execute_any queue w :
  let r := pipeline_execute queue w in
  committed r.2 = committed w ∧ sessions r.2 = sessions w
  ∧ match r.1 with
    | Return _ => cache r.2 = run_pipeline queue (cache w)
    | Raise _ => cache r.2 = cache w
    end.
Proof.
  unfold pipeline_execute, bind.
  destruct (collaborator_call_cases w) as [(e & w' & -> & Hs)|(w' & -> & Hs)];
    destruct Hs as (Hc & Hses & Hca & _); cbn [fst snd]; world_simpl; by rewrite ?Hca.
Qed.

Lemma adjust_entries_any order_items operation w :
  cache_effect w (adjust_entries order_items operation w)
    (λ _ c, ∃ queue,
       collect (adjust_command operation (committed w) (cache w))
               (normalized <$> order_items) = Return queue
       ∧ c = run_pipeline queue (cache w))
    (λ c, c = cache w).
Proof.
  unfold adjust_entries, mbind, M_bind.
  unfold bind at 1. rewrite normalize_loop_quiet. cbv beta iota. rewrite app_nil_l.
  set (ids := foldl _ ∅ order_items).
  assert (∀ item, item ∈ normalized <$> order_items → item.1.1 ∈ ids) as Hids.
  { intros item (it & -> & Hin)%list_elem_of_fmap. apply elem_of_collected_ids. right.
    exact (list_elem_of_fmap_2 (λ item, OrderItem.product_id (fields_of item)) _ _ Hin). }
  unfold bind at 1.
  destruct (get_sqlalchemy_session_cases w)
    as [(e0 & Hr & Hs & Hl & Hc & Hca)|(h & Hr & Hfresh & Hs & Hl & Hc & Hca)].
  - destruct (get_sqlalchemy_session w) as [[h|e1] w1]; simpl in *; [done|].
    unfold cache_effect. cbn [fst snd]. by split_and!.
  - destruct (get_sqlalchemy_session w) as [[h'|e1] w1]; simpl in Hr; [|done].
    simplify_eq. cbn [fst snd] in *.
    assert (session_view h w1 = committed w) as Hview.
    { unfold session_view. by rewrite Hs, lookup_insert_eq. }
    unfold try_finally. unfold bind at 1.
    destruct (query_products_any h ids w1) as [Hs2 Hps].
    destruct ((if decide (ids = ∅) then ret [] else session_query_products_in h ids) w1)
      as [[ps|e] w2]; cbn [fst snd] in *.
    2:{ destruct Hs2 as (Hc2 & Hses2 & Hca2 & _).
        unfold cache_effect, session_close. cbn [fst snd]. world_simpl.
        rewrite Hses2, Hs, Hc2, Hca2. split_and!; [by apply sessions_released|done|done]. }
    unfold bind at 1.
    destruct (adjust_loop_any operation
                (foldl (λ m product, <[Product.id product := product]> m)
                       (∅ : gmap Z Product.t) ps)
                (committed w) (normalized <$> order_items) [] w2) as [Hs3 Hloop].
    { intros item Hin. rewrite <- Hview. by apply Hps, Hids. }
    destruct (fold_for (normalized <$> order_items) [] _ w2) as [[queue|e] w3];
      cbn [fst snd] in *.
    2:{ destruct Hs2 as (Hc2 & Hses2 & Hca2 & _). destruct Hs3 as (Hc3 & Hses3 & Hca3 & _).
        unfold cache_effect, session_close. cbn [fst snd]. world_simpl.
        rewrite Hses3, Hses2, Hs, Hc3, Hc2, Hca3, Hca2.
        split_and!; [by apply sessions_released|done|done]. }
    destruct Hloop as (cmds & Hcmds & ->). rewrite app_nil_l.
    destruct Hs2 as (Hc2 & Hses2 & Hca2 & _). destruct Hs3 as (Hc3 & Hses3 & Hca3 & _).
    rewrite Hca2, Hca in Hcmds.
    destruct (pipeline_execute_any cmds w3) as (Hc4 & Hses4 & Hca4).
    destruct (pipeline_execute cmds w3) as [[[]|e] w4]; cbn [fst snd] in *;
      unfold cache_effect, session_close; cbn [fst snd]; world_simpl;
      rewrite Hses4, Hses3, Hses2, Hs, Hc4, Hc3, Hc2, Hca4, Hca3, Hca2.
    + split_and!; [by apply sessions_released|done|]. exists cmds. by rewrite Hca.
    + split_and!; [by apply sessions_released|done|done].
Qed.

Lemma update_stock_redis_any item rest operation w :
  cache_effect w (update_stock_redis (item :: rest) operation w)
    (λ _ c, ∃ queue,
       collect (adjust_command operation (committed w) (cache_at_start w))
               (normalized <$> item :: rest) = Return queue
       ∧ c = run_pipeline queue (cache_at_start w))
    (λ c, c = cache w ∨ c = cache_at_start w).
Proof.
  unfold update_stock_redis, get_redis_conn, r_scan_iter_stock, mbind, M_bind.
  destruct (call_cases_plain
              (λ r, bind (bind collaborator_call
                            (λ _ w, (Return (redis_scan_stock (cache w)), w)))
                      (λ keys, bind match keys with
                                    | [] => _populate_redis_from_mysql r
                                    | _ :: _ => ret tt
                                    end
                                 (λ _, adjust_entries (item :: rest) operation))) w)
    as [(e & w1 & -> & Hs1)|(w1 & -> & Hs1)];
    destruct Hs1 as (Hc1 & Hses1 & Hca1 & _).
  { unfold cache_effect. cbn [fst snd]. split_and!; [done|done|by left]. }
  destruct (call_cases (λ w, (Return (redis_scan_stock (cache w)), w))
              (λ keys, bind match keys with
                            | [] => _populate_redis_from_mysql tt
                            | _ :: _ => ret tt
                            end
                         (λ _, adjust_entries (item :: rest) operation)) w1)
    as [(e & w2 & -> & Hs2)|(w2 & -> & Hs2)];
    destruct Hs2 as (Hc2 & Hses2 & Hca2 & _).
  { unfold cache_effect. cbn [fst snd]. split_and!; [congruence|congruence|left; congruence]. }
  cbv beta iota. unfold cache_at_start. rewrite Hca2, Hca1.
  destruct (redis_scan_stock (cache w)) as [|key keys].
  - unfold bind.
    destruct (populate_any w2) as (Hses3 & Hc3 & Hca3).
    destruct (_populate_redis_from_mysql tt w2) as [[[]|e] w3]; cbn [fst snd] in *.
    2:{ unfold cache_effect. cbn [fst snd].
        split_and!; [congruence|congruence|left; congruence]. }
    destruct (adjust_entries_any (item :: rest) operation w3) as (Hses4 & Hc4 & Hca4).
    rewrite Hc3, Hca3, Hc2, Hca2, Hc1, Hca1 in Hca4.
    unfold cache_effect. split_and!; [congruence|congruence|].
    destruct (adjust_entries (item :: rest) operation w3).1; [done|by right].
  - unfold bind, ret.
    destruct (adjust_entries_any (item :: rest) operation w2) as (Hses4 & Hc4 & Hca4).
    rewrite Hc2, Hca2, Hc1, Hca1 in Hca4.
    unfold cache_effect. split_and!; [congruence|congruence|].
    destruct (adjust_entries (item :: rest) operation w2).1; [done|by right].
Qed.

(** X11: whatever calls fail, [update_stock_redis] writes the adjustments of a
    batch to the cache all together or not at all.  It leaves the sessions
    and the committed tables as they were, and on the empty sequence it
    returns at once and calls nothing.  With plain texts in the quantity
    fields it reads: when it raises, no adjustment was written, the cache is
    as before the call or as rehydration left it; when it returns for a
    sequence that is not empty, every quantity it read was readable and the
    cache holds all the adjustments, applied to the cache the per-item
    processing started from. *)
Theorem update_stock_redis_all_or_nothing
    (order_items : list OrderItem.t) (operation : string) (w : world) :
  let c := cache_at_start w in
  let items := normalized <$> order_items in
  let r := update_stock_redis order_items operation w in
  sessions r.2 = sessions w ∧ committed r.2 = committed w
  ∧ (order_items = [] → r = (Return tt, w))
  ∧ (Forall (λ item, plain_quantity c item.1.1) items →
       (∀ e, r.1 = Raise e → cache r.2 = cache w ∨ cache r.2 = c)
       ∧ (r.1 = Return tt → order_items ≠ [] →
            Forall (λ item, readable c item.1.1) items
            ∧ cache r.2
              = run_pipeline (entry_write operation (committed w) c <$> items) c)).
Proof.
  intros c items r. subst r.
  destruct order_items as [|item rest]; [by split_and!|].
  destruct (update_stock_redis_any item rest operation w) as (Hses & Hc & Hca).
  destruct (update_stock_redis (item :: rest) operation w) as [[[]|e] w'];
    cbn [fst snd] in *.
  - split_and!; [done|done|done|]. intros _. split; [done|]. intros _ _.
    destruct Hca as (queue & Hqueue & ->). fold c in Hqueue. fold c.
    destruct (readable_all_dec c items) as [Hall|Hno].
    + split; [done|]. rewrite collect_readable in Hqueue by done. by simplify_eq.
    + destruct (collect_unreadable operation (committed w) c _ Hno) as [e He].
      subst items. congruence.
  - split_and!; [done|done|done|]. intros _. split; [|done]. intros _ _. exact Hca.
Qed.

Lemma update_stock_redis_all_or_nothing_witness :
  cache (update_stock_redis [as_mapping 1 3] "-" cold_world).2
  = run_pipeline
      (entry_write "-" (committed cold_world) (cache_at_start cold_world)
         <$> (normalized <$> [as_mapping 1 3]))
      (cache_at_start cold_world).
Proof.
  destruct (update_stock_redis_all_or_nothing [as_mapping 1 3] "-" cold_world)
    as (_ & _ & _ & Hplain).
  destruct Hplain as [_ Hret]; [repeat constructor|].
  apply Hret; [reflexivity|discriminate].
Defined.


(** ** Entries are added, never removed *)

Lemma redis_hset_keeps key mapping c k :
  is_Some (c !! k) → is_Some (redis_hset key mapping c !! k).
Proof.
  intros Hk. unfold redis_hset. destruct (decide (k = key)) as [->|Hne].
  - rewrite lookup_insert_eq. eauto.
  - by rewrite lookup_insert_ne.
Qed.

Lemma redis_hset_creates key mapping c : is_Some (redis_hset key mapping c !! key).
Proof. unfold redis_hset. rewrite lookup_insert_eq. eauto. Qed.

Lemma run_pipeline_creates queue c cmd :
  cmd ∈ queue → is_Some (run_pipeline queue c !! cmd.1).
Proof.
  induction queue as [|cmd' queue IH] using rev_ind; [by intros ?%elem_of_nil|].
  rewrite run_pipeline_snoc. intros [Hin|Hin]%elem_of_app.
  - by apply redis_hset_keeps, IH.
  - apply list_elem_of_singleton in Hin as ->. apply redis_hset_creates.
Qed.

Lemma cache_at_start_keeps w k :
  is_Some (cache w !! k) → is_Some (cache_at_start w !! k).
Proof.
  intros Hk. unfold cache_at_start. destruct (redis_scan_stock (cache w)); [|done].
  by apply run_pipeline_keeps.
Qed.

(** X16: whatever calls fail, no command of the module removes an entry of the
    cache: a key that is there before [set_stock_for_product],
    [update_stock_redis] or [_populate_redis_from_mysql] is there afterwards. *)
Theorem cache_entries_never_removed (k : string) (w : world) :
  is_Some (cache w !! k) →
  (∀ product_id quantity,
     is_Some (cache (set_stock_for_product product_id quantity w).2 !! k))
  ∧ (∀ order_items operation,
       is_Some (cache (update_stock_redis order_items operation w).2 !! k))
  ∧ is_Some (cache (_populate_redis_from_mysql tt w).2 !! k).
Proof.
  intros Hk. split_and!.
  - intros product_id quantity.
    destruct (set_stock_for_product_any product_id quantity w) as (_ & Hres).
    destruct (set_stock_for_product product_id quantity w) as [[message|e] w'];
      cbn [fst snd] in *.
    + destruct Hres as (_ & -> & _). by apply redis_hset_keeps.
    + destruct Hres as (-> & _). done.
  - intros [|item rest] operation; [done|].
    destruct (update_stock_redis_any item rest operation w) as (_ & _ & Hres).
    destruct (update_stock_redis (item :: rest) operation w) as [[[]|e] w'];
      cbn [fst snd] in *.
    + destruct Hres as (queue & _ & ->). by apply run_pipeline_keeps, cache_at_start_keeps.
    + destruct Hres as [->| ->]; [done|by apply cache_at_start_keeps].
  - destruct (populate_any w) as (_ & _ & Hres).
    destruct (_populate_redis_from_mysql tt w) as [[[]|e] w']; cbn [fst snd] in *.
    + rewrite Hres. by apply run_pipeline_keeps.
    + by rewrite Hres.
Qed.

Lemma cache_entries_never_removed_witness :
  is_Some (cache (update_stock_redis [as_mapping 5 1] "-" warm_world).2 !! stock_key 1).
Proof.
  refine (proj1 (proj2 (cache_entries_never_removed (stock_key 1) warm_world _)) _ _).
  vm_compute. eauto.
Defined.

Lemma collect_commands operation t c items queue :
  collect (adjust_command operation t c) items = Return queue →
  queue.*1 = (λ item, stock_key item.1.1) <$> items.
Proof.
  revert queue. induction items as [|item items IH]; intros queue; cbn [collect].
  - by intros [= <-].
  - unfold adjust_command at 1. destruct (current_stock c item.1.1); [|done].
    destruct (collect _ items) as [cmds|]; [|done]. intros [= <-].
    cbn [fmap list_fmap fst]. f_equal. by apply IH.
Qed.

(** X17: whatever calls fail, a write that returns leaves an entry behind:
    [set_stock_for_product] the entry of its product, [update_stock_redis]
    on a sequence that is not empty the entry of the product of every item.
    So the cache is warm afterwards, and the next [update_stock_redis] finds
    a key in [stock:*] and does not rehydrate. *)
Theorem returned_writes_leave_entries (w : world) :
  (∀ product_id quantity message,
     (set_stock_for_product product_id quantity w).1 = Return message →
     let c := cache (set_stock_for_product product_id quantity w).2 in
     is_Some (c !! stock_key product_id) ∧ redis_scan_stock c ≠ [])
  ∧ (∀ order_items operation,
       order_items ≠ [] →
       (update_stock_redis order_items operation w).1 = Return tt →
       let c := cache (update_stock_redis order_items operation w).2 in
       (∀ item, item ∈ order_items →
          is_Some (c !! stock_key (OrderItem.product_id (fields_of item))))
       ∧ redis_scan_stock c ≠ []).
Proof.
  split.
  - intros product_id quantity message Hret c. subst c.
    destruct (set_stock_for_product_any product_id quantity w) as (_ & Hres).
    rewrite Hret in Hres. destruct Hres as (_ & -> & _).
    split; [apply redis_hset_creates|].
    apply warm_iff. exists (stock_key product_id).
    split; [apply stock_key_matches|apply redis_hset_creates].
  - intros [|first rest] operation Hne Hret c; [done|]. subst c.
    destruct (update_stock_redis_any first rest operation w) as (_ & _ & Hres).
    rewrite Hret in Hres. destruct Hres as (queue & Hqueue & ->).
    apply collect_commands in Hqueue.
    assert (∀ item, item ∈ first :: rest →
              is_Some (run_pipeline queue (cache_at_start w)
                         !! stock_key (OrderItem.product_id (fields_of item)))) as Hall.
    { intros item Hin.
      assert (stock_key (OrderItem.product_id (fields_of item)) ∈ queue.*1) as Hkey.
      { rewrite Hqueue, <- list_fmap_compose.
        exact (list_elem_of_fmap_2
                 (λ item, stock_key (OrderItem.product_id (fields_of item))) _ _ Hin). }
      apply list_elem_of_fmap in Hkey as (cmd & -> & Hcmd).
      by apply run_pipeline_creates. }
    split; [exact Hall|].
    apply warm_iff. exists (stock_key (OrderItem.product_id (fields_of first))).
    split; [apply stock_key_matches|]. apply Hall. by left.
Qed.

Lemma returned_writes_leave_entries_witness :
  redis_scan_stock (cache (set_stock_for_product 5 7 cold_world).2) ≠ [].
Proof.
  refine (proj2 (proj1 (returned_writes_leave_entries cold_world) 5 7 _ _)).
  vm_compute. reflexivity.
Defined.


(** ** The keys an adjustment touches *)

Lemma cache_at_start_lookup w k :
  matches_stock_pattern k = false ∨ redis_scan_stock (cache w) ≠ [] →
  cache_at_start w !! k = cache w !! k.
Proof.
  intros [Hout|Hwarm].
  - unfold cache_at_start. destruct (redis_scan_stock (cache w)); [|done].
    by apply rehydrated_lookup_outside.
  - by rewrite cache_at_start_warm.
Qed.

(** X12: whatever calls fail, [update_stock_redis] leaves alone every key that is
    not the stock key of the product of one of its items, provided the key is
    outside [stock:*] or the cache held a key of [stock:*] before the call
    (no rehydration then). *)
Theorem update_stock_redis_only_its_keys
    (order_items : list OrderItem.t) (operation : string) (w : world) (k : string) :
  (∀ item, item ∈ order_items → k ≠ stock_key (OrderItem.product_id (fields_of item))) →
  matches_stock_pattern k = false ∨ redis_scan_stock (cache w) ≠ [] →
  cache (update_stock_redis order_items operation w).2 !! k = cache w !! k.
Proof.
  intros Hk Hstart. destruct order_items as [|first rest]; [done|].
  destruct (update_stock_redis_any first rest operation w) as (_ & _ & Hres).
  destruct (update_stock_redis (first :: rest) operation w) as [[[]|e] w'];
    cbn [fst snd] in *.
  - destruct Hres as (queue & Hqueue & ->). apply collect_commands in Hqueue.
    rewrite run_pipeline_lookup_other; [by apply cache_at_start_lookup|].
    intros cmd Hcmd Heq.
    assert (cmd.1 ∈ queue.*1) as Hin by by apply list_elem_of_fmap_2.
    rewrite Hqueue, <- list_fmap_compose in Hin.
    apply list_elem_of_fmap in Hin as (item & Hkey & Hitem).
    apply (Hk item Hitem). by rewrite <- Heq, Hkey.
  - destruct Hres as [->| ->]; [done|by apply cache_at_start_lookup].
Qed.

Lemma update_stock_redis_only_its_keys_witness :
  cache (update_stock_redis [as_mapping 5 1] "-" warm_world).2 !! stock_key 1
  = cache warm_world !! stock_key 1
  ∧ is_Some (cache warm_world !! stock_key 1).
Proof.
  split; [|vm_compute; eauto].
  apply (update_stock_redis_only_its_keys [as_mapping 5 1] "-" warm_world (stock_key 1)).
  - intros item Hin Heq. apply list_elem_of_singleton in Hin. subst item.
    vm_compute in Heq. discriminate Heq.
  - right. vm_compute. discriminate.
Defined.

(** ** Items that repeat a product *)

(** X13: without faults the reads of [update_stock_redis] all come before its
    writes, so of several items for one product only the last one counts:
    afterwards the quantity of the product is the quantity the processing
    started from adjusted by the last of its items alone, and a product no
    item names keeps its quantity field. *)
Theorem update_stock_redis_last_item_wins
    (order_items : list OrderItem.t) (operation : string) (w : world) (pid : Z) :
  faults w = [] → order_items ≠ [] →
  Forall (λ item, readable (cache_at_start w) item.1.1) (normalized <$> order_items) →
  let c := cache_at_start w in
  let r := update_stock_redis order_items operation w in
  match last_item_for pid (normalized <$> order_items) with
  | Some item =>
      current_stock (cache r.2) pid
      = Return (new_quantity operation (read_stock c pid) item.1.2)
  | None =>
      redis_hget (stock_key pid) "quantity" (cache r.2)
      = redis_hget (stock_key pid) "quantity" c
  end.
Proof.
  intros Hq Hne Hall c r.
  destruct (update_stock_redis_run order_items operation w Hq Hne) as (_ & _ & Hok & _).
  destruct (Hok Hall) as [_ Hcache]. fold r c in Hcache.
  pose proof (entry_writes_quantity operation (committed w) c
                (normalized <$> order_items) c pid) as Hget.
  rewrite <- Hcache in Hget.
  destruct (last_item_for pid (normalized <$> order_items)) as [item|]; [|done].
  by apply current_stock_integer.
Qed.

Lemma update_stock_redis_last_item_wins_witness :
  current_stock
    (cache (update_stock_redis [as_mapping 1 3; as_mapping 1 4] "-" cold_world).2) 1
  = Return (new_quantity "-" (read_stock (cache_at_start cold_world) 1) 4).
Proof.
  assert ([as_mapping 1 3; as_mapping 1 4] ≠ []) as Hne by discriminate.
  assert (Forall (λ item, readable (cache_at_start cold_world) item.1.1)
                 (normalized <$> [as_mapping 1 3; as_mapping 1 4])) as Hall.
  { repeat constructor; exists 10; vm_compute; reflexivity. }
  exact (update_stock_redis_last_item_wins [as_mapping 1 3; as_mapping 1 4] "-"
           cold_world 1 eq_refl Hne Hall).
Defined.

(** ** What a warm cache does not see *)

(** X14: without faults and with a key of [stock:*] in the cache,
    [update_stock_redis] does not depend on the stock rows of the store:
    whatever rows the store holds, the call has the same outcome and leaves
    the same cache.  A quantity changed in the store alone is not picked
    up. *)
Theorem update_stock_redis_ignores_stock_rows
    (order_items : list OrderItem.t) (operation : string) (w : world)
    (rows : list Stock.t) :
  faults w = [] → redis_scan_stock (cache w) ≠ [] →
  let w' := set_committed (Tables rows (products (committed w))) w in
  (update_stock_redis order_items operation w').1
  = (update_stock_redis order_items operation w).1
  ∧ cache (update_stock_redis order_items operation w').2
    = cache (update_stock_redis order_items operation w).2.
Proof.
  intros Hq Hwarm w'. destruct (decide (order_items = [])) as [->|Hne]; [done|].
  assert (faults w' = []) as Hq' by done.
  rewrite (update_stock_redis_quiet order_items operation w Hq Hne).
  rewrite (update_stock_redis_quiet order_items operation w' Hq' Hne).
  change (cache w') with (cache w).
  destruct (redis_scan_stock (cache w)) as [|key keys]; [done|].
  rewrite (adjust_entries_quiet order_items operation w Hq).
  rewrite (adjust_entries_quiet order_items operation w' Hq').
  cbv zeta. change (cache w') with (cache w).
  change (collect (adjust_command operation (committed w') (cache w)))
    with (collect (adjust_command operation (committed w) (cache w))).
  by destruct (collect _ _).
Qed.

Lemma update_stock_redis_ignores_stock_rows_witness :
  cache (update_stock_redis [as_mapping 1 3] "-"
           (set_committed (Tables [Stock.Make 1 500] (products (committed warm_world)))
                          warm_world)).2
  = cache (update_stock_redis [as_mapping 1 3] "-" warm_world).2.
Proof.
  refine (proj2 (update_stock_redis_ignores_stock_rows [as_mapping 1 3] "-" warm_world
                   [Stock.Make 1 500] eq_refl _)).
  vm_compute. discriminate.
Defined.


(** ** Store and cache, one after the other *)

Lemma records_of_fmap pid (g : Stock.t → Stock.t) rows :
  (∀ r, Stock.product_id (g r) = Stock.product_id r) →
  records_of pid (g <$> rows) = g <$> records_of pid rows.
Proof.
  intros Hg. unfold records_of. induction rows as [|r rows IH]; [done|].
  csimpl. rewrite !filter_cons, Hg.
  destruct (decide (Stock.product_id r = pid)); csimpl; by rewrite IH.
Qed.

Lemma writer_payload_quantity quantity product :
  writer_payload quantity product !! "quantity" = Some (PInt quantity).
Proof. by destruct product. Qed.

(** X18: without faults, the batch store path followed by the cache path, for
    items of one shape and an operation that is [+] or [-]: a product that
    has one stock row in the session's view and reads the same quantity in a
    warm cache ends in the store at that quantity adjusted by everything the
    items order of it, and in the cache at that quantity adjusted by its last
    item alone.  The two agree when the product occurs in one item, and drift
    apart when items repeat it. *)
Theorem batch_store_then_cache
    (session : nat) (order_items : list OrderItem.t) (operation : string) (w : world)
    (pid q : Z) (item : Z * Z * option Decimal) :
  faults w = [] → redis_scan_stock (cache w) ≠ [] →
  operation = "+" ∨ operation = "-" →
  uniform order_items = true →
  Forall (λ it, readable (cache w) it.1.1) (normalized <$> order_items) →
  records_of pid (stocks (session_view session w)) = [Stock.Make pid q] →
  current_stock (cache w) pid = Return q →
  last_item_for pid (normalized <$> order_items) = Some item →
  let r1 := update_stock_mysql session order_items operation w in
  let r2 := update_stock_redis order_items operation r1.2 in
  r1.1 = Return tt ∧ r2.1 = Return tt
  ∧ records_of pid (stocks (session_view session r2.2))
    = [Stock.Make pid (new_quantity operation q (ordered pid order_items))]
  ∧ current_stock (cache r2.2) pid = Return (new_quantity operation q item.1.2).
Proof.
  intros Hq Hwarm Hop Huni Hall Hrec Hcur Hlast r1 r2.
  assert (order_items ≠ []) as Hne by (by intros ->).
  assert (∃ f, sql_operator operation = Some f
               ∧ ∀ a b, f a b = new_quantity operation a b) as (f & Hf & Hnew).
  { destruct Hop as [-> | ->]; [by exists Z.add|by exists Z.sub]. }
  destruct (batch_totals session order_items operation f w Hq Hf Huni) as [Hout Hrows].
  destruct (update_stock_mysql_quiet session order_items operation f w Hq Hf)
    as (_ & _ & _ & Hq1).
  pose proof (batch_frame_batch session order_items operation f w Hf)
    as (Hc1 & Hca1 & _).
  fold r1 in Hout, Hrows, Hq1, Hc1, Hca1.
  assert (redis_scan_stock (cache r1.2) ≠ []) as Hwarm1 by by rewrite Hca1.
  destruct (update_stock_redis_run order_items operation r1.2 Hq1 Hne)
    as (_ & _ & Hok & _).
  rewrite (cache_at_start_warm r1.2 Hwarm1), Hca1 in Hok.
  destruct (Hok Hall) as [Hout2 Hcache2]. fold r2 in Hout2, Hcache2.
  assert (session_view session r2.2 = session_view session r1.2) as Hview.
  { destruct order_items as [|first rest]; [done|].
    destruct (update_stock_redis_any first rest operation r1.2) as (Hses & Hcom & _).
    fold r2 in Hses, Hcom. unfold session_view. by rewrite Hses, Hcom. }
  split_and!; [done|done| |].
  - rewrite Hview, Hrows.
    rewrite (apply_statements_ext f (λ a b, new_quantity operation a b)) by done.
    destruct Hop as [-> | ->].
    + rewrite (apply_statements_ext _ Z.add) by done.
      rewrite apply_statements_add, records_of_fmap, Hrec by done. done.
    + rewrite (apply_statements_ext _ Z.sub) by done.
      rewrite apply_statements_sub, records_of_fmap, Hrec by done. done.
  - pose proof (entry_writes_quantity operation (committed r1.2) (cache w)
                  (normalized <$> order_items) (cache w) pid) as Hget.
    rewrite <- Hcache2, Hlast in Hget. unfold read_stock in Hget. rewrite Hcur in Hget.
    by apply current_stock_integer.
Qed.

Lemma batch_store_then_cache_witness :
  let r1 := update_stock_mysql 0 [as_object 1 3; as_object 1 4] "-" warm_world in
  let r2 := update_stock_redis [as_object 1 3; as_object 1 4] "-" r1.2 in
  records_of 1 (stocks (session_view 0 r2.2))
  = [Stock.Make 1 (new_quantity "-" 10 (ordered 1 [as_object 1 3; as_object 1 4]))]
  ∧ current_stock (cache r2.2) 1 = Return (new_quantity "-" 10 4).
Proof.
  assert (redis_scan_stock (cache warm_world) ≠ []) as Hwarm
    by (vm_compute; discriminate).
  assert (Forall (λ it, readable (cache warm_world) it.1.1)
                 (normalized <$> [as_object 1 3; as_object 1 4])) as Hall
    by (repeat constructor; exists 10; vm_compute; reflexivity).
  destruct (batch_store_then_cache 0 [as_object 1 3; as_object 1 4] "-" warm_world
              1 10 (1, 4, None) eq_refl Hwarm (or_intror eq_refl) eq_refl Hall
              eq_refl eq_refl eq_refl) as (_ & _ & Hstore & Hcache).
  split; [exact Hstore|exact Hcache].
Defined.

(** ** A write and then an adjustment *)

Lemma current_stock_written pid q product c :
  current_stock (redis_hset (stock_key pid) (writer_payload q product) c) pid = Return q.
Proof.
  apply current_stock_integer. rewrite redis_hget_hset, decide_True by done.
  by rewrite writer_payload_quantity.
Qed.

Lemma current_stock_written_other pid p mapping c :
  p ≠ pid → current_stock (redis_hset (stock_key pid) mapping c) p = current_stock c p.
Proof.
  intros Hne. apply current_stock_hget. rewrite redis_hget_hset, decide_False; [done|].
  by intros ?%(inj stock_key).
Qed.

(** X19: without faults, the quantity [set_stock_for_product] writes is the one
    [update_stock_redis] reads back: after a write of [q] for a product, an
    adjustment whose last item for that product carries [d] returns and
    leaves the product at [q + d] for [+] and at [q - d] otherwise, whatever
    the cache held for it before (the other items being for this product or
    for products with a readable quantity). *)
Theorem set_stock_then_adjust
    (product_id q : Z) (order_items : list OrderItem.t) (operation : string)
    (w : world) (item : Z * Z * option Decimal) :
  faults w = [] →
  (∀ it, it ∈ normalized <$> order_items →
     it.1.1 = product_id ∨ readable (cache w) it.1.1) →
  last_item_for product_id (normalized <$> order_items) = Some item →
  let r1 := set_stock_for_product product_id q w in
  let r2 := update_stock_redis order_items operation r1.2 in
  r2.1 = Return tt
  ∧ current_stock (cache r2.2) product_id = Return (new_quantity operation q item.1.2).
Proof.
  intros Hq Hitems Hlast r1 r2.
  assert (order_items ≠ []) as Hne by (by intros ->).
  pose proof (set_stock_for_product_quiet product_id q w Hq) as Hr1. cbv zeta in Hr1.
  fold r1 in Hr1.
  set (payload := writer_payload q (product_by_id product_id (committed w))) in *.
  assert (faults r1.2 = [] ∧ cache r1.2 = redis_hset (stock_key product_id) payload (cache w))
    as [Hq1 Hca1] by (by rewrite Hr1).
  assert (redis_scan_stock (cache r1.2) ≠ []) as Hwarm.
  { apply warm_iff. exists (stock_key product_id).
    split; [apply stock_key_matches|]. rewrite Hca1. apply redis_hset_creates. }
  assert (current_stock (cache r1.2) product_id = Return q) as Hcur.
  { rewrite Hca1. apply current_stock_written. }
  assert (Forall (λ it, readable (cache r1.2) it.1.1) (normalized <$> order_items)) as Hall.
  { apply Forall_forall. intros it Hin.
    destruct (decide (it.1.1 = product_id)) as [->|Hother]; [by exists q|].
    destruct (Hitems it Hin) as [?|[z Hz]]; [done|]. exists z.
    by rewrite Hca1, current_stock_written_other. }
  destruct (update_stock_redis_run order_items operation r1.2 Hq1 Hne)
    as (_ & _ & Hok & _).
  rewrite (cache_at_start_warm r1.2 Hwarm) in Hok.
  destruct (Hok Hall) as [Hout2 Hcache2]. fold r2 in Hout2, Hcache2.
  split; [done|].
  pose proof (entry_writes_quantity operation (committed r1.2) (cache r1.2)
                (normalized <$> order_items) (cache r1.2) product_id) as Hget.
  rewrite <- Hcache2, Hlast in Hget. unfold read_stock in Hget. rewrite Hcur in Hget.
  by apply current_stock_integer.
Qed.

Lemma set_stock_then_adjust_witness :
  let r1 := set_stock_for_product 5 7 cold_world in
  let r2 := update_stock_redis [as_mapping 5 3] "-" r1.2 in
  r2.1 = Return tt ∧ current_stock (cache r2.2) 5 = Return (new_quantity "-" 7 3).
Proof.
  apply (set_stock_then_adjust 5 7 [as_mapping 5 3] "-" cold_world (5, 3, None) eq_refl).
  - intros it Hin. apply list_elem_of_singleton in Hin. subst it. by left.
  - reflexivity.
Defined.


(** ** Rehydration of a cache that is not empty *)

Lemma union_absorb (m1 m2 m3 : gmap string rtext) :
  dom m2 ⊆ dom m1 → m1 ∪ (m2 ∪ m3) = m1 ∪ m3.
Proof. intros Hsub. by rewrite (assoc_L (∪)), (same_fields_union m1 m2). Qed.

Lemma rehydrated_lookup_any rows c k :
  run_pipeline (populate_pipeline rows) c !! k
  = match last (filter (λ row, stock_key (row_id row) = k) rows) with
    | Some row => Some (rehydrated_entry row ∪ default ∅ (c !! k))
    | None => c !! k
    end.
Proof.
  induction rows as [|row rows IH] using rev_ind; [done|].
  rewrite populate_pipeline_snoc, filter_app.
  destruct (populate_command_entry row) as (m & -> & Henc & Hdom).
  rewrite run_pipeline_snoc. cbn [fst snd].
  rewrite filter_cons, filter_nil.
  destruct (decide (stock_key (row_id row) = k)) as [Heq|Hne].
  - rewrite last_snoc. subst k. unfold redis_hset. rewrite lookup_insert_eq, Henc, IH.
    destruct (last (filter _ rows)) as [row'|]; [|done]. simpl. f_equal.
    apply union_absorb. by rewrite !rehydrated_entry_dom.
  - rewrite app_nil_r, redis_hset_lookup_ne by done. apply IH.
Qed.

Lemma rehydrated_twice t c : rehydrated t (rehydrated t c) = rehydrated t c.
Proof.
  apply map_eq. intros k. unfold rehydrated. rewrite !rehydrated_lookup_any.
  destruct (last (filter _ (sql_join t))) as [row|]; [|done]. simpl. f_equal.
  by apply union_absorb.
Qed.

(** X15: without faults, [_populate_redis_from_mysql] on any cache, cold or not:
    a key that some joined row maps to gets the quantity, name, sku and price
    of the last such row and keeps the other fields of an entry it had; every
    other key is left as it was.  Run a second time, it returns again and
    changes nothing. *)
Theorem populate_redis_from_mysql_refreshes (w : world) :
  faults w = [] →
  let r := _populate_redis_from_mysql tt w in
  (∀ k, cache r.2 !! k
        = match last (filter (λ row, stock_key (row_id row) = k) (sql_join (committed w))) with
          | Some row => Some (rehydrated_entry row ∪ default ∅ (cache w !! k))
          | None => cache w !! k
          end)
  ∧ (_populate_redis_from_mysql tt r.2).1 = Return tt
  ∧ cache (_populate_redis_from_mysql tt r.2).2 = cache r.2.
Proof.
  intros Hq r. subst r. rewrite (populate_quiet w Hq). cbn [fst snd cache].
  split; [intros k; apply rehydrated_lookup_any|].
  rewrite populate_quiet by done. cbn [fst snd cache committed].
  split; [done|apply rehydrated_twice].
Qed.

Lemma populate_redis_from_mysql_refreshes_witness :
  cache (_populate_redis_from_mysql tt (_populate_redis_from_mysql tt cold_world).2).2
  = cache (_populate_redis_from_mysql tt cold_world).2.
Proof.
  exact (proj2 (proj2 (populate_redis_from_mysql_refreshes cold_world eq_refl))).
Defined.


(** ** A batch that fails half way *)






(** ** The writer and a rehydration write the same entry *)

Lemma product_by_id_unique t p :
  NoDup (Product.id <$> products t) → p ∈ products t →
  product_by_id (Product.id p) t = Some p.
Proof.
  intros Hnd Hp. unfold product_by_id.
  assert (p ∈ filter (λ p', Product.id p' = Product.id p) (products t)) as Hin
    by by apply list_elem_of_filter.
  destruct (filter _ (products t)) as [|p' ps] eqn:E; [by apply elem_of_nil in Hin|].
  assert (p' ∈ filter (λ p', Product.id p' = Product.id p) (products t)) as Hin'
    by (rewrite E; by left).
  apply list_elem_of_filter in Hin' as [Hid Hp']. simpl. f_equal.
  by apply (NoDup_fmap_eq Product.id (products t)).
Qed.

Lemma upserted_ids pid q t :
  Stock.product_id <$> stocks (upserted pid q t)
  = if decide ((sql_update_set pid q (stocks t)).1 = 0)
    then (Stock.product_id <$> stocks t) ++ [pid]
    else Stock.product_id <$> stocks t.
Proof.
  unfold upserted. cbn [stocks].
  destruct (decide _); by rewrite ?fmap_app, sql_update_set_ids.
Qed.

Lemma upserted_NoDup pid q t :
  NoDup (Stock.product_id <$> stocks t) →
  NoDup (Stock.product_id <$> stocks (upserted pid q t)).
Proof.
  intros Hnd. rewrite upserted_ids. destruct (decide _) as [Hzero|]; [|done].
  apply NoDup_app. split_and!; [done| |apply NoDup_singleton].
  intros x Hx ->%list_elem_of_singleton.
  apply sql_update_set_count, records_of_absent in Hzero. done.
Qed.

Lemma upserted_record pid q t : Stock.Make pid q ∈ stocks (upserted pid q t).
Proof.
  unfold upserted. cbn [stocks].
  destruct (decide _) as [Hzero|Hsome]; [apply elem_of_app; right; by left|].
  assert (records_of pid (stocks t) ≠ []) as Hrec.
  { intros Hno. by apply Hsome, sql_update_set_count. }
  unfold records_of in Hrec.
  destruct (filter _ (stocks t)) as [|r rs] eqn:E; [done|].
  assert (r ∈ filter (λ r, Stock.product_id r = pid) (stocks t)) as Hin
    by (rewrite E; by left).
  apply list_elem_of_filter in Hin as [Hid Hr].
  unfold sql_update_set. cbn [snd]. apply list_elem_of_fmap. exists r.
  split; [|done]. by rewrite decide_True, Hid.
Qed.

(** X4: without faults and with unique product ids in both tables, the entry
    [set_stock_for_product] leaves for a product of the catalogue is the one
    a rehydration from the store it has just committed would write: the
    quantity, name, sku and price of the joined row, over whatever other
    fields the entry held before. *)
Theorem set_stock_for_product_agrees_with_rehydration
    (quantity : Z) (w : world) (p : Product.t) :
  faults w = [] →
  NoDup (Stock.product_id <$> stocks (committed w)) →
  NoDup (Product.id <$> products (committed w)) →
  p ∈ products (committed w) →
  let r := set_stock_for_product (Product.id p) quantity w in
  let key := stock_key (Product.id p) in
  ∃ entry,
    rehydrated (committed r.2) ∅ !! key = Some entry
    ∧ cache r.2 !! key = Some (entry ∪ default ∅ (cache w !! key))
    ∧ entry = {["quantity" := Text (py_str quantity); "name" := Text (Product.name p);
                "sku" := Text (Product.sku p); "price" := FloatText (Product.price p)]}.
Proof.
  intros Hq Hks Hkp Hp r key. subst r key.
  rewrite (set_stock_for_product_quiet (Product.id p) quantity w Hq).
  cbn [fst snd committed cache].
  fold (upserted (Product.id p) quantity (committed w)).
  rewrite (product_by_id_unique _ _ Hkp Hp).
  eexists. split_and!; [| |reflexivity].
  - apply (rehydrated_entry_of (upserted (Product.id p) quantity (committed w)) ∅
             (Stock.Make (Product.id p) quantity) p);
      first [by apply upserted_NoDup|apply upserted_record|done].
  - unfold redis_hset. rewrite lookup_insert_eq. by f_equal.
Qed.

Lemma set_stock_for_product_agrees_with_rehydration_witness :
  ∃ entry,
    rehydrated (committed (set_stock_for_product 1 7 cold_world).2) ∅ !! stock_key 1
    = Some entry
    ∧ cache (set_stock_for_product 1 7 cold_world).2 !! stock_key 1
      = Some (entry ∪ default ∅ (cache cold_world !! stock_key 1)).
Proof.
  assert (NoDup (Stock.product_id <$> stocks (committed cold_world))) as Hks
    by (apply NoDup_singleton).
  assert (NoDup (Product.id <$> products (committed cold_world))) as Hkp
    by (apply NoDup_singleton).
  assert (widget ∈ products (committed cold_world)) as Hp by (by left).
  destruct (set_stock_for_product_agrees_with_rehydration 7 cold_world widget
              eq_refl Hks Hkp Hp) as (entry & H1 & H2 & _).
  exists entry. split; [exact H1|exact H2].
Defined.

